(** * LRU-K replacer of BusTub (src/buffer/lru_k_replacer.cpp)

    A shallow embedding of the [LRUKReplacer] class and the proofs of the
    properties its specification states about it.

    The class keeps, for every frame, a history of access timestamps, an
    access counter and an evictable flag, and two linked lists: [new_frames_]
    (frames with fewer than [k_] accesses, most recent first) and [k_frames_]
    (frames with at least [k_] accesses, sorted by their k-th most recent
    timestamp).  Every public member function takes the latch [latch_] for
    its whole duration.

    The member functions are functions on the object in a state-and-error
    monad; the properties are stated for the objects that a sequence of
    completed calls leads to, starting from the constructor.

    The last part of the file embeds the persistent trie of
    [primer/trie.cpp]: [Get], [Put] and [Remove] as functions on immutable
    tries. *)

From Stdlib Require Import ZArith Lia List Ascii String.
From stdpp Require Import gmap list sorting strings.

Local Open Scope Z_scope.
Set Warnings "-clear-no-such-hyp".
Set Warnings "-register-all".

(** ** Machine integers *)

(** [size_t] is a 64-bit unsigned integer: [++] and [--] wrap around. *)
Definition size_t_wrap (z : Z) : Z := z mod 2 ^ 64.

(** [frame_id_t] is a 32-bit signed integer.  The range checks compare a
    frame id with [static_cast<frame_id_t>(replacer_size_)]. *)
Definition static_cast_frame_id (z : Z) : Z := (z + 2 ^ 31) mod 2 ^ 32 - 2 ^ 31.

(** ** The replacer object *)

(** Modelled from the spec: the class declaration (buffer/lru_k_replacer.h)
    is not part of the sources.  The member types are read off their uses in
    the member functions and the specification's design notes ("pointer-based
    lists with an auxiliary id -> position lookup"): the three per-frame
    tables are hash maps read through [operator[]], the two indexes are
    [std::list]s, and [new_pos_] / [k_pos_] map a frame id to the list
    iterator of its node.  An iterator stored for a frame designates the node
    of that frame, so the position maps are kept as the sets of frame ids that
    have a stored iterator. *)
Record LRUKReplacer := mkReplacer {
  replacer_size_ : Z;
  k_ : Z;
  max_size_ : Z;
  current_timestamp_ : Z;
  curr_size_ : Z;
  hist_ : gmap Z (list Z);
  record_cnt_ : gmap Z Z;
  evictable_ : gmap Z bool;
  new_frames_ : list Z;
  new_pos_ : gset Z;
  k_frames_ : list (Z * Z);
  k_pos_ : gset Z;
  latch_ : bool
}.

(** [operator[]] on an absent key yields the value-initialised element.  The
    entry it creates cannot be told apart from an absent one by any read of
    the class, so reads go through a lookup with that default. *)
Definition hist (s : LRUKReplacer) (frame : Z) : list Z :=
  default [] (hist_ s !! frame).
Definition record_cnt (s : LRUKReplacer) (frame : Z) : Z :=
  default 0 (record_cnt_ s !! frame).
Definition evictable (s : LRUKReplacer) (frame : Z) : bool :=
  default false (evictable_ s !! frame).

(** Field updates. *)
Definition set_max_size (v : Z) (s : LRUKReplacer) : LRUKReplacer :=
  mkReplacer (replacer_size_ s) (k_ s) v (current_timestamp_ s) (curr_size_ s)
    (hist_ s) (record_cnt_ s) (evictable_ s) (new_frames_ s) (new_pos_ s)
    (k_frames_ s) (k_pos_ s) (latch_ s).
Definition set_current_timestamp (v : Z) (s : LRUKReplacer) : LRUKReplacer :=
  mkReplacer (replacer_size_ s) (k_ s) (max_size_ s) v (curr_size_ s)
    (hist_ s) (record_cnt_ s) (evictable_ s) (new_frames_ s) (new_pos_ s)
    (k_frames_ s) (k_pos_ s) (latch_ s).
Definition set_curr_size (v : Z) (s : LRUKReplacer) : LRUKReplacer :=
  mkReplacer (replacer_size_ s) (k_ s) (max_size_ s) (current_timestamp_ s) v
    (hist_ s) (record_cnt_ s) (evictable_ s) (new_frames_ s) (new_pos_ s)
    (k_frames_ s) (k_pos_ s) (latch_ s).
Definition set_hist (v : gmap Z (list Z)) (s : LRUKReplacer) : LRUKReplacer :=
  mkReplacer (replacer_size_ s) (k_ s) (max_size_ s) (current_timestamp_ s)
    (curr_size_ s) v (record_cnt_ s) (evictable_ s) (new_frames_ s)
    (new_pos_ s) (k_frames_ s) (k_pos_ s) (latch_ s).
Definition set_record_cnt (v : gmap Z Z) (s : LRUKReplacer) : LRUKReplacer :=
  mkReplacer (replacer_size_ s) (k_ s) (max_size_ s) (current_timestamp_ s)
    (curr_size_ s) (hist_ s) v (evictable_ s) (new_frames_ s) (new_pos_ s)
    (k_frames_ s) (k_pos_ s) (latch_ s).
Definition set_evictable (v : gmap Z bool) (s : LRUKReplacer) : LRUKReplacer :=
  mkReplacer (replacer_size_ s) (k_ s) (max_size_ s) (current_timestamp_ s)
    (curr_size_ s) (hist_ s) (record_cnt_ s) v (new_frames_ s) (new_pos_ s)
    (k_frames_ s) (k_pos_ s) (latch_ s).
Definition set_new_frames (v : list Z) (s : LRUKReplacer) : LRUKReplacer :=
  mkReplacer (replacer_size_ s) (k_ s) (max_size_ s) (current_timestamp_ s)
    (curr_size_ s) (hist_ s) (record_cnt_ s) (evictable_ s) v (new_pos_ s)
    (k_frames_ s) (k_pos_ s) (latch_ s).
Definition set_new_pos (v : gset Z) (s : LRUKReplacer) : LRUKReplacer :=
  mkReplacer (replacer_size_ s) (k_ s) (max_size_ s) (current_timestamp_ s)
    (curr_size_ s) (hist_ s) (record_cnt_ s) (evictable_ s) (new_frames_ s) v
    (k_frames_ s) (k_pos_ s) (latch_ s).
Definition set_k_frames (v : list (Z * Z)) (s : LRUKReplacer) : LRUKReplacer :=
  mkReplacer (replacer_size_ s) (k_ s) (max_size_ s) (current_timestamp_ s)
    (curr_size_ s) (hist_ s) (record_cnt_ s) (evictable_ s) (new_frames_ s)
    (new_pos_ s) v (k_pos_ s) (latch_ s).
Definition set_k_pos (v : gset Z) (s : LRUKReplacer) : LRUKReplacer :=
  mkReplacer (replacer_size_ s) (k_ s) (max_size_ s) (current_timestamp_ s)
    (curr_size_ s) (hist_ s) (record_cnt_ s) (evictable_ s) (new_frames_ s)
    (new_pos_ s) (k_frames_ s) v (latch_ s).
Definition set_latch (v : bool) (s : LRUKReplacer) : LRUKReplacer :=
  mkReplacer (replacer_size_ s) (k_ s) (max_size_ s) (current_timestamp_ s)
    (curr_size_ s) (hist_ s) (record_cnt_ s) (evictable_ s) (new_frames_ s)
    (new_pos_ s) (k_frames_ s) (k_pos_ s) v.

(** The assignments the member functions make to the tables and counters. *)

(** [record_cnt_[frame] = v] *)
Definition record_cnt_assign (frame v : Z) (s : LRUKReplacer) : LRUKReplacer :=
  set_record_cnt (<[frame := v]> (record_cnt_ s)) s.
(** [++record_cnt_[frame]] *)
Definition record_cnt_incr (frame : Z) (s : LRUKReplacer) : LRUKReplacer :=
  record_cnt_assign frame (size_t_wrap (record_cnt s frame + 1)) s.
(** [hist_[frame]] becomes [h] *)
Definition hist_assign (frame : Z) (h : list Z) (s : LRUKReplacer)
  : LRUKReplacer :=
  set_hist (<[frame := h]> (hist_ s)) s.
(** [hist_[frame].push_back(t)] *)
Definition hist_push_back (frame t : Z) (s : LRUKReplacer) : LRUKReplacer :=
  hist_assign frame (hist s frame ++ [t]) s.
(** [evictable_[frame] = v] *)
Definition evictable_assign (frame : Z) (v : bool) (s : LRUKReplacer)
  : LRUKReplacer :=
  set_evictable (<[frame := v]> (evictable_ s)) s.
(** [current_timestamp_++] *)
Definition current_timestamp_incr (s : LRUKReplacer) : LRUKReplacer :=
  set_current_timestamp (size_t_wrap (current_timestamp_ s + 1)) s.
(** [curr_size_++] and [curr_size_--] *)
Definition curr_size_incr (s : LRUKReplacer) : LRUKReplacer :=
  set_curr_size (size_t_wrap (curr_size_ s + 1)) s.
Definition curr_size_decr (s : LRUKReplacer) : LRUKReplacer :=
  set_curr_size (size_t_wrap (curr_size_ s - 1)) s.
(** [++max_size_] and [--max_size_] *)
Definition max_size_incr (s : LRUKReplacer) : LRUKReplacer :=
  set_max_size (size_t_wrap (max_size_ s + 1)) s.
Definition max_size_decr (s : LRUKReplacer) : LRUKReplacer :=
  set_max_size (size_t_wrap (max_size_ s - 1)) s.
(** [new_pos_[frame] = it] and [new_pos_.erase(frame)] *)
Definition new_pos_assign (frame : Z) (s : LRUKReplacer) : LRUKReplacer :=
  set_new_pos ({[frame]} ∪ new_pos_ s) s.
Definition new_pos_erase (frame : Z) (s : LRUKReplacer) : LRUKReplacer :=
  set_new_pos (new_pos_ s ∖ {[frame]}) s.
(** [k_pos_[frame] = it] and [k_pos_.erase(frame)] *)
Definition k_pos_assign (frame : Z) (s : LRUKReplacer) : LRUKReplacer :=
  set_k_pos ({[frame]} ∪ k_pos_ s) s.
Definition k_pos_erase (frame : Z) (s : LRUKReplacer) : LRUKReplacer :=
  set_k_pos (k_pos_ s ∖ {[frame]}) s.

(** ** Member functions as a state-and-error monad *)

(** The two conditions under which [std::exception] is thrown, named as the
    specification names them. *)
Inductive error := InvalidFrame | IllegalRemoval.

(** A call returns normally with a value and the new object, leaves by an
    exception (with the object as it is when the exception leaves), or has
    undefined behaviour. *)
Inductive outcome (A : Type) : Type :=
| Ok (a : A) (s : LRUKReplacer)
| Throw (e : error) (s : LRUKReplacer)
| Undefined.
Arguments Ok {A} a s.
Arguments Throw {A} e s.
Arguments Undefined {A}.

Definition M (A : Type) : Type := LRUKReplacer → outcome A.

Global Instance M_ret : MRet M := λ A (a : A) s, Ok a s.
Global Instance M_bind : MBind M :=
  λ A B (k : A → M B) (m : M A) s,
    match m s with
    | Ok a s' => k a s'
    | Throw e s' => Throw e s'
    | Undefined => Undefined
    end.
Definition ret {A} (a : A) : M A := mret a.
Definition throw {A} (e : error) : M A := λ s, Throw e s.
Definition get : M LRUKReplacer := λ s, Ok s s.
Definition modify (f : LRUKReplacer → LRUKReplacer) : M unit :=
  λ s, Ok tt (f s).

(** [std::lock_guard<std::mutex> lock(latch_)]: [std::mutex] is not
    recursive, so locking it while the calling thread already owns it is
    undefined behaviour; the guard releases the latch on every way out of the
    function. *)
Definition lock_guard {A} (body : M A) : M A :=
  λ s, if latch_ s then Undefined
       else match body (set_latch true s) with
            | Ok a s' => Ok a (set_latch false s')
            | Throw e s' => Throw e (set_latch false s')
            | Undefined => Undefined
            end.

(** *** List primitives *)

(** [std::list::erase] through the iterator stored for [frame]: unlinks the
    node of [frame]. *)
Fixpoint list_erase (frame : Z) (l : list Z) : list Z :=
  match l with
  | [] => []
  | x :: l' => if decide (x = frame) then l' else x :: list_erase frame l'
  end.

Fixpoint k_list_erase (frame : Z) (l : list (Z * Z)) : list (Z * Z) :=
  match l with
  | [] => []
  | x :: l' => if decide (x.1 = frame) then l' else x :: k_list_erase frame l'
  end.

(** [new_frames_.erase(new_pos_[frame])].  Without a stored iterator
    [operator[]] produces a singular one, and erasing through a singular or
    dangling iterator is undefined. *)
Definition new_frames_erase (frame : Z) : M unit :=
  λ s, if bool_decide (frame ∈ new_pos_ s)
          && bool_decide (frame ∈ new_frames_ s)
       then Ok tt (set_new_frames (list_erase frame (new_frames_ s)) s)
       else Undefined.

(** [k_frames_.erase(k_pos_[frame])]. *)
Definition k_frames_erase (frame : Z) : M unit :=
  λ s, if bool_decide (frame ∈ k_pos_ s)
          && bool_decide (frame ∈ (k_frames_ s).*1)
       then Ok tt (set_k_frames (k_list_erase frame (k_frames_ s)) s)
       else Undefined.

(** [hist_[frame].front()]: undefined on an empty container. *)
Definition hist_front (frame : Z) : M Z :=
  λ s, match hist s frame with
       | [] => Undefined
       | t :: _ => Ok t s
       end.

(** [hist_[frame].erase(hist_[frame].begin())]. *)
Definition hist_erase_begin (frame : Z) : M unit :=
  λ s, match hist s frame with
       | [] => Undefined
       | _ :: h => Ok tt (hist_assign frame h s)
       end.

(** [CmpTimestamp]: compares the timestamps of two [k_time] pairs. *)
Definition CmpTimestamp (f1 f2 : Z * Z) : bool := f1.2 <? f2.2.

(** [it = std::upper_bound(begin, end, new_k, CmpTimestamp)] followed by
    [insert(it, new_k)]: [it] is the first node [y] with
    [CmpTimestamp(new_k, y)], or [end()]. *)
Fixpoint upper_bound_insert (new_k : Z * Z) (l : list (Z * Z)) : list (Z * Z) :=
  match l with
  | [] => [new_k]
  | y :: l' => if CmpTimestamp new_k y then new_k :: y :: l'
               else y :: upper_bound_insert new_k l'
  end.

(** The second loop of [Evict]: the first node of [k_frames_] whose frame is
    evictable, together with the list once [erase(it)] has unlinked it. *)
Fixpoint k_frames_scan (ev : Z → bool) (l : list (Z * Z))
  : option (Z * list (Z * Z)) :=
  match l with
  | [] => None
  | y :: l' =>
      if ev y.1 then Some (y.1, l')
      else match k_frames_scan ev l' with
           | Some (frame, r) => Some (frame, y :: r)
           | None => None
           end
  end.

(** *** The member functions *)

(** The constructor.  It sets [replacer_size_], [k_] and [max_size_]; the
    clock and the size start at 0 and the tables and lists are empty. *)
Definition LRUKReplacer_new (num_frames k : Z) : LRUKReplacer :=
  mkReplacer num_frames k num_frames 0 0 ∅ ∅ ∅ [] ∅ [] ∅ false.

Definition Size (s : LRUKReplacer) : Z := curr_size_ s.

Definition Evict : M (option Z) :=
  lock_guard (
    s ← get;
    if Size s =? 0 then ret None
    else
      match find (evictable s) (rev (new_frames_ s)) with
      | Some frame =>
          modify (record_cnt_assign frame 0) ;;
          new_frames_erase frame ;;
          modify (new_pos_erase frame) ;;
          modify (hist_assign frame []) ;;
          modify curr_size_decr ;;
          ret (Some frame)
      | None =>
          match k_frames_scan (evictable s) (k_frames_ s) with
          | Some (frame, rest) =>
              modify (record_cnt_assign frame 0) ;;
              modify (set_k_frames rest) ;;
              modify (k_pos_erase frame) ;;
              modify (hist_assign frame []) ;;
              modify curr_size_decr ;;
              ret (Some frame)
          | None => ret None
          end
      end).

(** The tail shared by the [cnt == k_] and [cnt > k_] branches of
    [RecordAccess]: read the k-th most recent timestamp and insert the pair
    at its sorted position. *)
Definition k_frames_place (frame_id : Z) : M unit :=
  kth_time ← hist_front frame_id ;
  modify (λ s, set_k_frames
                 (upper_bound_insert (frame_id, kth_time) (k_frames_ s)) s) ;;
  modify (k_pos_assign frame_id).

Definition RecordAccess (frame_id : Z) : M unit :=
  lock_guard (
    s ← get ;
    if frame_id >? static_cast_frame_id (replacer_size_ s)
    then throw InvalidFrame
    else
      modify current_timestamp_incr ;;
      modify (λ s, hist_push_back frame_id (current_timestamp_ s) s) ;;
      modify (record_cnt_incr frame_id) ;;
      s ← get ;
      let cnt := record_cnt s frame_id in
      (if cnt =? 1 then
         (if curr_size_ s =? replacer_size_ s
          then (_ ← Evict ; ret tt) else ret tt) ;;
         modify (evictable_assign frame_id true) ;;
         modify curr_size_incr ;;
         modify (λ s, set_new_frames (frame_id :: new_frames_ s) s) ;;
         modify (new_pos_assign frame_id)
       else ret tt) ;;
      s ← get ;
      if cnt =? k_ s then
        new_frames_erase frame_id ;;
        modify (new_pos_erase frame_id) ;;
        k_frames_place frame_id
      else if cnt >? k_ s then
        hist_erase_begin frame_id ;;
        k_frames_erase frame_id ;;
        k_frames_place frame_id
      else ret tt).

Definition SetEvictable (frame_id : Z) (set_evictable_flag : bool) : M unit :=
  lock_guard (
    s ← get ;
    if record_cnt s frame_id =? 0 then ret tt
    else
      let status := evictable s frame_id in
      modify (evictable_assign frame_id set_evictable_flag) ;;
      (if status && negb set_evictable_flag then
         modify max_size_decr ;;
         modify curr_size_decr
       else ret tt) ;;
      (if negb status && set_evictable_flag then
         modify max_size_incr ;;
         modify curr_size_incr
       else ret tt)).

Definition Remove (frame_id : Z) : M unit :=
  lock_guard (
    s ← get ;
    if frame_id >? static_cast_frame_id (replacer_size_ s)
    then throw InvalidFrame
    else
      let cnt := record_cnt s frame_id in
      if cnt =? 0 then ret tt
      else if negb (evictable s frame_id) then throw IllegalRemoval
      else if cnt <? k_ s then
        new_frames_erase frame_id ;;
        modify (new_pos_erase frame_id) ;;
        modify (record_cnt_assign frame_id 0) ;;
        modify (hist_assign frame_id []) ;;
        modify curr_size_decr
      else
        k_frames_erase frame_id ;;
        modify (k_pos_erase frame_id) ;;
        modify (record_cnt_assign frame_id 0) ;;
        modify (hist_assign frame_id []) ;;
        modify curr_size_decr).

(** ** Histories of calls *)

(** The calls a client can make.  [Size] only reads [curr_size_]. *)
Inductive call :=
| CallRecordAccess (frame_id : Z)
| CallEvict
| CallSetEvictable (frame_id : Z) (flag : bool)
| CallRemove (frame_id : Z).

Definition perform (c : call) : M unit :=
  match c with
  | CallRecordAccess f => RecordAccess f
  | CallEvict => _ ← Evict ; ret tt
  | CallSetEvictable f v => SetEvictable f v
  | CallRemove f => Remove f
  end.

(** The object after a sequence of calls, each of which completes: by
    returning, or by an exception that the client catches.  A call with
    undefined behaviour ends the history. *)
Fixpoint run (cs : list call) (s : LRUKReplacer) : option LRUKReplacer :=
  match cs with
  | [] => Some s
  | c :: cs' =>
      match perform c s with
      | Ok _ s' => run cs' s'
      | Throw _ s' => run cs' s'
      | Undefined => None
      end
  end.

(** ** Counting evictable frames *)

(** The number of nodes of a list whose frame is flagged evictable. *)
Fixpoint count_evictable (ev : Z → bool) (l : list Z) : Z :=
  match l with
  | [] => 0
  | x :: l' => (if ev x then 1 else 0) + count_evictable ev l'
  end.

(** ** The sorted index *)

(** [k_frames_] is ascending in the timestamp of its pairs. *)
Definition k_sorted (kl : list (Z * Z)) : Prop :=
  StronglySorted (λ a b : Z * Z, a.2 ≤ b.2) kl.

(** ** The representation invariant *)

(** The invariant of a replacer built for [num_frames] frames and history
    depth [k], after at most [n] calls. *)
Record Inv (num_frames k n : Z) (s : LRUKReplacer) : Prop := mkInv {
  inv_replacer_size : replacer_size_ s = num_frames;
  inv_k : k_ s = k;
  inv_latch : latch_ s = false;
  inv_new_nodup : NoDup (new_frames_ s);
  inv_k_nodup : NoDup (k_frames_ s).*1;
  inv_new_pos : ∀ f, f ∈ new_pos_ s ↔ f ∈ new_frames_ s;
  inv_k_pos : ∀ f, f ∈ k_pos_ s ↔ f ∈ (k_frames_ s).*1;
  inv_cold : ∀ f, f ∈ new_frames_ s ↔ 1 ≤ record_cnt s f < k;
  inv_warm : ∀ f, f ∈ (k_frames_ s).*1 ↔ k ≤ record_cnt s f;
  inv_cnt : ∀ f, 0 ≤ record_cnt s f ≤ n;
  inv_curr_size :
    curr_size_ s = count_evictable (evictable s) (new_frames_ s)
                   + count_evictable (evictable s) (k_frames_ s).*1;
  inv_tracked :
    Z.of_nat (length (new_frames_ s)) + Z.of_nat (length (k_frames_ s)) ≤ n;
  inv_hist_len : ∀ f, Z.of_nat (length (hist s f)) = Z.min (record_cnt s f) k;
  inv_key : ∀ f t, (f, t) ∈ k_frames_ s → head (hist s f) = Some t;
  inv_sorted : k_sorted (k_frames_ s);
  inv_clock : 0 ≤ current_timestamp_ s ≤ n;
  inv_hist_sorted : ∀ f, StronglySorted Z.lt (hist s f);
  inv_hist_clock : ∀ f t, t ∈ hist s f → 1 ≤ t ≤ current_timestamp_ s
}.

(** ** What [Evict] and [Remove] do to the frame they take out *)

(** The bookkeeping of [frame] is cleared and the size is one less; nothing
    else about the other frames, the flags or the clock changes. *)
Definition forgotten (frame : Z) (s s' : LRUKReplacer) : Prop :=
  hist s' frame = [] ∧ record_cnt s' frame = 0
  ∧ (frame ∉ new_frames_ s') ∧ (frame ∉ (k_frames_ s').*1)
  ∧ Size s' = Size s - 1
  ∧ (∀ g, g ≠ frame → hist s' g = hist s g ∧ record_cnt s' g = record_cnt s g)
  ∧ evictable_ s' = evictable_ s
  ∧ current_timestamp_ s' = current_timestamp_ s
  ∧ replacer_size_ s' = replacer_size_ s ∧ k_ s' = k_ s.

(** ** The frames counted by [Size] *)

(** The set of frames with a positive access count and the evictable flag
    set. *)
Definition evictable_tracked (s : LRUKReplacer) : gset Z :=
  filter (λ f, 0 < record_cnt s f ∧ evictable s f = true)
    (dom (record_cnt_ s)).

(** ** The victim of [Evict] *)

(** [frame] is the evictable frame of the cold index that is nearest to its
    back (the least recent end: [RecordAccess] pushes at the front), and [s']
    has the indexes of [s] without the node of [frame]. *)
Definition cold_victim (s : LRUKReplacer) (frame : Z) (s' : LRUKReplacer)
  : Prop :=
  ∃ l1 l2,
    new_frames_ s = l1 ++ frame :: l2 ∧ evictable s frame = true
    ∧ Forall (λ x, evictable s x = false) l2
    ∧ new_frames_ s' = l1 ++ l2 ∧ k_frames_ s' = k_frames_ s.

(** No frame of the cold index is evictable, [frame] is the first evictable
    frame of the warm index in ascending order, and [s'] has the indexes of
    [s] without the node of [frame]. *)
Definition warm_victim (s : LRUKReplacer) (frame : Z) (s' : LRUKReplacer)
  : Prop :=
  (∀ x, x ∈ new_frames_ s → evictable s x = false)
  ∧ ∃ t l1 l2,
      k_frames_ s = l1 ++ (frame, t) :: l2 ∧ evictable s frame = true
      ∧ Forall (λ y : Z * Z, evictable s y.1 = false) l1
      ∧ k_frames_ s' = l1 ++ l2 ∧ new_frames_ s' = new_frames_ s.

(** ** A concrete history

    A replacer for 3 frames with K = 2 on which frames 0, 1 and 0 are
    accessed in that order: frame 0 has reached K accesses and sits in the
    warm index, frame 1 is in the cold index. *)

Definition history_A : list call :=
  [CallRecordAccess 0; CallRecordAccess 1; CallRecordAccess 0].

Definition replacer_A : LRUKReplacer :=
  mkReplacer 3 2 3 3 2 {[0 := [1; 3]; 1 := [2]]} {[0 := 2; 1 := 1]}
    {[0 := true; 1 := true]} [1] {[1]} [(0, 1)] {[0]} false.

(** ** Timestamps and frame ids kept by the replacer *)

(** The oldest timestamp kept for [frame]: while the frame has fewer than
    [k_] accesses this is the timestamp of its first access since it was
    last forgotten, afterwards that of its [k_]-th most recent access. *)
Definition oldest_kept (s : LRUKReplacer) (frame : Z) : Z :=
  default 0 (head (hist s frame)).

(** No timestamp is kept for two frames, and the cold list is ordered by
    the first access of its frames, the most recent first. *)
Record TimeInv (s : LRUKReplacer) : Prop := mkTimeInv {
  tinv_unique : ∀ f g t, t ∈ hist s f → t ∈ hist s g → f = g;
  tinv_cold_order :
    StronglySorted (λ f g, oldest_kept s g < oldest_kept s f) (new_frames_ s)
}.

(** A call whose frame id, if it records an access, lies in
    [0, num_frames). *)
Definition valid_call (num_frames : Z) (c : call) : Prop :=
  match c with
  | CallRecordAccess f => 0 ≤ f < num_frames
  | _ => True
  end.

(** Every tracked frame has an id in [0, num_frames). *)
Definition tracked_in_range (num_frames : Z) (s : LRUKReplacer) : Prop :=
  ∀ f, record_cnt s f ≠ 0 → 0 ≤ f < num_frames.

(** Two more histories for 3 frames with K = 2.  After [history_B] the
    frames 0, 1 and 2 are in the cold list; after [history_C] the frames 0
    and 1 are in the warm index. *)
Definition history_B : list call :=
  [CallRecordAccess 0; CallRecordAccess 1; CallRecordAccess 2].

Definition replacer_B : LRUKReplacer :=
  mkReplacer 3 2 3 3 3 {[0 := [1]; 1 := [2]; 2 := [3]]}
    {[0 := 1; 1 := 1; 2 := 1]} {[0 := true; 1 := true; 2 := true]}
    [2; 1; 0] {[0; 1; 2]} [] ∅ false.

Definition history_C : list call :=
  [CallRecordAccess 0; CallRecordAccess 0; CallRecordAccess 1;
   CallRecordAccess 1].

Definition replacer_C : LRUKReplacer :=
  mkReplacer 3 2 3 4 2 {[0 := [1; 2]; 1 := [3; 4]]} {[0 := 2; 1 := 2]}
    {[0 := true; 1 := true]} [] ∅ [(0, 1); (1, 3)] {[0; 1]} false.

(** ** The accesses of a frame, told from the calls *)

(** The log of the accesses, kept beside the object and written from the
    calls and their outcomes alone.  The [RecordAccess] calls that return
    are numbered 1, 2, 3, ... in the order in which they are made; the log
    of a frame holds the numbers of its accesses, the oldest first.  A
    [RecordAccess] that throws is no access, and the log of a frame starts
    anew when [Evict] returns the frame or [Remove] returns for it. *)
Record access_log : Type :=
  mkLog { log_count : Z; log_of : gmap Z (list Z) }.

Definition log_frame (L : access_log) (frame : Z) : list Z :=
  default [] (log_of L !! frame).

Definition log_call (c : call) (s : LRUKReplacer) (L : access_log)
  : access_log :=
  match c with
  | CallRecordAccess f =>
      match RecordAccess f s with
      | Ok _ _ =>
          mkLog (log_count L + 1)
            (<[f := log_frame L f ++ [log_count L + 1]]> (log_of L))
      | _ => L
      end
  | CallEvict =>
      match Evict s with
      | Ok (Some victim) _ => mkLog (log_count L) (delete victim (log_of L))
      | _ => L
      end
  | CallSetEvictable _ _ => L
  | CallRemove f =>
      match Remove f s with
      | Ok _ _ => mkLog (log_count L) (delete f (log_of L))
      | _ => L
      end
  end.

(** The log after a history, along the objects that [run] goes through. *)
Fixpoint run_log (cs : list call) (s : LRUKReplacer) (L : access_log)
  : access_log :=
  match cs with
  | [] => L
  | c :: cs' =>
      match perform c s with
      | Ok _ s' => run_log cs' s' (log_call c s L)
      | Throw _ s' => run_log cs' s' (log_call c s L)
      | Undefined => L
      end
  end.

(** The accesses of [frame] since it was last forgotten, after the history
    [cs] on a new replacer. *)
Definition accesses (num_frames k : Z) (cs : list call) (frame : Z)
  : list Z :=
  log_frame (run_log cs (LRUKReplacer_new num_frames k) (mkLog 0 ∅)) frame.

(** The [k] most recent entries of a log, the oldest first, and the [k]-th
    most recent one. *)
Definition most_recent (k : Z) (l : list Z) : list Z :=
  drop (length l - Z.to_nat k) l.

Definition kth_most_recent (k : Z) (l : list Z) : option Z :=
  reverse l !! Z.to_nat (k - 1).

(** The object agrees with the log: the clock is the number of accesses,
    the counter of a frame is the number of its accesses, and its history
    holds its [k] most recent accesses. *)
Record LogInv (k : Z) (s : LRUKReplacer) (L : access_log) : Prop := mkLogInv {
  linv_clock : current_timestamp_ s = log_count L;
  linv_cnt : ∀ f, record_cnt s f = Z.of_nat (length (log_frame L f));
  linv_hist : ∀ f, hist s f = most_recent k (log_frame L f)
}.

(** * Persistent trie of BusTub (primer/trie.cpp) *)

(** The member functions [Get], [Put] and [Remove] of the copy-on-write trie.
    The classes [TrieNode], [TrieNodeWithValue<T>] and [Trie] are declared in
    [primer/trie.h]; they are modelled from the way [trie.cpp] uses them: a
    node holds the map [children_] and the flag [is_value_node_], a
    [TrieNodeWithValue<T>] holds in addition [value_], and [Clone] copies a
    node of either class.  A key is the sequence of its [char]s.

    The value types [T] are the parameters of the templates.  A value of type
    [T] is modelled as the pair of the name of [T] and a payload, so that
    [dynamic_cast<const TrieNodeWithValue<T> *>] is the comparison of two
    names.  Nodes reachable from a trie are never written to, so a
    [shared_ptr<const TrieNode>] is the node it points to, and [nullptr] is
    [None]. *)

Section trie_definitions.
Context {type payload : Type} `{EqDecision type}.

(** A [TrieNode] is a [TrieNodeWithValue<T>] holding [v] when [value_] is
    [Some (T, v)], and a plain [TrieNode] when it is [None]. *)
Inductive TrieNode : Type :=
  mkTrieNode { children_ : gmap ascii TrieNode;
               value_ : option (type * payload) }.

Definition is_value_node_ (n : TrieNode) : bool :=
  match value_ n with Some _ => true | None => false end.

(** [TrieNode()], [TrieNode(children)] and
    [TrieNodeWithValue<T>(children, value)]. *)
Definition TrieNode_new : TrieNode := mkTrieNode ∅ None.
Definition TrieNode_of (children : gmap ascii TrieNode) : TrieNode :=
  mkTrieNode children None.
Definition TrieNodeWithValue (children : gmap ascii TrieNode)
    (T : type) (value : payload) : TrieNode :=
  mkTrieNode children (Some (T, value)).

(** [node->Clone()]: a copy of the node, of the class of the node. *)
Definition Clone (n : TrieNode) : TrieNode :=
  mkTrieNode (children_ n) (value_ n).

(** [node->children_[ch] = child] and [node->children_.erase(ch)], on a node
    that the function has just made. *)
Definition children_assign (ch : ascii) (child n : TrieNode) : TrieNode :=
  mkTrieNode (<[ch := child]> (children_ n)) (value_ n).
Definition children_erase (ch : ascii) (n : TrieNode) : TrieNode :=
  mkTrieNode (delete ch (children_ n)) (value_ n).
Definition children_empty (n : TrieNode) : bool :=
  bool_decide (children_ n = ∅).

(** The class [Trie]: the pointer [root_]. *)
Record Trie : Type := mkTrie { root_ : option TrieNode }.

(** The default-constructed trie. *)
Definition Trie_new : Trie := mkTrie None.

(** *** [Trie::Get] *)

(** The loop of [Get]: [None] is the early [return nullptr], and otherwise
    the node that the key leads to. *)
Fixpoint Get_walk (node : option TrieNode) (key : list ascii)
    : option TrieNode :=
  match key with
  | [] => node
  | ch :: key =>
      match node with
      | None => None
      | Some n =>
          match children_ n !! ch with
          | None => None
          | Some child => Get_walk (Some child) key
          end
      end
  end.

(** [Get<T>(key)]: the payload that the returned pointer points to, [None]
    for [nullptr]. *)
Definition Trie_Get (T : type) (key : list ascii) (t : Trie)
    : option payload :=
  match Get_walk (root_ t) key with
  | None => None
  | Some node =>
      match value_ node with
      | None => None
      | Some (T', v) => if decide (T' = T) then Some v else None
      end
  end.

(** *** [Trie::Put] *)

(** The first loop of [Put]: it pushes the node it stands on and steps to a
    copy of the child, or to a new node where there is no child.  The stack
    is a list with its top at the head. *)
Fixpoint Put_descend (key : list ascii) (node : TrieNode)
    (node_stack : list TrieNode) : list TrieNode * TrieNode :=
  match key with
  | [] => (node_stack, node)
  | ch :: key =>
      let node_stack := node :: node_stack in
      let node :=
        match children_ node !! ch with
        | None => TrieNode_new
        | Some child => Clone child
        end in
      Put_descend key node node_stack
  end.

(** The second loop of [Put], over the key from its last [char] to its first.
    [top()] on an empty stack is undefined behaviour: [None]. *)
Fixpoint Put_ascend (rkey : list ascii) (node_stack : list TrieNode)
    (node : TrieNode) : option TrieNode :=
  match rkey with
  | [] => Some node
  | ch :: rkey =>
      match node_stack with
      | [] => None
      | top :: node_stack =>
          Put_ascend rkey node_stack (children_assign ch node top)
      end
  end.

(** [Put<T>(key, value)]: the new trie, or [None] for undefined
    behaviour. *)
Definition Trie_Put (T : type) (key : list ascii) (value : payload)
    (t : Trie) : option Trie :=
  let node :=
    match root_ t with
    | Some root => Clone root
    | None => TrieNode_new
    end in
  let '(node_stack, node) := Put_descend key node [] in
  let node := TrieNodeWithValue (children_ node) T value in
  match Put_ascend (rev key) node_stack node with
  | None => None
  | Some node => Some (mkTrie (Some node))
  end.

(** *** [Trie::Remove] *)

(** The first loop of [Remove]: [None] is the early [return Trie(root_)];
    otherwise the vector [node_stack] (in the order of [push_back]) and
    [cur_node]. *)
Fixpoint Remove_walk (key : list ascii) (cur_node : option TrieNode)
    (node_stack : list TrieNode)
    : option (list TrieNode * option TrieNode) :=
  match key with
  | [] => Some (node_stack, cur_node)
  | ch :: key =>
      match cur_node with
      | None => None
      | Some n =>
          match children_ n !! ch with
          | None => None
          | Some child => Remove_walk key (Some child) (node_stack ++ [n])
          end
      end
  end.

(** One round of the second loop of [Remove]: the copy of [node_stack[i]]
    gets the rebuilt child under [key[i]], and loses it again when the child
    has neither children nor a value. *)
Definition Remove_link (ch : ascii) (child_node node : TrieNode) : TrieNode :=
  let cur_node := children_assign ch child_node (Clone node) in
  if children_empty child_node && negb (is_value_node_ child_node)
  then children_erase ch cur_node
  else cur_node.

(** The second loop of [Remove], for [i] from [n - 1] down to [0] (the
    [size_t] counter wraps around below [0], which ends the loop).  Indexing
    the vector or the key out of range is undefined behaviour: [None]. *)
Fixpoint Remove_rebuild (n : nat) (key : list ascii)
    (node_stack : list TrieNode) (child_node : TrieNode)
    : option TrieNode :=
  match n with
  | O => Some child_node
  | S i =>
      match node_stack !! i, key !! i with
      | Some node, Some ch =>
          Remove_rebuild i key node_stack (Remove_link ch child_node node)
      | _, _ => None
      end
  end.

(** [Remove(key)]: the new trie, or [None] for undefined behaviour (a null
    pointer is dereferenced, or an index is out of range). *)
Definition Trie_Remove (key : list ascii) (t : Trie) : option Trie :=
  match Remove_walk key (root_ t) [] with
  | None => Some (mkTrie (root_ t))
  | Some (node_stack, None) => None
  | Some (node_stack, Some cur_node) =>
      if negb (is_value_node_ cur_node) then Some (mkTrie (root_ t))
      else
        let end_node := TrieNode_of (children_ cur_node) in
        match Remove_rebuild (length node_stack) key node_stack end_node with
        | None => None
        | Some cur_node =>
            if children_empty cur_node then Some (mkTrie None)
            else Some (mkTrie (Some cur_node))
        end
  end.

(** *** Recursive readings of the loops, used in the proofs *)

(** The node that [Put] steps to from [node] under [ch]. *)
Definition Put_child (ch : ascii) (node : TrieNode) : TrieNode :=
  match children_ node !! ch with
  | None => TrieNode_new
  | Some child => Clone child
  end.

(** The node at which the first loop of [Put] ends. *)
Fixpoint Put_last (key : list ascii) (node : TrieNode) : TrieNode :=
  match key with
  | [] => node
  | ch :: key => Put_last key (Put_child ch node)
  end.

(** The path from [node] along [key], rebuilt around the new last node
    [x]. *)
Fixpoint Put_path (key : list ascii) (node x : TrieNode) : TrieNode :=
  match key with
  | [] => x
  | ch :: key => children_assign ch (Put_path key (Put_child ch node) x) node
  end.

(** The path from [node] along [key], rebuilt by the second loop of [Remove]
    around the new last node [x]. *)
Fixpoint Remove_fold (key : list ascii) (node x : TrieNode) : TrieNode :=
  match key with
  | [] => x
  | ch :: key =>
      match children_ node !! ch with
      | None => x
      | Some child => Remove_link ch (Remove_fold key child x) node
      end
  end.

(** The value stored under [key] below [node], of whatever type. *)
Definition stored (node : option TrieNode) (key : list ascii)
    : option (type * payload) :=
  match Get_walk node key with
  | None => None
  | Some n => value_ n
  end.

(** A node that [Remove] unlinks: no children and no value. *)
Definition dead (n : TrieNode) : Prop :=
  children_ n = ∅ ∧ value_ n = None.

(** No node of the trie is dead: the root when there is one, and every node
    below it. *)
Definition pruned (node : option TrieNode) : Prop :=
  ∀ key n, Get_walk node key = Some n → ¬ dead n.

(** Every node below [n] is alive. *)
Definition pruned_below (n : TrieNode) : Prop :=
  ∀ ch, pruned (children_ n !! ch).

(** The trie holds a value under the empty key and nothing else: the root
    has no children. *)
Definition only_empty_key (t : Trie) : bool :=
  match root_ t with
  | Some root => children_empty root
  | None => false
  end.

(** *** Sequences of calls *)

(** The calls that make a new trie from a trie. *)
Inductive Trie_call : Type :=
| Call_Put (T : type) (key : list ascii) (value : payload)
| Call_Remove (key : list ascii).

Definition Trie_perform (c : Trie_call) (t : Trie) : option Trie :=
  match c with
  | Call_Put T key value => Trie_Put T key value t
  | Call_Remove key => Trie_Remove key t
  end.

(** Each call is made on the trie that the call before it returned. *)
Fixpoint Trie_run (cs : list Trie_call) (t : Trie) : option Trie :=
  match cs with
  | [] => Some t
  | c :: cs =>
      match Trie_perform c t with
      | None => None
      | Some t' => Trie_run cs t'
      end
  end.

(** *** The trie as a map *)

(** What the calls do to a finite map from keys to typed values: [Put]
    inserts, [Remove] deletes. *)
Definition map_perform (c : Trie_call)
    (m : gmap (list ascii) (type * payload))
    : gmap (list ascii) (type * payload) :=
  match c with
  | Call_Put T key value => <[key := (T, value)]> m
  | Call_Remove key => delete key m
  end.

Fixpoint map_run (cs : list Trie_call)
    (m : gmap (list ascii) (type * payload))
    : gmap (list ascii) (type * payload) :=
  match cs with
  | [] => m
  | c :: cs => map_run cs (map_perform c m)
  end.

(** [Get<T>] on a map. *)
Definition map_Get (T : type) (key : list ascii)
    (m : gmap (list ascii) (type * payload)) : option payload :=
  match m !! key with
  | Some (T', v) => if decide (T' = T) then Some v else None
  | None => None
  end.

End trie_definitions.
Arguments TrieNode : clear implicits.
Arguments Trie : clear implicits.
Arguments Trie_call : clear implicits.

(** The value types that [trie.cpp] instantiates the templates with. *)
Inductive cpp_type : Type :=
  uint32_t | uint64_t | std_string | Integer | MoveBlocked.

Global Instance cpp_type_eq_dec : EqDecision cpp_type :=
  ltac:(solve_decision).

(** A key given as a string literal. *)
Definition key_of (s : string) : list ascii := list_ascii_of_string s.

(** A trie with values of two types, and a trie with a value under the empty
    key only; payloads are numbers. *)
Definition trie_calls_A : list (Trie_call cpp_type Z) :=
  [Call_Put uint32_t (key_of "ab") 1; Call_Put uint64_t (key_of "a") 2;
   Call_Put uint32_t (key_of "cd") 3; Call_Remove (key_of "cd")].

Definition trie_A : Trie cpp_type Z :=
  Eval vm_compute in default Trie_new (Trie_run trie_calls_A Trie_new).

Definition trie_calls_B : list (Trie_call cpp_type Z) :=
  [Call_Put uint32_t (key_of "") 7].

Definition trie_B : Trie cpp_type Z :=
  Eval vm_compute in default Trie_new (Trie_run trie_calls_B Trie_new).

(** ** Facts about the machine integers *)

Lemma size_t_wrap_small z : 0 ≤ z < 2 ^ 64 → size_t_wrap z = z.
Proof. intros H. unfold size_t_wrap. apply Z.mod_small. exact H. Qed.

Lemma static_cast_frame_id_small z :
  - 2 ^ 31 ≤ z < 2 ^ 31 → static_cast_frame_id z = z.
Proof.
  intros H. unfold static_cast_frame_id.
  rewrite Z.mod_small by lia. lia.
Qed.

Lemma Zgtb_false a b : a ≤ b → (a >? b) = false.
Proof. intros H. rewrite Z.gtb_ltb. by apply Z.ltb_ge. Qed.

Lemma Zgtb_true a b : b < a → (a >? b) = true.
Proof. intros H. rewrite Z.gtb_ltb. by apply Z.ltb_lt. Qed.

(** ** Facts about the list primitives *)

Section list_facts.
Implicit Types (l : list Z) (kl : list (Z * Z)) (ev : Z → bool).

Lemma count_evictable_bounds ev l :
  0 ≤ count_evictable ev l ≤ Z.of_nat (length l).
Proof.
  induction l as [|x l IH]; simpl; [lia|]. destruct (ev x); lia.
Qed.

Lemma count_evictable_ext ev ev' l :
  (∀ x, x ∈ l → ev x = ev' x) → count_evictable ev l = count_evictable ev' l.
Proof.
  induction l as [|x l IH]; intros Hx; simpl; [done|].
  rewrite (Hx x) by apply elem_of_cons, or_introl, eq_refl.
  rewrite IH; [done|]. intros y Hy. apply Hx, elem_of_cons. by right.
Qed.

Lemma count_evictable_pos ev l :
  0 < count_evictable ev l → ∃ x, x ∈ l ∧ ev x = true.
Proof.
  induction l as [|x l IH]; simpl; [lia|]. intros Hpos.
  destruct (ev x) eqn:Hx.
  - exists x. split; [apply elem_of_cons; by left|done].
  - destruct IH as (y & Hy & Hev); [lia|].
    exists y. split; [apply elem_of_cons; by right|done].
Qed.

Lemma count_evictable_zero ev l :
  count_evictable ev l = 0 → ∀ x, x ∈ l → ev x = false.
Proof.
  induction l as [|x l IH]; simpl; intros H0 y Hy.
  - by apply elem_of_nil in Hy.
  - pose proof (count_evictable_bounds ev l) as Hb.
    apply elem_of_cons in Hy as [->|Hy].
    + destruct (ev x); [lia|done].
    + apply IH; [|done]. destruct (ev x); lia.
Qed.

Lemma list_erase_not_elem frame l : frame ∉ l → list_erase frame l = l.
Proof.
  induction l as [|x l IH]; simpl; [done|]. intros Hn.
  apply not_elem_of_cons in Hn as [Hne Hn].
  case_decide; [congruence|]. by rewrite IH.
Qed.

Lemma list_erase_middle frame l1 l2 :
  frame ∉ l1 → list_erase frame (l1 ++ frame :: l2) = l1 ++ l2.
Proof.
  induction l1 as [|x l1 IH]; simpl; intros Hn.
  - by case_decide.
  - apply not_elem_of_cons in Hn as [Hne Hn].
    case_decide; [congruence|]. by rewrite IH.
Qed.

Lemma elem_of_list_erase frame l x :
  NoDup l → x ∈ list_erase frame l ↔ x ∈ l ∧ x ≠ frame.
Proof.
  induction l as [|y l IH]; simpl; intros Hnd.
  - rewrite elem_of_nil. tauto.
  - apply NoDup_cons in Hnd as [Hy Hnd]. case_decide as Heq.
    + subst y. rewrite elem_of_cons. split.
      * intros Hx. split; [by right|]. intros ->. done.
      * intros [[->|Hx] Hne]; done.
    + rewrite !elem_of_cons, IH by done. split.
      * intros [->|[Hx Hne]]; [split; [by left|done]|split; [by right|done]].
      * intros [[->|Hx] Hne]; [by left|by right].
Qed.

Lemma list_erase_subseteq frame l x : x ∈ list_erase frame l → x ∈ l.
Proof.
  induction l as [|y l IH]; simpl; [done|]. case_decide.
  - intros Hx. apply elem_of_cons. by right.
  - rewrite !elem_of_cons. intros [->|Hx]; [by left|right; by apply IH].
Qed.

Lemma NoDup_list_erase frame l : NoDup l → NoDup (list_erase frame l).
Proof.
  induction l as [|y l IH]; simpl; [done|]. intros Hnd.
  apply NoDup_cons in Hnd as [Hy Hnd]. case_decide; [done|].
  apply NoDup_cons. split; [|by apply IH].
  intros Hin. by apply Hy, (list_erase_subseteq frame).
Qed.

Lemma length_list_erase frame l :
  frame ∈ l → Z.of_nat (length (list_erase frame l)) = Z.of_nat (length l) - 1.
Proof.
  induction l as [|y l IH]; simpl.
  - intros H. by apply elem_of_nil in H.
  - intros H. case_decide as Heq; [lia|].
    apply elem_of_cons in H as [->|H]; [done|].
    simpl. rewrite Nat2Z.inj_succ, IH by done. lia.
Qed.

Lemma count_evictable_erase ev frame l :
  frame ∈ l →
  count_evictable ev (list_erase frame l)
  = count_evictable ev l - (if ev frame then 1 else 0).
Proof.
  induction l as [|y l IH]; simpl.
  - intros H. by apply elem_of_nil in H.
  - intros H. case_decide as Heq; [subst; lia|].
    apply elem_of_cons in H as [->|H]; [done|].
    simpl. rewrite IH by done. lia.
Qed.

Lemma count_evictable_flag ev ev' frame l :
  NoDup l → (∀ x, x ≠ frame → ev' x = ev x) →
  count_evictable ev' l
  = count_evictable ev l
    + (if bool_decide (frame ∈ l)
       then (if ev' frame then 1 else 0) - (if ev frame then 1 else 0)
       else 0).
Proof.
  intros Hnd Hext. induction l as [|y l IH]; simpl.
  - lia.
  - apply NoDup_cons in Hnd as [Hy Hnd]. rewrite IH by done.
    destruct (decide (y = frame)) as [->|Hne].
    + rewrite (bool_decide_eq_false_2 (frame ∈ l)) by done.
      rewrite bool_decide_eq_true_2 by (apply elem_of_cons; by left). lia.
    + rewrite (Hext y) by done.
      destruct (decide (frame ∈ l)) as [Hin|Hin].
      * rewrite !bool_decide_eq_true_2; [lia|by apply elem_of_cons; right|done].
      * rewrite !bool_decide_eq_false_2; [lia| |done].
        rewrite elem_of_cons. intros [?|?]; by subst.
Qed.

Lemma StronglySorted_lt_snoc (ts : list Z) (t : Z) :
  StronglySorted Z.lt ts → (∀ t', t' ∈ ts → t' < t) →
  StronglySorted Z.lt (ts ++ [t]).
Proof.
  induction ts as [|t0 ts IH]; simpl; intros Hs Hlt.
  - repeat constructor.
  - apply StronglySorted_inv in Hs as [Hs Ht0]. constructor.
    + apply IH; [done|]. intros t' Ht'. apply Hlt, elem_of_cons. by right.
    + apply Forall_app. split; [done|]. constructor; [|constructor].
      apply Hlt, elem_of_cons. by left.
Qed.

Lemma fmap_fst_k_list_erase frame kl :
  (k_list_erase frame kl).*1 = list_erase frame (kl.*1).
Proof.
  induction kl as [|y kl IH]; csimpl; [done|].
  case_decide; [done|]. csimpl. by rewrite IH.
Qed.

Lemma k_list_erase_subseteq frame kl y :
  y ∈ k_list_erase frame kl → y ∈ kl.
Proof.
  induction kl as [|z kl IH]; simpl; [done|]. case_decide.
  - intros Hy. apply elem_of_cons. by right.
  - rewrite !elem_of_cons. intros [->|Hy]; [by left|right; by apply IH].
Qed.

Lemma k_list_erase_not_elem frame kl :
  frame ∉ kl.*1 → k_list_erase frame kl = kl.
Proof.
  induction kl as [|y kl IH]; csimpl; [done|]. intros Hn.
  apply not_elem_of_cons in Hn as [Hne Hn].
  case_decide; [congruence|]. by rewrite IH.
Qed.

Lemma length_k_list_erase frame kl :
  frame ∈ kl.*1 →
  Z.of_nat (length (k_list_erase frame kl)) = Z.of_nat (length kl) - 1.
Proof.
  induction kl as [|y kl IH]; simpl.
  - intros H. by apply elem_of_nil in H.
  - intros H. case_decide as Heq; [lia|].
    apply elem_of_cons in H as [->|H]; [done|].
    simpl. rewrite Nat2Z.inj_succ, IH by done. lia.
Qed.
End list_facts.

Section k_frames_facts.
Implicit Types (kl : list (Z * Z)) (x y : Z * Z) (ev : Z → bool).

Lemma elem_of_upper_bound_insert x kl y :
  y ∈ upper_bound_insert x kl ↔ y = x ∨ y ∈ kl.
Proof.
  induction kl as [|z kl IH]; simpl.
  - rewrite list_elem_of_singleton, elem_of_nil. tauto.
  - destruct (CmpTimestamp x z).
    + rewrite !elem_of_cons. tauto.
    + rewrite !elem_of_cons, IH. tauto.
Qed.

Lemma fmap_fst_upper_bound_insert x kl :
  (upper_bound_insert x kl).*1 ≡ₚ x.1 :: kl.*1.
Proof.
  induction kl as [|z kl IH]; csimpl; [done|].
  destruct (CmpTimestamp x z); csimpl; [done|].
  rewrite IH. apply Permutation_swap.
Qed.

Lemma length_upper_bound_insert x kl :
  length (upper_bound_insert x kl) = S (length kl).
Proof.
  induction kl as [|z kl IH]; simpl; [done|].
  destruct (CmpTimestamp x z); simpl; [done|]. by rewrite IH.
Qed.

Lemma count_evictable_upper_bound_insert ev x kl :
  count_evictable ev (upper_bound_insert x kl).*1
  = (if ev x.1 then 1 else 0) + count_evictable ev kl.*1.
Proof.
  induction kl as [|z kl IH]; csimpl; [done|].
  destruct (CmpTimestamp x z); csimpl; [done|]. rewrite IH. lia.
Qed.

(** The new pair lands behind every pair whose timestamp is not larger
    than its own, and in front of the first pair with a larger one. *)
Lemma upper_bound_insert_split x kl :
  ∃ l1 l2,
    kl = l1 ++ l2 ∧ upper_bound_insert x kl = l1 ++ x :: l2
    ∧ Forall (λ y, y.2 ≤ x.2) l1
    ∧ match l2 with [] => True | y :: _ => x.2 < y.2 end.
Proof.
  induction kl as [|z kl IH]; simpl.
  - exists [], []. by repeat split.
  - destruct (CmpTimestamp x z) eqn:Hc; unfold CmpTimestamp in Hc.
    + exists [], (z :: kl). repeat split; [done|]. lia.
    + destruct IH as (l1 & l2 & -> & -> & Hl1 & Hl2).
      exists (z :: l1), l2. repeat split; [|done].
      constructor; [lia|done].
Qed.

Lemma k_sorted_upper_bound_insert x kl :
  k_sorted kl → k_sorted (upper_bound_insert x kl).
Proof.
  unfold k_sorted. induction kl as [|z kl IH]; simpl; intros Hs.
  - repeat constructor.
  - apply StronglySorted_inv in Hs as [Hs Hz].
    destruct (CmpTimestamp x z) eqn:Hc; unfold CmpTimestamp in Hc.
    + constructor; [by constructor|]. constructor; [lia|].
      eapply Forall_impl; [exact Hz|]. simpl. intros; lia.
    + constructor; [by apply IH|].
      apply Forall_forall. intros y Hy.
      apply elem_of_upper_bound_insert in Hy as [->|Hy]; [lia|].
      by eapply Forall_forall in Hz.
Qed.

Lemma k_sorted_k_list_erase frame kl :
  k_sorted kl → k_sorted (k_list_erase frame kl).
Proof.
  unfold k_sorted. induction kl as [|z kl IH]; simpl; intros Hs; [done|].
  apply StronglySorted_inv in Hs as [Hs Hz]. case_decide; [done|].
  constructor; [by apply IH|].
  apply Forall_forall. intros y Hy. apply k_list_erase_subseteq in Hy.
  by eapply Forall_forall in Hz.
Qed.

Lemma k_sorted_app_tail x l1 l2 :
  k_sorted (l1 ++ l2) →
  match l2 with [] => True | y :: _ => x.2 < y.2 end →
  Forall (λ y, x.2 < y.2) l2.
Proof.
  unfold k_sorted. intros Hs Hhd. destruct l2 as [|y l2]; [done|].
  induction l1 as [|z l1 IH]; simpl in Hs.
  - apply StronglySorted_inv in Hs as [_ Hy].
    constructor; [done|]. eapply Forall_impl; [exact Hy|]. simpl. intros; lia.
  - apply StronglySorted_inv in Hs as [Hs _]. by apply IH.
Qed.

(** What the second loop of [Evict] finds. *)
Lemma k_frames_scan_Some ev kl frame rest :
  k_frames_scan ev kl = Some (frame, rest) →
  ∃ l1 t l2,
    kl = l1 ++ (frame, t) :: l2 ∧ rest = l1 ++ l2
    ∧ ev frame = true ∧ Forall (λ y, ev y.1 = false) l1.
Proof.
  revert rest. induction kl as [|z kl IH]; simpl; intros rest; [done|].
  destruct (ev z.1) eqn:Hz.
  - intros [= <- <-]. exists [], z.2, kl. destruct z. by repeat split.
  - destruct (k_frames_scan ev kl) as [[f r]|]; [|done].
    intros [= <- <-]. destruct (IH r eq_refl) as (l1 & t & l2 & -> & -> & Hf & Hl1).
    exists (z :: l1), t, l2. repeat split; [done|]. by constructor.
Qed.

Lemma k_frames_scan_None ev kl :
  k_frames_scan ev kl = None → ∀ f, f ∈ kl.*1 → ev f = false.
Proof.
  induction kl as [|z kl IH]; csimpl; intros Hs f Hf.
  - by apply elem_of_nil in Hf.
  - destruct (ev z.1) eqn:Hz; [done|].
    destruct (k_frames_scan ev kl) as [[? ?]|]; [done|].
    apply elem_of_cons in Hf as [->|Hf]; [done|]. by apply IH.
Qed.

Lemma k_frames_scan_erase ev kl frame rest :
  k_frames_scan ev kl = Some (frame, rest) → rest = k_list_erase frame kl.
Proof.
  revert rest. induction kl as [|z kl IH]; simpl; intros rest; [done|].
  destruct (ev z.1) eqn:Hz.
  - intros [= <- <-]. by case_decide.
  - destruct (k_frames_scan ev kl) as [[f r]|] eqn:Hs; [|done].
    intros [= <- <-]. case_decide as Heq.
    + apply k_frames_scan_Some in Hs as (? & ? & ? & _ & _ & Hf & _).
      congruence.
    + by rewrite (IH r).
Qed.

(** What the first loop of [Evict] finds: the evictable frame closest to
    the back of the list. *)
Lemma find_app ev (l1 l2 : list Z) :
  find ev (l1 ++ l2)
  = match find ev l1 with Some a => Some a | None => find ev l2 end.
Proof.
  induction l1 as [|a l1 IH]; simpl; [done|]. by destruct (ev a).
Qed.

Lemma find_rev_Some ev (l : list Z) frame :
  find ev (rev l) = Some frame →
  ∃ l1 l2, l = l1 ++ frame :: l2 ∧ ev frame = true
           ∧ Forall (λ a, ev a = false) l2.
Proof.
  induction l as [|a l IH]; simpl; [done|].
  rewrite find_app. destruct (find ev (rev l)) as [f|] eqn:Hf.
  - intros [= ->]. destruct (IH eq_refl) as (l1 & l2 & -> & Hev & Hl2).
    by exists (a :: l1), l2.
  - simpl. destruct (ev a) eqn:Ha; [|done]. intros [= ->].
    exists [], l. repeat split; [done|].
    apply Forall_forall. intros y Hy.
    eapply find_none in Hf; [exact Hf|].
    apply in_rev. rewrite rev_involutive. by apply list_elem_of_In.
Qed.

Lemma find_rev_None ev (l : list Z) :
  find ev (rev l) = None → ∀ a, a ∈ l → ev a = false.
Proof.
  intros Hf a Ha. eapply find_none in Hf; [exact Hf|].
  apply in_rev. rewrite rev_involutive. by apply list_elem_of_In.
Qed.
End k_frames_facts.

(** ** The invariant is preserved by every state change *)

Lemma default_lookup_insert {A} (m : gmap Z A) (d v : A) (f g : Z) :
  default d (<[f:=v]> m !! g) = if decide (f = g) then v else default d (m !! g).
Proof. rewrite lookup_insert. by case_decide. Qed.

Section invariant.
Variables (num_frames k : Z).
Hypothesis Hk : 1 ≤ k.

Lemma Inv_mono n m s :
  Inv num_frames k n s → n ≤ m → Inv num_frames k m s.
Proof.
  intros [] Hnm. constructor; try done.
  - intros f. specialize (inv_cnt0 f). lia.
  - lia.
  - lia.
Qed.

Lemma Inv_new : Inv num_frames k 0 (LRUKReplacer_new num_frames k).
Proof.
  constructor; simpl; try done.
  - constructor.
  - constructor.
  - intros f. rewrite elem_of_nil. set_solver.
  - intros f. rewrite elem_of_nil. set_solver.
  - intros f. unfold record_cnt. simpl. rewrite lookup_empty, elem_of_nil.
    simpl. lia.
  - intros f. unfold record_cnt. simpl. rewrite lookup_empty, elem_of_nil.
    simpl. lia.
  - intros f. unfold hist, record_cnt. simpl. rewrite !lookup_empty.
    simpl. lia.
  - intros f t Hf. by apply elem_of_nil in Hf.
  - constructor.
  - intros f. unfold hist. simpl. rewrite lookup_empty. constructor.
  - intros f t. unfold hist. simpl. rewrite lookup_empty. simpl.
    intros Hf. by apply elem_of_nil in Hf.
Qed.

Lemma Inv_size_bounds n s : Inv num_frames k n s → 0 ≤ curr_size_ s ≤ n.
Proof.
  intros [].
  pose proof (count_evictable_bounds (evictable s) (new_frames_ s)).
  pose proof (count_evictable_bounds (evictable s) (k_frames_ s).*1).
  rewrite length_fmap in *. lia.
Qed.

(** *** Each state change preserves the invariant

    The changes are stated on the fields of the object: [h], [c] and [e]
    are the history, counter and flag tables, [nf] and [kf] the two lists,
    [np] and [kp] the position maps. *)

Ltac inv_start H :=
  destruct H as [Hrs Hkk Hl Hnd Hknd Hnp Hkp Hcold Hwarm Hcnt Hsz Htr Hhl Hkey
                   Hso Hclk Hhs Hhc];
  unfold record_cnt, hist, evictable in *; simpl in *.

(** A frame of [new_frames_] is forgotten ([Evict], first loop, and
    [Remove] with [cnt < k_]). *)
Lemma Inv_clear_cold n cap kk mx ts sz h c e nf np kf kp f :
  n < 2 ^ 64 →
  Inv num_frames k n (mkReplacer cap kk mx ts sz h c e nf np kf kp false) →
  f ∈ nf → default false (e !! f) = true →
  Inv num_frames k n (mkReplacer cap kk mx ts (size_t_wrap (sz - 1)) (<[f:=[]]> h)
           (<[f:=0]> c) e (list_erase f nf) (np ∖ {[f]}) kf kp false).
Proof.
  intros Hn H Hf Hev. inv_start H.
  assert (f ∉ kf.*1) as Hfk.
  { intros Hw. apply Hcold in Hf. apply Hwarm in Hw. lia. }
  constructor; unfold record_cnt, hist, evictable; simpl; try done.
  - by apply NoDup_list_erase.
  - intros x. rewrite elem_of_difference, elem_of_list_erase, Hnp by done.
    set_solver.
  - intros x. rewrite elem_of_list_erase, default_lookup_insert by done.
    case_decide; [subst; lia|]. rewrite Hcold. naive_solver.
  - intros x. rewrite default_lookup_insert.
    case_decide; [subst; split; [done|lia]|]. apply Hwarm.
  - intros x. rewrite default_lookup_insert.
    case_decide; [specialize (Hcnt f); lia|]. apply Hcnt.
  - rewrite count_evictable_erase, Hev by done.
    pose proof (count_evictable_bounds (λ x : Z, default false (e !! x))
                  (list_erase f nf)) as Hb.
    rewrite count_evictable_erase, Hev in Hb by done.
    pose proof (count_evictable_bounds (λ x : Z, default false (e !! x)) kf.*1).
    pose proof (count_evictable_bounds (λ x : Z, default false (e !! x)) nf).
    rewrite length_fmap in *.
    rewrite size_t_wrap_small; lia.
  - rewrite length_list_erase by done. lia.
  - intros x. rewrite !default_lookup_insert.
    case_decide; [simpl; lia|]. apply Hhl.
  - intros x t Hx. rewrite default_lookup_insert. case_decide.
    + subst. exfalso. apply Hfk, list_elem_of_fmap. by exists (x, t).
    + by apply Hkey.
  - intros x. rewrite default_lookup_insert.
    case_decide; [constructor|apply Hhs].
  - intros x t. rewrite default_lookup_insert.
    case_decide; [intros Ht; by apply elem_of_nil in Ht|apply Hhc].
Qed.
(** A frame of [k_frames_] is forgotten ([Evict], second loop, and
    [Remove] with [cnt >= k_]). *)
Lemma Inv_clear_warm n cap kk mx ts sz h c e nf np kf kp f :
  n < 2 ^ 64 →
  Inv num_frames k n (mkReplacer cap kk mx ts sz h c e nf np kf kp false) →
  f ∈ kf.*1 → default false (e !! f) = true →
  Inv num_frames k n (mkReplacer cap kk mx ts (size_t_wrap (sz - 1)) (<[f:=[]]> h)
           (<[f:=0]> c) e nf np (k_list_erase f kf) (kp ∖ {[f]}) false).
Proof.
  intros Hn H Hf Hev. inv_start H.
  assert (f ∉ nf) as Hfn.
  { intros Hc. apply Hcold in Hc. apply Hwarm in Hf. lia. }
  constructor; unfold record_cnt, hist, evictable; simpl; try done.
  - rewrite fmap_fst_k_list_erase. by apply NoDup_list_erase.
  - intros x.
    rewrite fmap_fst_k_list_erase, elem_of_difference, elem_of_list_erase,
      Hkp by done.
    set_solver.
  - intros x. rewrite default_lookup_insert.
    case_decide; [subst; split; [done|lia]|]. apply Hcold.
  - intros x.
    rewrite fmap_fst_k_list_erase, elem_of_list_erase,
      default_lookup_insert by done.
    case_decide; [subst; split; [tauto|lia]|]. rewrite Hwarm. naive_solver.
  - intros x. rewrite default_lookup_insert.
    case_decide; [specialize (Hcnt f); lia|]. apply Hcnt.
  - rewrite fmap_fst_k_list_erase, count_evictable_erase, Hev by done.
    pose proof (count_evictable_bounds (λ x : Z, default false (e !! x))
                  (list_erase f kf.*1)) as Hb.
    rewrite count_evictable_erase, Hev in Hb by done.
    pose proof (count_evictable_bounds (λ x : Z, default false (e !! x)) kf.*1).
    pose proof (count_evictable_bounds (λ x : Z, default false (e !! x)) nf).
    rewrite length_fmap in *.
    rewrite size_t_wrap_small; lia.
  - rewrite length_k_list_erase by done. lia.
  - intros x. rewrite !default_lookup_insert.
    case_decide; [simpl; lia|]. apply Hhl.
  - intros x t Hx. rewrite default_lookup_insert. case_decide.
    + subst. exfalso.
      assert (x ∈ (k_list_erase x kf).*1) as Hx1.
      { apply list_elem_of_fmap. by exists (x, t). }
      rewrite fmap_fst_k_list_erase, elem_of_list_erase in Hx1 by done.
      tauto.
    + apply Hkey. by apply (k_list_erase_subseteq f).
  - by apply k_sorted_k_list_erase.
  - intros x. rewrite default_lookup_insert.
    case_decide; [constructor|apply Hhs].
  - intros x t. rewrite default_lookup_insert.
    case_decide; [intros Ht; by apply elem_of_nil in Ht|apply Hhc].
Qed.

(** The flag of a tracked frame is set ([SetEvictable]). *)
Lemma Inv_set_evictable n cap kk mx mx' ts sz sz' h c e nf np kf kp f
    (v : bool) :
  Inv num_frames k n (mkReplacer cap kk mx ts sz h c e nf np kf kp false) →
  default 0 (c !! f) ≠ 0 →
  sz' = sz + (if v then 1 else 0) - (if default false (e !! f) then 1 else 0) →
  Inv num_frames k n (mkReplacer cap kk mx' ts sz' h c (<[f:=v]> e) nf np kf kp false).
Proof.
  intros H Hf Hsz'. inv_start H.
  constructor; unfold record_cnt, hist, evictable; simpl; try done.
  rewrite (count_evictable_flag (λ x : Z, default false (e !! x)) _ f nf),
    (count_evictable_flag (λ x : Z, default false (e !! x)) _ f kf.*1);
    try done.
  2,3: intros x Hx; rewrite default_lookup_insert; by case_decide.
  rewrite default_lookup_insert. case_decide; [|done].
  specialize (Hcold f). specialize (Hwarm f). specialize (Hcnt f).
  destruct (decide (f ∈ nf)) as [Hin|Hin];
    destruct (decide (f ∈ kf.*1)) as [Hin'|Hin'].
  - apply Hcold in Hin. apply Hwarm in Hin'. lia.
  - rewrite bool_decide_eq_true_2, bool_decide_eq_false_2 by done. lia.
  - rewrite bool_decide_eq_false_2, bool_decide_eq_true_2 by done. lia.
  - exfalso. destruct (decide (default 0 (c !! f) < k)).
    + apply Hin, Hcold. lia.
    + apply Hin', Hwarm. lia.
Qed.
(** [RecordAccess] of a tracked frame that stays below [k_] accesses. *)
Lemma Inv_touch_cold n cap kk mx ts ts' sz h c e nf np kf kp f :
  n + 1 < 2 ^ 64 →
  Inv num_frames k n (mkReplacer cap kk mx ts sz h c e nf np kf kp false) →
  1 ≤ default 0 (c !! f) → default 0 (c !! f) + 1 < k →
  ts' = ts + 1 →
  Inv num_frames k (n + 1)
    (mkReplacer cap kk mx ts' sz (<[f := default [] (h !! f) ++ [ts']]> h)
       (<[f := size_t_wrap (default 0 (c !! f) + 1)]> c) e nf np kf kp false).
Proof.
  intros Hn H Hc1 Hck Hts. inv_start H.
  rewrite size_t_wrap_small by (specialize (Hcnt f); lia).
  constructor; unfold record_cnt, hist, evictable; simpl; try done.
  - intros x. rewrite default_lookup_insert.
    case_decide; [subst; rewrite Hcold; lia|]. apply Hcold.
  - intros x. rewrite default_lookup_insert.
    case_decide; [subst; rewrite Hwarm; lia|]. apply Hwarm.
  - intros x. rewrite default_lookup_insert. specialize (Hcnt x).
    case_decide; [subst; lia|lia].
  - lia.
  - intros x. rewrite !default_lookup_insert. specialize (Hhl x).
    case_decide; [subst; rewrite length_app; simpl; lia|done].
  - intros x t Hx. rewrite default_lookup_insert. case_decide.
    + subst. exfalso.
      assert (x ∈ kf.*1) as Hx1 by (apply list_elem_of_fmap; by exists (x, t)).
      apply Hwarm in Hx1. lia.
    + by apply Hkey.
  - lia.
  - intros x. rewrite default_lookup_insert. case_decide; [|apply Hhs].
    apply StronglySorted_lt_snoc; [apply Hhs|].
    intros t' Ht'. apply Hhc in Ht'. lia.
  - intros x t1. rewrite default_lookup_insert. case_decide.
    + rewrite elem_of_app, list_elem_of_singleton.
      intros [Ht1| ->]; [apply Hhc in Ht1; lia|lia].
    + intros Ht1. apply Hhc in Ht1. lia.
Qed.

(** First access of a frame with [1 < k_]. *)
Lemma Inv_admit_cold n cap kk mx ts ts' sz h c e nf np kf kp f :
  n + 1 < 2 ^ 64 → 1 < k →
  Inv num_frames k n (mkReplacer cap kk mx ts sz h c e nf np kf kp false) →
  default 0 (c !! f) = 0 →
  ts' = ts + 1 →
  Inv num_frames k (n + 1)
    (mkReplacer cap kk mx ts' (size_t_wrap (sz + 1))
       (<[f := default [] (h !! f) ++ [ts']]> h)
       (<[f := size_t_wrap (default 0 (c !! f) + 1)]> c)
       (<[f := true]> e) (f :: nf) ({[f]} ∪ np) kf kp false).
Proof.
  intros Hn Hk1 H Hc0 Hts.
  pose proof (Inv_size_bounds _ _ H) as Hszb. simpl in Hszb.
  inv_start H.
  assert (f ∉ nf) as Hfn by (intros Hc; apply Hcold in Hc; lia).
  assert (f ∉ kf.*1) as Hfk by (intros Hc; apply Hwarm in Hc; lia).
  rewrite Hc0. rewrite !size_t_wrap_small by lia.
  constructor; unfold record_cnt, hist, evictable; simpl; try done.
  - by apply NoDup_cons.
  - intros x. rewrite elem_of_union, elem_of_singleton, elem_of_cons, Hnp.
    done.
  - intros x. rewrite elem_of_cons, default_lookup_insert.
    case_decide; [subst; split; [lia|by left]|].
    rewrite Hcold. naive_solver.
  - intros x. rewrite default_lookup_insert.
    case_decide; [subst; split; [done|lia]|]. apply Hwarm.
  - intros x. rewrite default_lookup_insert. specialize (Hcnt x).
    case_decide; lia.
  - rewrite default_lookup_insert. case_decide; [|done].
    rewrite (count_evictable_ext _ (λ x : Z, default false (e !! x)) nf),
      (count_evictable_ext _ (λ x : Z, default false (e !! x)) kf.*1).
    + lia.
    + intros x Hx. rewrite default_lookup_insert. case_decide; by subst.
    + intros x Hx. rewrite default_lookup_insert. case_decide; by subst.
  - lia.
  - intros x. rewrite !default_lookup_insert. specialize (Hhl x).
    case_decide; [subst; rewrite length_app; simpl; lia|done].
  - intros x t Hx. rewrite default_lookup_insert. case_decide.
    + subst. exfalso. apply Hfk, list_elem_of_fmap. by exists (x, t).
    + by apply Hkey.
  - lia.
  - intros x. rewrite default_lookup_insert. case_decide; [|apply Hhs].
    apply StronglySorted_lt_snoc; [apply Hhs|].
    intros t' Ht'. apply Hhc in Ht'. lia.
  - intros x t1. rewrite default_lookup_insert. case_decide.
    + rewrite elem_of_app, list_elem_of_singleton.
      intros [Ht1| ->]; [apply Hhc in Ht1; lia|lia].
    + intros Ht1. apply Hhc in Ht1. lia.
Qed.
(** [RecordAccess] that brings a frame of [new_frames_] to [k_] accesses. *)
Lemma Inv_promote n cap kk mx ts ts' sz h c e nf np kf kp f t :
  n + 1 < 2 ^ 64 →
  Inv num_frames k n (mkReplacer cap kk mx ts sz h c e nf np kf kp false) →
  1 ≤ default 0 (c !! f) → default 0 (c !! f) + 1 = k →
  head (default [] (h !! f) ++ [ts']) = Some t →
  ts' = ts + 1 →
  Inv num_frames k (n + 1)
    (mkReplacer cap kk mx ts' sz (<[f := default [] (h !! f) ++ [ts']]> h)
       (<[f := size_t_wrap (default 0 (c !! f) + 1)]> c) e
       (list_erase f nf) (np ∖ {[f]})
       (upper_bound_insert (f, t) kf) ({[f]} ∪ kp) false).
Proof.
  intros Hn H Hc1 Hck Ht Hts. inv_start H.
  assert (f ∈ nf) as Hfn by (apply Hcold; lia).
  assert (f ∉ kf.*1) as Hfk by (intros Hc; apply Hwarm in Hc; lia).
  rewrite size_t_wrap_small by (specialize (Hcnt f); lia).
  constructor; unfold record_cnt, hist, evictable; simpl; try done.
  - by apply NoDup_list_erase.
  - rewrite fmap_fst_upper_bound_insert. by apply NoDup_cons.
  - intros x. rewrite elem_of_difference, elem_of_list_erase, Hnp by done.
    set_solver.
  - intros x. rewrite fmap_fst_upper_bound_insert. simpl.
    rewrite elem_of_union, elem_of_singleton, elem_of_cons, Hkp. done.
  - intros x. rewrite elem_of_list_erase, default_lookup_insert by done.
    case_decide; [subst; lia|]. rewrite Hcold. naive_solver.
  - intros x. rewrite fmap_fst_upper_bound_insert. simpl.
    rewrite elem_of_cons, default_lookup_insert.
    case_decide; [subst; split; [lia|by left]|].
    rewrite Hwarm. naive_solver.
  - intros x. rewrite default_lookup_insert. specialize (Hcnt x).
    case_decide; [subst; lia|lia].
  - rewrite count_evictable_upper_bound_insert, count_evictable_erase by done.
    simpl. lia.
  - rewrite length_upper_bound_insert, length_list_erase by done. lia.
  - intros x. rewrite !default_lookup_insert. specialize (Hhl x).
    case_decide; [subst; rewrite length_app; simpl; lia|done].
  - intros x t' Hx. rewrite default_lookup_insert.
    apply elem_of_upper_bound_insert in Hx as [[= -> ->]|Hx].
    + by case_decide.
    + case_decide.
      * subst. exfalso. apply Hfk, list_elem_of_fmap. by exists (x, t').
      * by apply Hkey.
  - by apply k_sorted_upper_bound_insert.
  - lia.
  - intros x. rewrite default_lookup_insert. case_decide; [|apply Hhs].
    apply StronglySorted_lt_snoc; [apply Hhs|].
    intros t' Ht'. apply Hhc in Ht'. lia.
  - intros x t1. rewrite default_lookup_insert. case_decide.
    + rewrite elem_of_app, list_elem_of_singleton.
      intros [Ht1| ->]; [apply Hhc in Ht1; lia|lia].
    + intros Ht1. apply Hhc in Ht1. lia.
Qed.

(** First access of a frame with [k_ = 1]: the frame goes through
    [new_frames_] straight into [k_frames_]. *)
Lemma Inv_admit_warm n cap kk mx ts ts' sz h c e nf np kf kp f t :
  n + 1 < 2 ^ 64 → k = 1 →
  Inv num_frames k n (mkReplacer cap kk mx ts sz h c e nf np kf kp false) →
  default 0 (c !! f) = 0 →
  head (default [] (h !! f) ++ [ts']) = Some t →
  ts' = ts + 1 →
  Inv num_frames k (n + 1)
    (mkReplacer cap kk mx ts' (size_t_wrap (sz + 1))
       (<[f := default [] (h !! f) ++ [ts']]> h)
       (<[f := size_t_wrap (default 0 (c !! f) + 1)]> c)
       (<[f := true]> e) (list_erase f (f :: nf)) (({[f]} ∪ np) ∖ {[f]})
       (upper_bound_insert (f, t) kf) ({[f]} ∪ kp) false).
Proof.
  intros Hn Hk1 H Hc0 Ht Hts.
  pose proof (Inv_size_bounds _ _ H) as Hszb. simpl in Hszb.
  assert (list_erase f (f :: nf) = nf) as ->.
  { simpl. by case_decide. }
  inv_start H.
  assert (f ∉ nf) as Hfn by (intros Hc; apply Hcold in Hc; lia).
  assert (f ∉ kf.*1) as Hfk by (intros Hc; apply Hwarm in Hc; lia).
  rewrite Hc0. rewrite !size_t_wrap_small by lia.
  constructor; unfold record_cnt, hist, evictable; simpl; try done.
  - rewrite fmap_fst_upper_bound_insert. by apply NoDup_cons.
  - intros x. rewrite elem_of_difference, elem_of_union, elem_of_singleton,
      Hnp.
    split; [tauto|]. intros Hx. split; [by right|]. intros ->. done.
  - intros x. rewrite fmap_fst_upper_bound_insert. simpl.
    rewrite elem_of_union, elem_of_singleton, elem_of_cons, Hkp. done.
  - intros x. rewrite default_lookup_insert.
    case_decide; [subst; split; [done|lia]|]. apply Hcold.
  - intros x. rewrite fmap_fst_upper_bound_insert. simpl.
    rewrite elem_of_cons, default_lookup_insert.
    case_decide; [subst; split; [lia|by left]|].
    rewrite Hwarm. naive_solver.
  - intros x. rewrite default_lookup_insert. specialize (Hcnt x).
    case_decide; lia.
  - rewrite count_evictable_upper_bound_insert. simpl.
    rewrite default_lookup_insert. case_decide; [|done].
    rewrite (count_evictable_ext _ (λ x : Z, default false (e !! x)) nf),
      (count_evictable_ext _ (λ x : Z, default false (e !! x)) kf.*1).
    + lia.
    + intros x Hx. rewrite default_lookup_insert. case_decide; by subst.
    + intros x Hx. rewrite default_lookup_insert. case_decide; by subst.
  - rewrite length_upper_bound_insert. lia.
  - intros x. rewrite !default_lookup_insert. specialize (Hhl x).
    case_decide; [subst; rewrite length_app; simpl; lia|done].
  - intros x t' Hx. rewrite default_lookup_insert.
    apply elem_of_upper_bound_insert in Hx as [[= -> ->]|Hx].
    + by case_decide.
    + case_decide.
      * subst. exfalso. apply Hfk, list_elem_of_fmap. by exists (x, t').
      * by apply Hkey.
  - by apply k_sorted_upper_bound_insert.
  - lia.
  - intros x. rewrite default_lookup_insert. case_decide; [|apply Hhs].
    apply StronglySorted_lt_snoc; [apply Hhs|].
    intros t' Ht'. apply Hhc in Ht'. lia.
  - intros x t1. rewrite default_lookup_insert. case_decide.
    + rewrite elem_of_app, list_elem_of_singleton.
      intros [Ht1| ->]; [apply Hhc in Ht1; lia|lia].
    + intros Ht1. apply Hhc in Ht1. lia.
Qed.

(** [RecordAccess] of a frame of [k_frames_]: the oldest timestamp is
    dropped and the pair is moved to its new sorted position. *)
Lemma Inv_reposition n cap kk mx ts ts' sz h c e nf np kf kp f t0 h' t :
  n + 1 < 2 ^ 64 →
  Inv num_frames k n (mkReplacer cap kk mx ts sz h c e nf np kf kp false) →
  k ≤ default 0 (c !! f) →
  default [] (h !! f) ++ [ts'] = t0 :: h' → head h' = Some t →
  ts' = ts + 1 →
  Inv num_frames k (n + 1)
    (mkReplacer cap kk mx ts' sz
       (<[f := h']> (<[f := default [] (h !! f) ++ [ts']]> h))
       (<[f := size_t_wrap (default 0 (c !! f) + 1)]> c) e nf np
       (upper_bound_insert (f, t) (k_list_erase f kf)) ({[f]} ∪ kp) false).
Proof.
  intros Hn H Hck Hh Ht Hts. inv_start H.
  assert (f ∈ kf.*1) as Hfk by (by apply Hwarm).
  assert (f ∉ nf) as Hfn by (intros Hc; apply Hcold in Hc; lia).
  rewrite size_t_wrap_small by (specialize (Hcnt f); lia).
  constructor; unfold record_cnt, hist, evictable; simpl; try done.
  - rewrite fmap_fst_upper_bound_insert, fmap_fst_k_list_erase. simpl.
    apply NoDup_cons. split; [|by apply NoDup_list_erase].
    rewrite elem_of_list_erase by done. tauto.
  - intros x. rewrite fmap_fst_upper_bound_insert, fmap_fst_k_list_erase.
    simpl.
    rewrite elem_of_union, elem_of_singleton, elem_of_cons,
      elem_of_list_erase, Hkp by done.
    destruct (decide (x = f)); [subst; tauto|tauto].
  - intros x. rewrite default_lookup_insert.
    case_decide; [subst; split; [done|lia]|]. apply Hcold.
  - intros x. rewrite fmap_fst_upper_bound_insert, fmap_fst_k_list_erase.
    simpl.
    rewrite elem_of_cons, elem_of_list_erase, default_lookup_insert by done.
    case_decide; [subst; split; [lia|by left]|].
    rewrite Hwarm. naive_solver.
  - intros x. rewrite default_lookup_insert. specialize (Hcnt x).
    case_decide; [subst; lia|lia].
  - rewrite count_evictable_upper_bound_insert, fmap_fst_k_list_erase,
      count_evictable_erase by done.
    simpl. lia.
  - rewrite length_upper_bound_insert, Nat2Z.inj_succ,
      length_k_list_erase by done.
    lia.
  - intros x. rewrite !default_lookup_insert. specialize (Hhl x).
    case_decide; [|done]. subst x.
    apply (f_equal length) in Hh. rewrite length_app in Hh. simpl in Hh. lia.
  - intros x t' Hx. rewrite !default_lookup_insert.
    apply elem_of_upper_bound_insert in Hx as [[= -> ->]|Hx].
    + by case_decide.
    + case_decide.
      * subst. exfalso.
        assert (x ∈ (k_list_erase x kf).*1) as Hx1.
        { apply list_elem_of_fmap. by exists (x, t'). }
        rewrite fmap_fst_k_list_erase, elem_of_list_erase in Hx1 by done.
        tauto.
      * apply Hkey. by apply (k_list_erase_subseteq f).
  - by apply k_sorted_upper_bound_insert, k_sorted_k_list_erase.
  - lia.
  - intros x. rewrite !default_lookup_insert. case_decide; [|apply Hhs].
    assert (StronglySorted Z.lt (t0 :: h')) as Hs'.
    { rewrite <-Hh. apply StronglySorted_lt_snoc; [apply Hhs|].
      intros t' Ht'. apply Hhc in Ht'. lia. }
    by apply StronglySorted_inv in Hs' as [? _].
  - intros x t1. rewrite !default_lookup_insert. case_decide.
    + intros Ht1.
      assert (t1 ∈ default [] (h !! f) ++ [ts']) as Hin.
      { rewrite Hh. apply elem_of_cons. by right. }
      apply elem_of_app in Hin as [Hin|Hin].
      * apply Hhc in Hin. lia.
      * apply list_elem_of_singleton in Hin. lia.
    + intros Ht1. apply Hhc in Ht1. lia.
Qed.
End invariant.

(** ** Symbolic execution of the member functions

    Each lemma runs a member function on an object given by its fields, along
    one path of the function body. *)

#[local] Arguments Z.eqb _ _ : simpl nomatch.
#[local] Arguments Z.gtb _ _ : simpl nomatch.
#[local] Arguments Z.ltb _ _ : simpl nomatch.

Ltac exec_fields :=
  unfold set_max_size, set_current_timestamp, set_curr_size, set_hist,
    set_record_cnt, set_evictable, set_new_frames, set_new_pos, set_k_frames,
    set_k_pos, set_latch;
  simpl.

Ltac exec_ops :=
  unfold Evict, RecordAccess, SetEvictable, Remove, k_frames_place, lock_guard,
    mbind, M_bind, get, modify, ret, mret, M_ret, throw, new_frames_erase,
    k_frames_erase, hist_front, hist_erase_begin, Size, record_cnt_incr,
    record_cnt_assign, hist_push_back, hist_assign, evictable_assign,
    current_timestamp_incr, curr_size_incr, curr_size_decr, max_size_incr,
    max_size_decr, new_pos_assign, new_pos_erase, k_pos_assign, k_pos_erase,
    record_cnt, hist, evictable;
  simpl; exec_fields.

Section execution.
Variables (cap kk mx ts sz : Z) (h : gmap Z (list Z)) (c : gmap Z Z)
  (e : gmap Z bool) (nf : list Z) (np : gset Z) (kf : list (Z * Z))
  (kp : gset Z).

Local Notation "'s0'" :=
  (mkReplacer cap kk mx ts sz h c e nf np kf kp false).

Lemma Evict_run :
  (∀ x, x ∈ nf → x ∈ np) →
  Evict s0 =
    if sz =? 0 then Ok None s0
    else
      match find (λ x, default false (e !! x)) (rev nf) with
      | Some frame =>
          Ok (Some frame)
            (mkReplacer cap kk mx ts (size_t_wrap (sz - 1)) (<[frame:=[]]> h)
               (<[frame:=0]> c) e (list_erase frame nf) (np ∖ {[frame]})
               kf kp false)
      | None =>
          match k_frames_scan (λ x, default false (e !! x)) kf with
          | Some (frame, rest) =>
              Ok (Some frame)
                (mkReplacer cap kk mx ts (size_t_wrap (sz - 1))
                   (<[frame:=[]]> h) (<[frame:=0]> c) e nf np rest
                   (kp ∖ {[frame]}) false)
          | None => Ok None s0
          end
      end.
Proof.
  intros Hnp. exec_ops. destruct (sz =? 0); [done|].
  destruct (find _ (rev nf)) as [frame|] eqn:Hfind; simpl.
  - apply find_some in Hfind as [Hin _].
    apply in_rev, list_elem_of_In in Hin.
    rewrite !bool_decide_eq_true_2 by auto. done.
  - destruct (k_frames_scan _ kf) as [[frame rest]|]; done.
Qed.

Lemma RecordAccess_throw f :
  (f >? static_cast_frame_id cap) = true →
  RecordAccess f s0 = Throw InvalidFrame s0.
Proof. intros Hg. exec_ops. by rewrite Hg. Qed.

(** The first access of a frame while [curr_size_ == replacer_size_] calls
    [Evict] with the latch held. *)
Lemma RecordAccess_relock f :
  (f >? static_cast_frame_id cap) = false →
  size_t_wrap (default 0 (c !! f) + 1) = 1 → sz = cap →
  RecordAccess f s0 = Undefined.
Proof.
  intros Hg Hc1 Hsz. exec_ops. rewrite Hg. simpl.
  rewrite !lookup_insert_eq. simpl. rewrite Hc1. simpl.
  rewrite (proj2 (Z.eqb_eq sz cap) Hsz). done.
Qed.

Lemma RecordAccess_admit_cold f :
  (f >? static_cast_frame_id cap) = false →
  size_t_wrap (default 0 (c !! f) + 1) = 1 → sz ≠ cap → 1 < kk →
  RecordAccess f s0 =
    Ok tt (mkReplacer cap kk mx (size_t_wrap (ts + 1)) (size_t_wrap (sz + 1))
             (<[f := default [] (h !! f) ++ [size_t_wrap (ts + 1)]]> h)
             (<[f := size_t_wrap (default 0 (c !! f) + 1)]> c)
             (<[f := true]> e) (f :: nf) ({[f]} ∪ np) kf kp false).
Proof.
  intros Hg Hc1 Hsz Hk. exec_ops. rewrite Hg. simpl.
  rewrite !lookup_insert_eq. simpl. rewrite Hc1. simpl.
  rewrite (proj2 (Z.eqb_neq sz cap) Hsz). simpl.
  rewrite (proj2 (Z.eqb_neq 1 kk)) by lia.
  rewrite Zgtb_false by lia. done.
Qed.
Lemma RecordAccess_admit_warm f t :
  (f >? static_cast_frame_id cap) = false →
  size_t_wrap (default 0 (c !! f) + 1) = 1 → sz ≠ cap → kk = 1 →
  head (default [] (h !! f) ++ [size_t_wrap (ts + 1)]) = Some t →
  RecordAccess f s0 =
    Ok tt (mkReplacer cap kk mx (size_t_wrap (ts + 1)) (size_t_wrap (sz + 1))
             (<[f := default [] (h !! f) ++ [size_t_wrap (ts + 1)]]> h)
             (<[f := size_t_wrap (default 0 (c !! f) + 1)]> c)
             (<[f := true]> e) (list_erase f (f :: nf))
             (({[f]} ∪ np) ∖ {[f]})
             (upper_bound_insert (f, t) kf) ({[f]} ∪ kp) false).
Proof.
  intros Hg Hc1 Hsz Hk Ht. subst kk. exec_ops. rewrite Hg. simpl.
  rewrite !lookup_insert_eq. simpl. rewrite Hc1. simpl.
  rewrite (proj2 (Z.eqb_neq sz cap) Hsz). simpl.
  rewrite !bool_decide_eq_true_2 by set_solver. simpl.
  rewrite !lookup_insert_eq. simpl.
  destruct (default [] (h !! f) ++ [size_t_wrap (ts + 1)]) as [|t' l];
    [done|].
  simpl in Ht. injection Ht as ->. simpl. by case_decide.
Qed.

Lemma RecordAccess_touch f :
  (f >? static_cast_frame_id cap) = false →
  size_t_wrap (default 0 (c !! f) + 1) ≠ 1 →
  size_t_wrap (default 0 (c !! f) + 1) < kk →
  RecordAccess f s0 =
    Ok tt (mkReplacer cap kk mx (size_t_wrap (ts + 1)) sz
             (<[f := default [] (h !! f) ++ [size_t_wrap (ts + 1)]]> h)
             (<[f := size_t_wrap (default 0 (c !! f) + 1)]> c)
             e nf np kf kp false).
Proof.
  intros Hg Hc1 Hck. exec_ops. rewrite Hg. simpl.
  rewrite !lookup_insert_eq. simpl.
  rewrite (proj2 (Z.eqb_neq _ 1) Hc1). simpl.
  rewrite (proj2 (Z.eqb_neq _ kk)) by lia.
  rewrite Zgtb_false by lia. done.
Qed.

Lemma RecordAccess_promote f t :
  (f >? static_cast_frame_id cap) = false →
  size_t_wrap (default 0 (c !! f) + 1) ≠ 1 →
  size_t_wrap (default 0 (c !! f) + 1) = kk →
  f ∈ np → f ∈ nf →
  head (default [] (h !! f) ++ [size_t_wrap (ts + 1)]) = Some t →
  RecordAccess f s0 =
    Ok tt (mkReplacer cap kk mx (size_t_wrap (ts + 1)) sz
             (<[f := default [] (h !! f) ++ [size_t_wrap (ts + 1)]]> h)
             (<[f := size_t_wrap (default 0 (c !! f) + 1)]> c)
             e (list_erase f nf) (np ∖ {[f]})
             (upper_bound_insert (f, t) kf) ({[f]} ∪ kp) false).
Proof.
  intros Hg Hc1 Hck Hnp Hnf Ht. exec_ops. rewrite Hg. simpl.
  rewrite !lookup_insert_eq. simpl.
  rewrite (proj2 (Z.eqb_neq _ 1) Hc1). simpl.
  rewrite (proj2 (Z.eqb_eq _ kk) Hck).
  rewrite !bool_decide_eq_true_2 by done. simpl.
  rewrite !lookup_insert_eq. simpl.
  destruct (default [] (h !! f) ++ [size_t_wrap (ts + 1)]) as [|t' l];
    [done|].
  simpl in Ht. injection Ht as ->. done.
Qed.

Lemma RecordAccess_reposition f t0 h' t :
  (f >? static_cast_frame_id cap) = false →
  size_t_wrap (default 0 (c !! f) + 1) ≠ 1 →
  kk < size_t_wrap (default 0 (c !! f) + 1) →
  f ∈ kp → f ∈ kf.*1 →
  default [] (h !! f) ++ [size_t_wrap (ts + 1)] = t0 :: h' →
  head h' = Some t →
  RecordAccess f s0 =
    Ok tt (mkReplacer cap kk mx (size_t_wrap (ts + 1)) sz
             (<[f := h']>
                (<[f := default [] (h !! f) ++ [size_t_wrap (ts + 1)]]> h))
             (<[f := size_t_wrap (default 0 (c !! f) + 1)]> c)
             e nf np
             (upper_bound_insert (f, t) (k_list_erase f kf))
             ({[f]} ∪ kp) false).
Proof.
  intros Hg Hc1 Hck Hkp Hkf Hh Ht. exec_ops. rewrite Hg. simpl.
  rewrite !lookup_insert_eq. simpl.
  rewrite (proj2 (Z.eqb_neq _ 1) Hc1). simpl.
  rewrite (proj2 (Z.eqb_neq _ kk)) by lia.
  rewrite Zgtb_true by lia. simpl.
  rewrite !lookup_insert_eq. simpl. rewrite Hh.
  rewrite !bool_decide_eq_true_2 by done. simpl.
  rewrite !lookup_insert_eq. simpl.
  destruct h' as [|t' l]; [done|].
  simpl in Ht. injection Ht as ->. done.
Qed.

(** [SetEvictable] has a single path once the counter is known. *)
Lemma SetEvictable_run f (v : bool) :
  SetEvictable f v s0 =
    if default 0 (c !! f) =? 0 then Ok tt s0
    else
      let status := default false (e !! f) in
      let d (x : Z) : Z :=
        if status && negb v then size_t_wrap (x - 1)
        else if negb status && v then size_t_wrap (x + 1) else x in
      Ok tt (mkReplacer cap kk (d mx) ts (d sz) h c (<[f := v]> e)
               nf np kf kp false).
Proof.
  exec_ops. destruct (default 0 (c !! f) =? 0); [done|].
  destruct (default false (e !! f)), v; done.
Qed.

Lemma Remove_throw f :
  (f >? static_cast_frame_id cap) = true →
  Remove f s0 = Throw InvalidFrame s0.
Proof. intros Hg. exec_ops. by rewrite Hg. Qed.

Lemma Remove_untracked f :
  (f >? static_cast_frame_id cap) = false → default 0 (c !! f) = 0 →
  Remove f s0 = Ok tt s0.
Proof. intros Hg Hc. exec_ops. by rewrite Hg, Hc. Qed.

Lemma Remove_pinned f :
  (f >? static_cast_frame_id cap) = false → default 0 (c !! f) ≠ 0 →
  default false (e !! f) = false →
  Remove f s0 = Throw IllegalRemoval s0.
Proof.
  intros Hg Hc He. exec_ops.
  by rewrite Hg, (proj2 (Z.eqb_neq _ 0) Hc), He.
Qed.

Lemma Remove_cold f :
  (f >? static_cast_frame_id cap) = false → default 0 (c !! f) ≠ 0 →
  default false (e !! f) = true → default 0 (c !! f) < kk →
  f ∈ np → f ∈ nf →
  Remove f s0 =
    Ok tt (mkReplacer cap kk mx ts (size_t_wrap (sz - 1)) (<[f:=[]]> h)
             (<[f:=0]> c) e (list_erase f nf) (np ∖ {[f]}) kf kp false).
Proof.
  intros Hg Hc He Hk Hnp Hnf. exec_ops.
  rewrite Hg, (proj2 (Z.eqb_neq _ 0) Hc), He. simpl.
  rewrite (proj2 (Z.ltb_lt _ kk) Hk).
  by rewrite !bool_decide_eq_true_2 by done.
Qed.

Lemma Remove_warm f :
  (f >? static_cast_frame_id cap) = false → default 0 (c !! f) ≠ 0 →
  default false (e !! f) = true → kk ≤ default 0 (c !! f) →
  f ∈ kp → f ∈ kf.*1 →
  Remove f s0 =
    Ok tt (mkReplacer cap kk mx ts (size_t_wrap (sz - 1)) (<[f:=[]]> h)
             (<[f:=0]> c) e nf np (k_list_erase f kf) (kp ∖ {[f]}) false).
Proof.
  intros Hg Hc He Hk Hkp Hkf. exec_ops.
  rewrite Hg, (proj2 (Z.eqb_neq _ 0) Hc), He. simpl.
  rewrite (proj2 (Z.ltb_ge _ kk) Hk).
  by rewrite !bool_decide_eq_true_2 by done.
Qed.
End execution.

(** ** One call preserves the invariant *)

Section steps.
Variables (num_frames k : Z).
Hypothesis Hk : 1 ≤ k.

(** [RecordAccess] on an object that satisfies the invariant: it throws on
    a frame id above the bound, it re-locks the latch when the frame is new
    and the replacer is full, and otherwise it returns, the pair of the
    frame being placed by [upper_bound_insert] once the frame has [k]
    accesses. *)
Lemma RecordAccess_cases n s f :
  Inv num_frames k n s → n + 1 < 2 ^ 64 →
  (static_cast_frame_id num_frames < f
   ∧ RecordAccess f s = Throw InvalidFrame s)
  ∨ (f ≤ static_cast_frame_id num_frames ∧ record_cnt s f = 0
     ∧ curr_size_ s = num_frames ∧ RecordAccess f s = Undefined)
  ∨ (f ≤ static_cast_frame_id num_frames
     ∧ (record_cnt s f = 0 → curr_size_ s ≠ num_frames)
     ∧ ∃ s', RecordAccess f s = Ok tt s' ∧ Inv num_frames k (n + 1) s'
         ∧ record_cnt s' f = record_cnt s f + 1
         ∧ (record_cnt s f + 1 < k ∧ k_frames_ s' = k_frames_ s
            ∨ k ≤ record_cnt s f + 1
              ∧ ∃ t, head (hist s' f) = Some t
                ∧ k_frames_ s'
                  = upper_bound_insert (f, t)
                      (k_list_erase f (k_frames_ s)))).
Proof.
  intros HI Hn. destruct s as [cap kk mx ts sz h c e nf np kf kp l].
  pose proof HI as HI'.
  destruct HI' as [Hrs Hkk Hl Hnd Hknd Hnp Hkp Hcold Hwarm Hcnt _ _ Hhl _ _
                   Hclk _ _].
  unfold record_cnt, hist in *. simpl in *. subst cap kk l.
  destruct (f >? static_cast_frame_id num_frames) eqn:Hg.
  { left. split; [|by apply RecordAccess_throw].
    rewrite Z.gtb_ltb in Hg. by apply Z.ltb_lt in Hg. }
  right.
  assert (f ≤ static_cast_frame_id num_frames) as Hle.
  { rewrite Z.gtb_ltb in Hg. by apply Z.ltb_ge in Hg. }
  pose proof (Hcnt f) as Hcf. pose proof (Hhl f) as Hhf.
  assert (size_t_wrap (default 0 (c !! f) + 1) = default 0 (c !! f) + 1)
    as Hw by (apply size_t_wrap_small; lia).
  assert (size_t_wrap (ts + 1) = ts + 1) as Hwts
    by (apply size_t_wrap_small; lia).
  destruct (decide (default 0 (c !! f) = 0)) as [Hc0|Hc0].
  - (* first access *)
    destruct (decide (sz = num_frames)) as [Hsz|Hsz].
    { left. repeat split; try done.
      apply RecordAccess_relock; [done| |done]. rewrite Hw. lia. }
    right. split; [done|]. split; [done|].
    assert (default [] (h !! f) = []) as Hh0.
    { destruct (default [] (h !! f)); [done|]. simpl in Hhf. lia. }
    destruct (decide (k = 1)) as [Hk1|Hk1].
    + eexists. split.
      { apply (RecordAccess_admit_warm _ _ _ _ _ _ _ _ _ _ _ _ _
                 (size_t_wrap (ts + 1))); try done.
        - rewrite Hw. lia.
        - by rewrite Hh0. }
      split.
      { apply Inv_admit_warm with (ts := ts); try done. by rewrite Hh0. }
      unfold record_cnt, hist. simpl. rewrite !lookup_insert_eq. simpl.
      split; [done|]. right. split; [lia|].
      exists (size_t_wrap (ts + 1)). rewrite Hh0. split; [done|].
      rewrite k_list_erase_not_elem; [done|].
      intros Hin. apply Hwarm in Hin. lia.
    + eexists. split.
      { apply RecordAccess_admit_cold; try done; [rewrite Hw|]; lia. }
      split.
      { apply Inv_admit_cold with (ts := ts); try done. lia. }
      unfold record_cnt, hist. simpl. rewrite !lookup_insert_eq. simpl.
      split; [done|]. left. split; [lia|done].
  - (* the frame is tracked *)
    right. split; [done|]. split; [done|].
    destruct (decide (default 0 (c !! f) + 1 < k)) as [Hlt|Hge].
    { eexists. split.
      { apply RecordAccess_touch; try done; rewrite Hw; lia. }
      split.
      { apply Inv_touch_cold with (ts := ts); try done. lia. }
      unfold record_cnt, hist. simpl. rewrite !lookup_insert_eq. simpl.
      split; [done|]. by left. }
    destruct (default [] (h !! f)) as [|t0 h0] eqn:Hh0;
      [simpl in Hhf; lia|].
    destruct (decide (default 0 (c !! f) + 1 = k)) as [Heq|Hne].
    + assert (f ∈ nf) as Hfn by (apply Hcold; lia).
      eexists. split.
      { apply (RecordAccess_promote _ _ _ _ _ _ _ _ _ _ _ _ _ t0);
          try done; try (rewrite Hw; lia).
        - by apply Hnp.
        - by rewrite Hh0. }
      split.
      { apply Inv_promote with (ts := ts); try done; [lia|].
        by rewrite Hh0. }
      unfold record_cnt, hist. simpl. rewrite !lookup_insert_eq. simpl.
      split; [done|]. right. split; [lia|].
      exists t0. split; [by rewrite Hh0|].
      rewrite k_list_erase_not_elem; [done|].
      intros Hin. apply Hwarm in Hin. lia.
    + assert (f ∈ kf.*1) as Hfk by (apply Hwarm; lia).
      destruct (h0 ++ [size_t_wrap (ts + 1)]) as [|t1 h1] eqn:Hh1.
      { by destruct h0. }
      eexists. split.
      { apply (RecordAccess_reposition _ _ _ _ _ _ _ _ _ _ _ _ _ t0
                 (t1 :: h1) t1); try done; try (rewrite Hw; lia).
        - by apply Hkp.
        - rewrite Hh0. simpl. by rewrite Hh1. }
      split.
      { apply Inv_reposition with (ts := ts) (t0 := t0); try done; [lia|].
        rewrite Hh0. simpl. by rewrite Hh1. }
      unfold record_cnt, hist. simpl. rewrite !lookup_insert_eq. simpl.
      split; [done|]. right. split; [lia|]. by exists t1.
Qed.

Lemma Inv_forgotten n s s' f :
  Inv num_frames k n s → Inv num_frames k n s' → 1 ≤ curr_size_ s →
  hist_ s' = <[f:=[]]> (hist_ s) →
  record_cnt_ s' = <[f:=0]> (record_cnt_ s) →
  curr_size_ s' = size_t_wrap (curr_size_ s - 1) →
  evictable_ s' = evictable_ s →
  current_timestamp_ s' = current_timestamp_ s →
  n < 2 ^ 64 →
  forgotten f s s'.
Proof.
  intros HI HI' H1 Hh Hc Hs He Ht Hn.
  pose proof (Inv_size_bounds _ _ _ _ HI) as Hb.
  assert (record_cnt s' f = 0) as Hc0.
  { unfold record_cnt. by rewrite Hc, lookup_insert_eq. }
  unfold forgotten, Size, hist, record_cnt in *.
  rewrite Hh, Hc, Hs, !lookup_insert_eq. simpl.
  rewrite size_t_wrap_small by lia.
  repeat split; try done.
  - intros Hin. apply (inv_cold _ _ _ _ HI') in Hin.
    unfold record_cnt in Hin. lia.
  - intros Hin. apply (inv_warm _ _ _ _ HI') in Hin.
    unfold record_cnt in Hin. lia.
  - by rewrite lookup_insert_ne.
  - by rewrite lookup_insert_ne.
  - by rewrite (inv_replacer_size _ _ _ _ HI), (inv_replacer_size _ _ _ _ HI').
  - by rewrite (inv_k _ _ _ _ HI), (inv_k _ _ _ _ HI').
Qed.

(** [Evict] on an object that satisfies the invariant. *)
Lemma Evict_cases n s :
  Inv num_frames k n s → n < 2 ^ 64 →
  (∃ frame l1 l2 s',
      new_frames_ s = l1 ++ frame :: l2 ∧ evictable s frame = true
      ∧ Forall (λ x, evictable s x = false) l2
      ∧ Evict s = Ok (Some frame) s' ∧ Inv num_frames k n s'
      ∧ new_frames_ s' = l1 ++ l2 ∧ k_frames_ s' = k_frames_ s
      ∧ forgotten frame s s')
  ∨ (∃ frame t l1 l2 s',
      (∀ x, x ∈ new_frames_ s → evictable s x = false)
      ∧ k_frames_ s = l1 ++ (frame, t) :: l2 ∧ evictable s frame = true
      ∧ Forall (λ y, evictable s y.1 = false) l1
      ∧ Evict s = Ok (Some frame) s' ∧ Inv num_frames k n s'
      ∧ new_frames_ s' = new_frames_ s ∧ k_frames_ s' = l1 ++ l2
      ∧ forgotten frame s s')
  ∨ (Size s = 0
     ∧ (∀ x, x ∈ new_frames_ s → evictable s x = false)
     ∧ (∀ x, x ∈ (k_frames_ s).*1 → evictable s x = false)
     ∧ Evict s = Ok None s).
Proof.
  intros HI Hn. destruct s as [cap kk mx ts sz h c e nf np kf kp l].
  pose proof HI as HI'.
  pose proof (Inv_size_bounds _ _ _ _ HI) as Hb.
  destruct HI' as [Hrs Hkk Hl Hnd Hknd Hnp Hkp Hcold Hwarm Hcnt Hsz _ _ _ _
                   _ _ _].
  unfold Size, evictable in *. simpl in *. subst cap kk l.
  pose proof (Evict_run num_frames k mx ts sz h c e nf np kf kp
                (λ x, proj2 (Hnp x))) as Hrun.
  destruct (sz =? 0) eqn:Hsz0.
  { right. right. apply Z.eqb_eq in Hsz0. subst sz.
    pose proof (count_evictable_bounds (λ x : Z, default false (e !! x)) nf).
    pose proof (count_evictable_bounds (λ x : Z, default false (e !! x))
                  kf.*1).
    repeat split; try done.
    - apply count_evictable_zero. lia.
    - apply count_evictable_zero. lia. }
  apply Z.eqb_neq in Hsz0.
  destruct (find (λ x : Z, default false (e !! x)) (rev nf)) as [frame|]
    eqn:Hfind.
  - left. apply find_rev_Some in Hfind as (l1 & l2 & -> & Hev & Hl2).
    assert (frame ∉ l1) as Hfl1.
    { apply NoDup_app in Hnd as (_ & Hd & _). intros Hin.
      apply (Hd _ Hin), elem_of_cons. by left. }
    assert (frame ∈ l1 ++ frame :: l2) as Hin.
    { apply elem_of_app. right. apply elem_of_cons. by left. }
    eexists frame, l1, l2, _.
    split; [done|]. split; [done|]. split; [done|]. split; [exact Hrun|].
    assert (1 ≤ sz) as Hsz1 by lia.
    split; [by apply Inv_clear_cold|].
    split; [simpl; by apply list_erase_middle|]. split; [done|].
    eapply Inv_forgotten; try done. by apply Inv_clear_cold.
  - destruct (k_frames_scan (λ x : Z, default false (e !! x)) kf)
      as [[frame rest]|] eqn:Hscan.
    + right. left.
      pose proof (k_frames_scan_erase _ _ _ _ Hscan) as Hrest.
      apply k_frames_scan_Some in Hscan as (l1 & t & l2 & -> & Hr & Hev & Hl1).
      assert (frame ∈ (l1 ++ (frame, t) :: l2).*1) as Hin.
      { rewrite fmap_app. apply elem_of_app. right. csimpl.
        apply elem_of_cons. by left. }
      eexists frame, t, l1, l2, _.
      split; [by apply find_rev_None|].
      split; [done|]. split; [done|]. split; [done|]. split; [exact Hrun|].
      assert (1 ≤ sz) as Hsz1 by lia.
      split; [rewrite Hrest; by apply Inv_clear_warm|].
      split; [done|]. split; [done|].
      eapply Inv_forgotten; try done. rewrite Hrest. by apply Inv_clear_warm.
    + exfalso.
      pose proof (find_rev_None _ _ Hfind) as Hn1.
      pose proof (k_frames_scan_None _ _ Hscan) as Hn2.
      destruct (decide (0 < count_evictable (λ x : Z, default false (e !! x)) nf)) as [Hp|Hp].
      { apply count_evictable_pos in Hp as (x & Hx & Hevx).
        rewrite (Hn1 x Hx) in Hevx. done. }
      destruct (decide (0 < count_evictable (λ x : Z, default false (e !! x)) kf.*1)) as [Hp'|Hp'].
      { apply count_evictable_pos in Hp' as (x & Hx & Hevx).
        rewrite (Hn2 x Hx) in Hevx. done. }
      lia.
Qed.
(** [Remove] on an object that satisfies the invariant. *)
Lemma Remove_cases n s f :
  Inv num_frames k n s → n < 2 ^ 64 →
  (static_cast_frame_id num_frames < f ∧ Remove f s = Throw InvalidFrame s)
  ∨ (f ≤ static_cast_frame_id num_frames ∧ record_cnt s f = 0
     ∧ Remove f s = Ok tt s)
  ∨ (f ≤ static_cast_frame_id num_frames ∧ record_cnt s f ≠ 0
     ∧ evictable s f = false ∧ Remove f s = Throw IllegalRemoval s)
  ∨ (f ≤ static_cast_frame_id num_frames ∧ record_cnt s f ≠ 0
     ∧ evictable s f = true
     ∧ ∃ s', Remove f s = Ok tt s' ∧ Inv num_frames k n s'
         ∧ new_frames_ s' = list_erase f (new_frames_ s)
         ∧ k_frames_ s' = k_list_erase f (k_frames_ s)
         ∧ forgotten f s s').
Proof.
  intros HI Hn. destruct s as [cap kk mx ts sz h c e nf np kf kp l].
  pose proof HI as HI'.
  pose proof (Inv_size_bounds _ _ _ _ HI) as Hb.
  destruct HI' as [Hrs Hkk Hl Hnd Hknd Hnp Hkp Hcold Hwarm Hcnt Hsz _ _ _ _
                   _ _ _].
  unfold Size, evictable, record_cnt in *. simpl in *. subst cap kk l.
  destruct (f >? static_cast_frame_id num_frames) eqn:Hg.
  { left. split; [|by apply Remove_throw].
    rewrite Z.gtb_ltb in Hg. by apply Z.ltb_lt in Hg. }
  right.
  assert (f ≤ static_cast_frame_id num_frames) as Hle.
  { rewrite Z.gtb_ltb in Hg. by apply Z.ltb_ge in Hg. }
  destruct (decide (default 0 (c !! f) = 0)) as [Hc0|Hc0].
  { left. repeat split; try done. by apply Remove_untracked. }
  right.
  destruct (default false (e !! f)) eqn:Hev.
  2: { left. repeat split; try done. by apply Remove_pinned. }
  right. split; [done|]. split; [done|]. split; [done|].
  pose proof (Hcnt f) as Hcf.
  destruct (decide (default 0 (c !! f) < k)) as [Hlt|Hge].
  - assert (f ∈ nf) as Hfn by (apply Hcold; lia).
    assert (f ∉ kf.*1) as Hfk by (intros Hin; apply Hwarm in Hin; lia).
    assert (1 ≤ sz) as Hsz1.
    { pose proof (count_evictable_bounds (λ x : Z, default false (e !! x))
                    (list_erase f nf)) as Hb1.
      rewrite count_evictable_erase, Hev in Hb1 by done.
      pose proof (count_evictable_bounds (λ x : Z, default false (e !! x))
                    kf.*1).
      lia. }
    eexists. split; [apply Remove_cold; try done; by apply Hnp|].
    split; [by apply Inv_clear_cold|]. split; [done|].
    split; [simpl; by rewrite k_list_erase_not_elem|].
    eapply Inv_forgotten; try done. by apply Inv_clear_cold.
  - assert (f ∈ kf.*1) as Hfk by (apply Hwarm; lia).
    assert (f ∉ nf) as Hfn by (intros Hin; apply Hcold in Hin; lia).
    assert (1 ≤ sz) as Hsz1.
    { pose proof (count_evictable_bounds (λ x : Z, default false (e !! x))
                    (list_erase f kf.*1)) as Hb1.
      rewrite count_evictable_erase, Hev in Hb1 by done.
      pose proof (count_evictable_bounds (λ x : Z, default false (e !! x))
                    nf).
      lia. }
    eexists. split; [apply Remove_warm; try done; [lia|by apply Hkp]|].
    split; [by apply Inv_clear_warm|].
    split; [simpl; by rewrite list_erase_not_elem|]. split; [done|].
    eapply Inv_forgotten; try done. by apply Inv_clear_warm.
Qed.

(** [SetEvictable] on an object that satisfies the invariant: only the
    flag of the frame, [curr_size_] and [max_size_] can differ afterwards. *)
Lemma SetEvictable_cases n s f (v : bool) :
  Inv num_frames k n s → n < 2 ^ 64 →
  (record_cnt s f = 0 ∧ SetEvictable f v s = Ok tt s)
  ∨ (record_cnt s f ≠ 0
     ∧ ∃ mx' sz',
         SetEvictable f v s
         = Ok tt (mkReplacer (replacer_size_ s) (k_ s) mx'
                    (current_timestamp_ s) sz' (hist_ s) (record_cnt_ s)
                    (<[f := v]> (evictable_ s)) (new_frames_ s) (new_pos_ s)
                    (k_frames_ s) (k_pos_ s) (latch_ s))
         ∧ Inv num_frames k n
             (mkReplacer (replacer_size_ s) (k_ s) mx'
                (current_timestamp_ s) sz' (hist_ s) (record_cnt_ s)
                (<[f := v]> (evictable_ s)) (new_frames_ s) (new_pos_ s)
                (k_frames_ s) (k_pos_ s) (latch_ s))
         ∧ sz' = curr_size_ s + (if v then 1 else 0)
                 - (if evictable s f then 1 else 0)).
Proof.
  intros HI Hn. destruct s as [cap kk mx ts sz h c e nf np kf kp l].
  pose proof (Inv_size_bounds _ _ _ _ HI) as Hb.
  pose proof (inv_latch _ _ _ _ HI) as Hl.
  unfold evictable, record_cnt in *. simpl in *. subst l.
  rewrite SetEvictable_run.
  destruct (default 0 (c !! f) =? 0) eqn:Hc0.
  { left. by apply Z.eqb_eq in Hc0. }
  right. apply Z.eqb_neq in Hc0. split; [done|]. simpl.
  set (sz' := sz + (if v then 1 else 0)
              - (if default false (e !! f) then 1 else 0)).
  assert (∀ mx', Inv num_frames k n
            (mkReplacer cap kk mx' ts sz' h c (<[f := v]> e) nf np kf kp
               false)) as HI'.
  { intros mx'. by eapply Inv_set_evictable. }
  pose proof (Inv_size_bounds _ _ _ _ (HI' 0)) as Hb'. simpl in Hb'.
  eexists _, sz'. split; [|split; [apply HI'|done]].
  do 2 f_equal. subst sz'.
  destruct (default false (e !! f)), v; simpl in *;
    rewrite ?size_t_wrap_small by lia; f_equal; lia.
Qed.
End steps.

(** ** Every history of calls preserves the invariant *)

Section histories.
Variables (num_frames k : Z).
Hypothesis Hk : 1 ≤ k.

Lemma perform_Inv n s c :
  Inv num_frames k n s → n + 1 < 2 ^ 64 →
  match perform c s with
  | Ok _ s' => Inv num_frames k (n + 1) s'
  | Throw _ s' => s' = s
  | Undefined => True
  end.
Proof.
  intros HI Hn. destruct c as [f| |f v|f]; simpl.
  - destruct (RecordAccess_cases num_frames k Hk n s f HI Hn)
      as [[_ ->]|[(_ & _ & _ & ->)|(_ & _ & s' & -> & HI' & _)]]; done.
  - unfold mbind, M_bind.
    destruct (Evict_cases num_frames k Hk n s HI ltac:(lia))
      as [(f & l1 & l2 & s' & _ & _ & _ & -> & HI' & _)
         |[(f & t & l1 & l2 & s' & _ & _ & _ & _ & -> & HI' & _)
          |(_ & _ & _ & ->)]]; simpl.
    + eapply Inv_mono; [done|lia].
    + eapply Inv_mono; [done|lia].
    + eapply Inv_mono; [done|lia].
  - destruct (SetEvictable_cases num_frames k n s f v HI ltac:(lia))
      as [[_ ->]|(_ & mx' & sz' & -> & HI' & _)].
    + eapply Inv_mono; [done|lia].
    + eapply Inv_mono; [done|lia].
  - destruct (Remove_cases num_frames k Hk n s f HI ltac:(lia))
      as [[_ ->]|[(_ & _ & ->)|[(_ & _ & _ & ->)
         |(_ & _ & _ & s' & -> & HI' & _)]]]; try done.
    + eapply Inv_mono; [done|lia].
    + eapply Inv_mono; [done|lia].
Qed.

(** On an object that satisfies the invariant every call completes,
    except the first access of a frame made while the replacer is full. *)
Lemma perform_Undefined n s c :
  Inv num_frames k n s → n + 1 < 2 ^ 64 →
  perform c s = Undefined ↔
  ∃ f, c = CallRecordAccess f ∧ f ≤ static_cast_frame_id num_frames
       ∧ record_cnt s f = 0 ∧ Size s = num_frames.
Proof.
  intros HI Hn. split.
  - destruct c as [f| |f v|f]; simpl.
    + destruct (RecordAccess_cases num_frames k Hk n s f HI Hn)
        as [[_ ->]|[(Hf & Hc & Hsz & _)|(_ & _ & s' & -> & _)]]; try done.
      intros _. by exists f.
    + unfold mbind, M_bind.
      destruct (Evict_cases num_frames k Hk n s HI ltac:(lia))
        as [(f & l1 & l2 & s' & _ & _ & _ & -> & _)
           |[(f & t & l1 & l2 & s' & _ & _ & _ & _ & -> & _)
            |(_ & _ & _ & ->)]]; done.
    + destruct (SetEvictable_cases num_frames k n s f v HI ltac:(lia))
        as [[_ ->]|(_ & mx' & sz' & -> & _)]; done.
    + destruct (Remove_cases num_frames k Hk n s f HI ltac:(lia))
        as [[_ ->]|[(_ & _ & ->)|[(_ & _ & _ & ->)
           |(_ & _ & _ & s' & -> & _)]]]; done.
  - intros (f & -> & Hf & Hc & Hsz). simpl.
    destruct (RecordAccess_cases num_frames k Hk n s f HI Hn)
      as [[Hgt _]|[(_ & _ & _ & Heq)|(_ & Hne & _)]]; [lia|done|].
    by destruct (Hne Hc).
Qed.

Lemma run_Inv cs : ∀ n s s',
  Inv num_frames k n s → n + Z.of_nat (length cs) < 2 ^ 64 →
  run cs s = Some s' → Inv num_frames k (n + Z.of_nat (length cs)) s'.
Proof.
  induction cs as [|c cs IH]; intros n s s' HI Hn Hrun; simpl in *.
  - injection Hrun as <-. eapply Inv_mono; [done|lia].
  - pose proof (perform_Inv n s c HI ltac:(lia)) as Hc.
    destruct (perform c s) as [a s1|e s1|]; [| |done].
    + replace (n + Z.of_nat (S (length cs)))
        with ((n + 1) + Z.of_nat (length cs)) by lia.
      apply (IH _ s1); [done|lia|done].
    + subst s1.
      replace (n + Z.of_nat (S (length cs)))
        with ((n + 1) + Z.of_nat (length cs)) by lia.
      apply (IH _ s); [|lia|done]. eapply Inv_mono; [done|lia].
Qed.

(** Every object a history of calls leads to satisfies the invariant. *)
Lemma history_Inv cs s :
  Z.of_nat (length cs) < 2 ^ 64 →
  run cs (LRUKReplacer_new num_frames k) = Some s →
  Inv num_frames k (Z.of_nat (length cs)) s.
Proof.
  intros Hn Hrun.
  apply (run_Inv cs 0 _ s (Inv_new num_frames k Hk)); [lia|done].
Qed.
End histories.

(** ** The frames counted by [Size] *)

Lemma elem_of_evictable_tracked s f :
  f ∈ evictable_tracked s ↔ 0 < record_cnt s f ∧ evictable s f = true.
Proof.
  unfold evictable_tracked. rewrite elem_of_filter, elem_of_dom.
  split; [tauto|]. intros [Hc He]. repeat split; try done.
  unfold record_cnt in Hc. destruct (record_cnt_ s !! f); [done|simpl in Hc; lia].
Qed.

Lemma count_evictable_filter (ev : Z → bool) (l : list Z) :
  count_evictable ev l = Z.of_nat (length (filter (λ x, ev x = true) l)).
Proof.
  induction l as [|x l IH]; simpl; [done|].
  rewrite filter_cons. destruct (ev x) eqn:Hx.
  - rewrite decide_True by done. simpl. lia.
  - rewrite decide_False by done. lia.
Qed.

(** ** The claims of the specification *)

Section claims.
Variables (num_frames k : Z).
Hypothesis Hk : 1 ≤ k.

(** C3. After every completed operation, a frame with access count in
    [1, K) is in the cold index and not in the warm index, a frame with
    access count at least K is in the warm index and not in the cold index,
    and a frame with access count 0 is in neither. *)
Theorem C3_index_membership cs s f :
  Z.of_nat (length cs) < 2 ^ 64 →
  run cs (LRUKReplacer_new num_frames k) = Some s →
  (1 ≤ record_cnt s f < k →
     f ∈ new_frames_ s ∧ (f ∉ (k_frames_ s).*1))
  ∧ (k ≤ record_cnt s f →
       f ∈ (k_frames_ s).*1 ∧ (f ∉ new_frames_ s))
  ∧ (record_cnt s f = 0 →
       (f ∉ new_frames_ s) ∧ (f ∉ (k_frames_ s).*1)).
Proof.
  intros Hn Hrun.
  pose proof (history_Inv num_frames k Hk cs s Hn Hrun) as HI.
  pose proof (inv_cold _ _ _ _ HI f) as Hcold.
  pose proof (inv_warm _ _ _ _ HI f) as Hwarm.
  split; [|split].
  - intros Hc. split; [by apply Hcold|]. rewrite Hwarm. lia.
  - intros Hc. split; [by apply Hwarm|]. rewrite Hcold. lia.
  - intros Hc. rewrite Hcold, Hwarm. lia.
Qed.

(** C4. After every completed operation, [Size()] is the number of frames
    whose access count is positive and whose evictable flag is set. *)
Theorem C4_size_counts_evictable cs s :
  Z.of_nat (length cs) < 2 ^ 64 →
  run cs (LRUKReplacer_new num_frames k) = Some s →
  Size s = Z.of_nat (size (evictable_tracked s)).
Proof.
  intros Hn Hrun.
  pose proof (history_Inv num_frames k Hk cs s Hn Hrun) as HI.
  destruct HI as [_ _ _ Hnd Hknd _ _ Hcold Hwarm Hcnt Hsz _ _ _ _ _ _ _].
  unfold Size. rewrite Hsz, !count_evictable_filter.
  rewrite <-Nat2Z.inj_add, <-length_app, <-filter_app.
  f_equal.
  assert (NoDup (new_frames_ s ++ (k_frames_ s).*1)) as Hnd'.
  { apply NoDup_app. repeat split; try done.
    intros x Hx Hx'. apply Hcold in Hx. apply Hwarm in Hx'. lia. }
  rewrite <-(size_list_to_set (C := gset Z)) by by apply NoDup_filter.
  f_equal. apply set_eq. intros x.
  rewrite elem_of_list_to_set, list_elem_of_filter, elem_of_app,
    elem_of_evictable_tracked, Hcold, Hwarm.
  specialize (Hcnt x). split; [intros [? ?]|intros [? ?]]; split; try done; lia.
Qed.
(** C10. Whenever [Size()] is positive at the start of [Evict], the search
    finds a victim: [Evict] returns a frame that is tracked and evictable,
    found by the scan of the cold index or, when that has no evictable
    frame, of the warm index, and forgets it.  [Evict] reports that there
    is no victim exactly when [Size()] is 0, and then leaves the object as
    it is; [Size()] is never negative, so one of the two cases applies. *)
Theorem C10_evict_finds_victim cs s :
  Z.of_nat (length cs) < 2 ^ 64 →
  run cs (LRUKReplacer_new num_frames k) = Some s →
  (0 < Size s →
     ∃ frame s', Evict s = Ok (Some frame) s'
       ∧ frame ∈ evictable_tracked s
       ∧ (cold_victim s frame s' ∨ warm_victim s frame s')
       ∧ forgotten frame s s')
  ∧ (∀ s', Evict s = Ok None s' → Size s = 0)
  ∧ (Size s = 0 → Evict s = Ok None s)
  ∧ 0 ≤ Size s.
Proof.
  intros Hn Hrun.
  pose proof (history_Inv num_frames k Hk cs s Hn Hrun) as HI.
  pose proof (Inv_size_bounds _ _ _ _ HI) as Hsz0.
  destruct (Evict_cases num_frames k Hk _ s HI Hn)
    as [(f & l1 & l2 & s' & Hnf & Hev & Hl2 & Heq & HI' & Hnf' & Hkf' & Hfg)
       |[(f & t & l1 & l2 & s' & Hnone & Hkf & Hev & Hl1 & Heq & HI' & Hnf'
            & Hkf' & Hfg)
        |(Hsz & _ & _ & Heq)]]; rewrite Heq.
  - assert (0 < Size s) as Hpos.
    { pose proof (Inv_size_bounds _ _ _ _ HI') as Hsz'.
      destruct Hfg as (_ & _ & _ & _ & Hs & _). unfold Size in *. lia. }
    split; [|split; [intros ? [=]|split; [lia|apply Hsz0]]].
    intros _. exists f, s'. split; [done|]. split.
    { apply elem_of_evictable_tracked. split; [|done].
      assert (f ∈ new_frames_ s) as Hf.
      { rewrite Hnf. apply elem_of_app. right. apply elem_of_cons. by left. }
      apply (inv_cold _ _ _ _ HI) in Hf. lia. }
    split; [|done]. left. by exists l1, l2.
  - assert (0 < Size s) as Hpos.
    { pose proof (Inv_size_bounds _ _ _ _ HI') as Hsz'.
      destruct Hfg as (_ & _ & _ & _ & Hs & _). unfold Size in *. lia. }
    split; [|split; [intros ? [=]|split; [lia|apply Hsz0]]].
    intros _. exists f, s'. split; [done|]. split.
    { apply elem_of_evictable_tracked. split; [|done].
      assert (f ∈ (k_frames_ s).*1) as Hf.
      { rewrite Hkf, fmap_app. apply elem_of_app. right. csimpl.
        apply elem_of_cons. by left. }
      apply (inv_warm _ _ _ _ HI) in Hf. lia. }
    split; [|done]. right. split; [done|]. by exists t, l1, l2.
  - split; [lia|]. split; [done|]. split; [done|apply Hsz0].
Qed.
(** C1. [Evict] scans the cold index from its least recent end and returns
    the first evictable frame; only if the cold index has none it scans
    the warm index in ascending order and returns the first evictable
    frame; the history of the chosen frame is cleared, its access count is
    reset to 0, its node is removed from its index and [Size()] is one
    less.  When no frame is evictable [Evict] reports no victim and leaves
    the object as it is. *)
Theorem C1_evict_search_order cs s :
  Z.of_nat (length cs) < 2 ^ 64 →
  run cs (LRUKReplacer_new num_frames k) = Some s →
  ∃ r s',
    Evict s = Ok r s'
    ∧ match r with
      | Some frame =>
          (cold_victim s frame s' ∨ warm_victim s frame s')
          ∧ forgotten frame s s'
      | None =>
          s' = s
          ∧ (∀ x, x ∈ new_frames_ s → evictable s x = false)
          ∧ (∀ x, x ∈ (k_frames_ s).*1 → evictable s x = false)
      end.
Proof.
  intros Hn Hrun.
  pose proof (history_Inv num_frames k Hk cs s Hn Hrun) as HI.
  destruct (Evict_cases num_frames k Hk _ s HI Hn)
    as [(f & l1 & l2 & s' & Hnf & Hev & Hl2 & Heq & _ & Hnf' & Hkf' & Hfg)
       |[(f & t & l1 & l2 & s' & Hcold & Hkf & Hev & Hl1 & Heq & _ & Hnf'
          & Hkf' & Hfg)
        |(Hsz & Hn1 & Hn2 & Heq)]].
  - exists (Some f), s'. split; [done|]. split; [|done].
    left. by exists l1, l2.
  - exists (Some f), s'. split; [done|]. split; [|done].
    right. split; [done|]. by exists t, l1, l2.
  - by exists None, s.
Qed.

(** C6. For a valid frame id, [Remove] does nothing when the access count
    of the frame is 0; it fails with IllegalRemoval and leaves the object
    unchanged when the frame has been accessed and is not evictable;
    otherwise it clears the history of the frame, resets its count to 0,
    removes its node from its index and makes [Size()] one less. *)
Theorem C6_remove cs s f :
  Z.of_nat (length cs) < 2 ^ 64 →
  run cs (LRUKReplacer_new num_frames k) = Some s →
  num_frames < 2 ^ 31 → 0 ≤ f < num_frames →
  (record_cnt s f = 0 → Remove f s = Ok tt s)
  ∧ (record_cnt s f ≠ 0 → evictable s f = false →
       Remove f s = Throw IllegalRemoval s)
  ∧ (record_cnt s f ≠ 0 → evictable s f = true →
       ∃ s', Remove f s = Ok tt s'
             ∧ forgotten f s s'
             ∧ new_frames_ s' = list_erase f (new_frames_ s)
             ∧ k_frames_ s' = k_list_erase f (k_frames_ s)).
Proof.
  intros Hn Hrun Hcap Hf.
  pose proof (history_Inv num_frames k Hk cs s Hn Hrun) as HI.
  assert (static_cast_frame_id num_frames = num_frames) as Hcast.
  { apply static_cast_frame_id_small. lia. }
  destruct (Remove_cases num_frames k Hk _ s f HI Hn)
    as [[Hgt _]|[(_ & Hc & Heq)|[(_ & Hc & Hev & Heq)
       |(_ & Hc & Hev & s' & Heq & _ & Hnf & Hkf & Hfg)]]].
  - lia.
  - split; [done|]. split; intros Hc'; done.
  - split; [done|]. split; [done|]. intros _ Hev'. congruence.
  - split; [done|]. split; [intros _ Hev'; congruence|].
    intros _ _. by exists s'.
Qed.

(** C9. [SetEvictable] does nothing when the access count of the frame is
    0.  Otherwise it sets the flag of the frame and changes [Size()] by +1
    or -1 exactly when the value of the flag changes; the flags of the
    other frames, the histories, the access counts, the two indexes and
    the clock stay as they are ([max_size_], which no member function
    reads, follows [curr_size_]); and a second call with the same flag
    leaves [Size()] as it is. *)
Theorem C9_set_evictable cs s f (v : bool) :
  Z.of_nat (length cs) < 2 ^ 64 →
  run cs (LRUKReplacer_new num_frames k) = Some s →
  (record_cnt s f = 0 → SetEvictable f v s = Ok tt s)
  ∧ (record_cnt s f ≠ 0 →
       ∃ s', SetEvictable f v s = Ok tt s'
         ∧ evictable s' f = v
         ∧ (∀ g, g ≠ f → evictable s' g = evictable s g)
         ∧ (evictable s f = v → Size s' = Size s)
         ∧ (evictable s f = false → v = true → Size s' = Size s + 1)
         ∧ (evictable s f = true → v = false → Size s' = Size s - 1)
         ∧ hist_ s' = hist_ s ∧ record_cnt_ s' = record_cnt_ s
         ∧ new_frames_ s' = new_frames_ s ∧ new_pos_ s' = new_pos_ s
         ∧ k_frames_ s' = k_frames_ s ∧ k_pos_ s' = k_pos_ s
         ∧ current_timestamp_ s' = current_timestamp_ s
         ∧ replacer_size_ s' = replacer_size_ s ∧ k_ s' = k_ s
         ∧ ∃ s'', SetEvictable f v s' = Ok tt s'' ∧ Size s'' = Size s').
Proof.
  intros Hn Hrun.
  pose proof (history_Inv num_frames k Hk cs s Hn Hrun) as HI.
  destruct (SetEvictable_cases num_frames k _ s f v HI Hn)
    as [[Hc Heq]|(Hc & mx' & sz' & Heq & HI' & Hsz)].
  { split; [done|]. intros Hc'. done. }
  split; [intros Hc'; done|]. intros _.
  eexists. split; [exact Heq|].
  unfold Size, evictable. simpl. rewrite lookup_insert_eq. simpl.
  split; [done|]. split; [intros g Hg; by rewrite lookup_insert_ne|].
  split; [intros <-; unfold evictable in Hsz; destruct (default false _); lia|].
  split; [intros He ->; unfold evictable in *; rewrite He in Hsz; lia|].
  split; [intros He ->; unfold evictable in *; rewrite He in Hsz; lia|].
  repeat (split; [done|]).
  destruct (SetEvictable_cases num_frames k _ _ f v HI' Hn)
    as [[Hc2 Heq2]|(Hc2 & mx2 & sz2 & Heq2 & _ & Hsz2)].
  { eexists. split; [exact Heq2|done]. }
  eexists. split; [exact Heq2|]. simpl in *. rewrite Hsz2.
  unfold evictable. simpl. rewrite lookup_insert_eq. simpl. lia.
Qed.
End claims.

(** ** The range check and the nested call of [Evict] *)

(** A frame id above [replacer_size_] is rejected by both range checks
    before anything is written. *)
Lemma range_check_rejects_above s f :
  latch_ s = false → static_cast_frame_id (replacer_size_ s) < f →
  RecordAccess f s = Throw InvalidFrame s ∧ Remove f s = Throw InvalidFrame s.
Proof.
  intros Hl Hf. destruct s as [cap kk mx ts sz h c e nf np kf kp l].
  simpl in *. subst l.
  split; [apply RecordAccess_throw|apply Remove_throw]; by apply Zgtb_true.
Qed.

(** The first access of a frame that passes the range check while
    [curr_size_ == replacer_size_] never returns: [RecordAccess] holds
    [latch_] when it calls [Evict], which locks [latch_] again. *)
Lemma first_access_when_full_relocks num_frames k cs s f :
  1 ≤ k → Z.of_nat (length cs) + 1 < 2 ^ 64 →
  run cs (LRUKReplacer_new num_frames k) = Some s →
  f ≤ static_cast_frame_id num_frames → record_cnt s f = 0 →
  Size s = num_frames →
  RecordAccess f s = Undefined.
Proof.
  intros Hk Hn Hrun Hf Hc Hsz.
  pose proof (history_Inv num_frames k Hk cs s ltac:(lia) Hrun) as HI.
  destruct (RecordAccess_cases num_frames k Hk _ s f HI Hn)
    as [[Hgt _]|[(_ & _ & _ & Heq)|(_ & Hne & _)]]; [lia|done|].
  by destruct (Hne Hc).
Qed.

(** C2, as stated: with capacity 1 the frame id 1 is at least the
    capacity, but the checks are written [frame_id > capacity]:
    [RecordAccess(1)] admits frame 1 and [Remove(1)] returns normally. *)
Lemma C2_counterexample :
  match RecordAccess 1 (LRUKReplacer_new 1 1) with
  | Ok _ s' =>
      record_cnt s' 1 = 1 ∧ hist s' 1 = [1] ∧ evictable s' 1 = true
      ∧ Size s' = 1 ∧ k_frames_ s' = [(1, 1)]
  | _ => False
  end
  ∧ Remove 1 (LRUKReplacer_new 1 1) = Ok tt (LRUKReplacer_new 1 1)
  ∧ ¬ (∀ f, replacer_size_ (LRUKReplacer_new 1 1) ≤ f →
         RecordAccess f (LRUKReplacer_new 1 1)
         = Throw InvalidFrame (LRUKReplacer_new 1 1)
         ∧ Remove f (LRUKReplacer_new 1 1)
           = Throw InvalidFrame (LRUKReplacer_new 1 1)).
Proof.
  split; [by vm_compute|]. split; [by vm_compute|].
  intros H. destruct (H 1) as [H1 _]; [by vm_compute|].
  vm_compute in H1. discriminate H1.
Qed.

(** C2, amended.  After every history of completed calls, a frame id above
    [static_cast<frame_id_t>(replacer_size_)] (which is the capacity itself
    when the capacity is below 2^31) is rejected by [RecordAccess] and by
    [Remove] with InvalidFrame before anything is written; a frame id that
    is not above it, the capacity itself included, passes the range check:
    [RecordAccess] throws nothing and [Remove] does not throw
    InvalidFrame. *)
Theorem C2_range_check_amended num_frames k cs s f :
  1 ≤ k → Z.of_nat (length cs) + 1 < 2 ^ 64 →
  run cs (LRUKReplacer_new num_frames k) = Some s →
  (static_cast_frame_id num_frames < f →
     RecordAccess f s = Throw InvalidFrame s
     ∧ Remove f s = Throw InvalidFrame s)
  ∧ (f ≤ static_cast_frame_id num_frames →
       (∀ e s', RecordAccess f s ≠ Throw e s')
       ∧ (∀ s', Remove f s ≠ Throw InvalidFrame s'))
  ∧ (0 ≤ num_frames < 2 ^ 31 → static_cast_frame_id num_frames = num_frames).
Proof.
  intros Hk Hn Hrun.
  pose proof (history_Inv num_frames k Hk cs s ltac:(lia) Hrun) as HI.
  split; [|split].
  - intros Hf. split.
    + destruct (RecordAccess_cases num_frames k Hk _ s f HI Hn)
        as [[_ Heq]|[(? & _)|(? & _)]]; [done|lia|lia].
    + destruct (Remove_cases num_frames k Hk _ s f HI ltac:(lia))
        as [[_ Heq]|[(? & _)|[(? & _)|(? & _)]]]; [done|lia|lia|lia].
  - intros Hf. split.
    + intros e s'.
      destruct (RecordAccess_cases num_frames k Hk _ s f HI Hn)
        as [[? _]|[(_ & _ & _ & ->)|(_ & _ & s1 & -> & _)]]; [lia|done|done].
    + intros s'.
      destruct (Remove_cases num_frames k Hk _ s f HI ltac:(lia))
        as [[? _]|[(_ & _ & ->)|[(_ & _ & _ & ->)|(_ & _ & _ & s1 & -> & _)]]];
        [lia|done|done|done].
  - intros Hc. apply static_cast_frame_id_small. lia.
Qed.

(** C7. The specification asks the first access of a frame, made while
    [Size()] equals the capacity, to evict a victim and then admit the frame.  With
    capacity 1, after [RecordAccess(1)] (or [RecordAccess(-1)]) the replacer
    is full and frame 0 has no access; [RecordAccess(0)] then calls [Evict]
    while holding the latch and has undefined behaviour. *)
Theorem C7_first_access_when_full_is_undefined :
  match run [CallRecordAccess 1] (LRUKReplacer_new 1 2) with
  | Some s =>
      Size s = replacer_size_ s ∧ record_cnt s 0 = 0
      ∧ RecordAccess 0 s = Undefined
  | None => False
  end
  ∧ match run [CallRecordAccess (-1)] (LRUKReplacer_new 1 2) with
    | Some s =>
        Size s = replacer_size_ s ∧ record_cnt s 0 = 0
        ∧ RecordAccess 0 s = Undefined
    | None => False
    end.
Proof. vm_compute. repeat split. Qed.

(** C8, as stated: with capacity 1, [RecordAccess(5)] does not succeed. *)
Lemma C8_counterexample :
  ¬ ∃ s', RecordAccess 5 (LRUKReplacer_new 1 1) = Ok tt s'.
Proof. intros [s' H]. vm_compute in H. discriminate H. Qed.

(** C8, amended.  With K = 1 and a capacity whose value as [frame_id_t] is
    below 5, as it is for the capacity 1 of the scenario, [RecordAccess(5)]
    fails with InvalidFrame and leaves the replacer as constructed,
    [SetEvictable(5, false)] then does nothing and [Evict()] reports no
    victim.  With K = 1 and a capacity whose value as [frame_id_t] is at
    least 5, as it is for every capacity from 5 to 2^31 - 1,
    [RecordAccess(5)] succeeds, [SetEvictable(5, false)] pins frame 5 and
    [Evict()] reports no victim. *)
Theorem C8_scenario_B_amended num_frames :
  (static_cast_frame_id num_frames < 5 →
     RecordAccess 5 (LRUKReplacer_new num_frames 1)
     = Throw InvalidFrame (LRUKReplacer_new num_frames 1)
     ∧ SetEvictable 5 false (LRUKReplacer_new num_frames 1)
       = Ok tt (LRUKReplacer_new num_frames 1)
     ∧ Evict (LRUKReplacer_new num_frames 1)
       = Ok None (LRUKReplacer_new num_frames 1))
  ∧ (5 ≤ static_cast_frame_id num_frames →
       ∃ s1 s2,
         RecordAccess 5 (LRUKReplacer_new num_frames 1) = Ok tt s1
         ∧ record_cnt s1 5 = 1 ∧ evictable s1 5 = true ∧ Size s1 = 1
         ∧ SetEvictable 5 false s1 = Ok tt s2
         ∧ record_cnt s2 5 = 1 ∧ evictable s2 5 = false ∧ Size s2 = 0
         ∧ Evict s2 = Ok None s2)
  ∧ static_cast_frame_id 1 < 5
  ∧ (5 ≤ num_frames < 2 ^ 31 → 5 ≤ static_cast_frame_id num_frames).
Proof.
  split; [|split; [|split]].
  - intros Hcap. unfold LRUKReplacer_new. split; [|split].
    + apply RecordAccess_throw. apply Zgtb_true. lia.
    + by rewrite SetEvictable_run.
    + rewrite Evict_run; [done|]. intros x Hx. by apply elem_of_nil in Hx.
  - intros Hcap.
    assert (num_frames ≠ 0) as Hne.
    { intros ->. vm_compute in Hcap. by apply Hcap. }
    exists (mkReplacer num_frames 1 num_frames 1 1 {[5 := [1]]} {[5 := 1]}
              {[5 := true]} [] ∅ [(5, 1)] {[5]} false),
           (mkReplacer num_frames 1 (size_t_wrap (num_frames - 1)) 1 0
              {[5 := [1]]} {[5 := 1]} {[5 := false]} [] ∅ [(5, 1)] {[5]} false).
    split.
    { unfold LRUKReplacer_new.
      rewrite (RecordAccess_admit_warm _ _ _ _ _ _ _ _ _ _ _ _ _ 1).
      - by vm_compute.
      - apply Zgtb_false. lia.
      - by vm_compute.
      - lia.
      - done.
      - by vm_compute. }
    split; [by vm_compute|]. split; [by vm_compute|]. split; [done|].
    split.
    { rewrite SetEvictable_run. unfold record_cnt, evictable; simpl.
      rewrite !lookup_singleton_eq. simpl. reflexivity. }
    unfold record_cnt, evictable; simpl. rewrite !lookup_singleton_eq. simpl.
    split; [done|]. split; [done|]. split; [done|].
    rewrite Evict_run; [done|]. intros x Hx. by apply elem_of_nil in Hx.
  - by vm_compute.
  - intros Hc. rewrite static_cast_frame_id_small; lia.
Qed.

(** ** The theorems at a concrete history *)

Lemma C1_witness :
  ∃ r s',
    Evict replacer_A = Ok r s'
    ∧ match r with
      | Some frame =>
          (cold_victim replacer_A frame s' ∨ warm_victim replacer_A frame s')
          ∧ forgotten frame replacer_A s'
      | None =>
          s' = replacer_A
          ∧ (∀ x, x ∈ new_frames_ replacer_A → evictable replacer_A x = false)
          ∧ (∀ x, x ∈ (k_frames_ replacer_A).*1 →
                  evictable replacer_A x = false)
      end.
Proof.
  apply (C1_evict_search_order 3 2 ltac:(lia) history_A).
  - vm_compute. reflexivity.
  - vm_compute. reflexivity.
Defined.

Lemma C3_witness :
  (1 ≤ record_cnt replacer_A 1 < 2 →
     1 ∈ new_frames_ replacer_A ∧ (1 ∉ (k_frames_ replacer_A).*1))
  ∧ (2 ≤ record_cnt replacer_A 1 →
       1 ∈ (k_frames_ replacer_A).*1 ∧ (1 ∉ new_frames_ replacer_A))
  ∧ (record_cnt replacer_A 1 = 0 →
       (1 ∉ new_frames_ replacer_A) ∧ (1 ∉ (k_frames_ replacer_A).*1)).
Proof.
  apply (C3_index_membership 3 2 ltac:(lia) history_A).
  - vm_compute. reflexivity.
  - vm_compute. reflexivity.
Defined.

Lemma C4_witness : Size replacer_A = Z.of_nat (size (evictable_tracked replacer_A)).
Proof.
  apply (C4_size_counts_evictable 3 2 ltac:(lia) history_A).
  - vm_compute. reflexivity.
  - vm_compute. reflexivity.
Defined.

Lemma C6_witness :
  (record_cnt replacer_A 1 = 0 → Remove 1 replacer_A = Ok tt replacer_A)
  ∧ (record_cnt replacer_A 1 ≠ 0 → evictable replacer_A 1 = false →
       Remove 1 replacer_A = Throw IllegalRemoval replacer_A)
  ∧ (record_cnt replacer_A 1 ≠ 0 → evictable replacer_A 1 = true →
       ∃ s', Remove 1 replacer_A = Ok tt s'
             ∧ forgotten 1 replacer_A s'
             ∧ new_frames_ s' = list_erase 1 (new_frames_ replacer_A)
             ∧ k_frames_ s' = k_list_erase 1 (k_frames_ replacer_A)).
Proof.
  apply (C6_remove 3 2 ltac:(lia) history_A).
  - vm_compute. reflexivity.
  - vm_compute. reflexivity.
  - vm_compute. reflexivity.
  - lia.
Defined.

Lemma C9_witness :
  (record_cnt replacer_A 1 = 0 →
     SetEvictable 1 false replacer_A = Ok tt replacer_A)
  ∧ (record_cnt replacer_A 1 ≠ 0 →
       ∃ s', SetEvictable 1 false replacer_A = Ok tt s'
         ∧ evictable s' 1 = false
         ∧ (∀ g, g ≠ 1 → evictable s' g = evictable replacer_A g)
         ∧ (evictable replacer_A 1 = false → Size s' = Size replacer_A)
         ∧ (evictable replacer_A 1 = false → false = true →
              Size s' = Size replacer_A + 1)
         ∧ (evictable replacer_A 1 = true → false = false →
              Size s' = Size replacer_A - 1)
         ∧ hist_ s' = hist_ replacer_A
         ∧ record_cnt_ s' = record_cnt_ replacer_A
         ∧ new_frames_ s' = new_frames_ replacer_A
         ∧ new_pos_ s' = new_pos_ replacer_A
         ∧ k_frames_ s' = k_frames_ replacer_A
         ∧ k_pos_ s' = k_pos_ replacer_A
         ∧ current_timestamp_ s' = current_timestamp_ replacer_A
         ∧ replacer_size_ s' = replacer_size_ replacer_A
         ∧ k_ s' = k_ replacer_A
         ∧ ∃ s'', SetEvictable 1 false s' = Ok tt s'' ∧ Size s'' = Size s').
Proof.
  apply (C9_set_evictable 3 2 ltac:(lia) history_A).
  - vm_compute. reflexivity.
  - vm_compute. reflexivity.
Defined.

Lemma C10_witness :
  (0 < Size replacer_A →
     ∃ frame s', Evict replacer_A = Ok (Some frame) s'
       ∧ frame ∈ evictable_tracked replacer_A
       ∧ (cold_victim replacer_A frame s' ∨ warm_victim replacer_A frame s')
       ∧ forgotten frame replacer_A s')
  ∧ (∀ s', Evict replacer_A = Ok None s' → Size replacer_A = 0)
  ∧ (Size replacer_A = 0 → Evict replacer_A = Ok None replacer_A)
  ∧ 0 ≤ Size replacer_A.
Proof.
  apply (C10_evict_finds_victim 3 2 ltac:(lia) history_A).
  - vm_compute. reflexivity.
  - vm_compute. reflexivity.
Defined.

Lemma C8_witness :
  (RecordAccess 5 (LRUKReplacer_new 1 1)
   = Throw InvalidFrame (LRUKReplacer_new 1 1)
   ∧ SetEvictable 5 false (LRUKReplacer_new 1 1) = Ok tt (LRUKReplacer_new 1 1)
   ∧ Evict (LRUKReplacer_new 1 1) = Ok None (LRUKReplacer_new 1 1))
  ∧ ∃ s1 s2,
      RecordAccess 5 (LRUKReplacer_new 6 1) = Ok tt s1
      ∧ record_cnt s1 5 = 1 ∧ evictable s1 5 = true ∧ Size s1 = 1
      ∧ SetEvictable 5 false s1 = Ok tt s2
      ∧ record_cnt s2 5 = 1 ∧ evictable s2 5 = false ∧ Size s2 = 0
      ∧ Evict s2 = Ok None s2.
Proof.
  split.
  - apply (C8_scenario_B_amended 1). by vm_compute.
  - apply (C8_scenario_B_amended 6). by vm_compute.
Defined.

Lemma C2_witness :
  (static_cast_frame_id 3 < 7 →
     RecordAccess 7 replacer_A = Throw InvalidFrame replacer_A
     ∧ Remove 7 replacer_A = Throw InvalidFrame replacer_A)
  ∧ (7 ≤ static_cast_frame_id 3 →
       (∀ e s', RecordAccess 7 replacer_A ≠ Throw e s')
       ∧ (∀ s', Remove 7 replacer_A ≠ Throw InvalidFrame s'))
  ∧ (0 ≤ 3 < 2 ^ 31 → static_cast_frame_id 3 = 3).
Proof.
  apply (C2_range_check_amended 3 2 history_A).
  - lia.
  - vm_compute. reflexivity.
  - vm_compute. reflexivity.
Defined.

(** * Further properties of the replacer *)

(** ** The effect of a [RecordAccess] that returns *)

Ltac zcond :=
  repeat match goal with
         | |- context [?a <? ?b] => destruct (Z.ltb_spec a b); try lia
         | |- context [?a =? ?b] => destruct (Z.eqb_spec a b); try lia
         end.

Section effects.
Variables (num_frames k : Z).
Hypothesis Hk : 1 ≤ k.

(** The clock advances by one, the counter of the frame by one, the
    timestamp is appended to the history of the frame (whose oldest entry is
    dropped once the frame had [k] accesses), a new frame is flagged
    evictable and counted, and the frame enters the cold list on its first
    access and leaves it with its [k]-th. *)
Lemma RecordAccess_effect n s f s' :
  Inv num_frames k n s → n + 1 < 2 ^ 64 →
  RecordAccess f s = Ok tt s' →
  current_timestamp_ s' = current_timestamp_ s + 1
  ∧ record_cnt_ s' = <[f := record_cnt s f + 1]> (record_cnt_ s)
  ∧ hist_ s'
    = <[f := if record_cnt s f <? k
             then hist s f ++ [current_timestamp_ s + 1]
             else tail (hist s f ++ [current_timestamp_ s + 1])]> (hist_ s)
  ∧ evictable_ s'
    = (if record_cnt s f =? 0 then <[f := true]> (evictable_ s)
       else evictable_ s)
  ∧ curr_size_ s'
    = (if record_cnt s f =? 0 then curr_size_ s + 1 else curr_size_ s)
  ∧ new_frames_ s'
    = (if record_cnt s f + 1 <? k
       then (if record_cnt s f =? 0 then f :: new_frames_ s
             else new_frames_ s)
       else list_erase f (new_frames_ s)).
Proof.
  intros HI Hn Hra. destruct s as [cap kk mx ts sz h c e nf np kf kp l].
  pose proof (Inv_size_bounds _ _ _ _ HI) as Hszb.
  destruct HI as [Hrs Hkk Hl Hnd Hknd Hnp Hkp Hcold Hwarm Hcnt _ _ Hhl _ _
                  Hclk _ _].
  unfold record_cnt, hist in *. simpl in *. subst cap kk l.
  destruct (f >? static_cast_frame_id num_frames) eqn:Hg.
  { by rewrite RecordAccess_throw in Hra. }
  pose proof (Hcnt f) as Hcf. pose proof (Hhl f) as Hhf.
  assert (size_t_wrap (default 0 (c !! f) + 1) = default 0 (c !! f) + 1)
    as Hw by (apply size_t_wrap_small; lia).
  assert (size_t_wrap (ts + 1) = ts + 1) as Hwts
    by (apply size_t_wrap_small; lia).
  assert (size_t_wrap (sz + 1) = sz + 1) as Hwsz
    by (apply size_t_wrap_small; lia).
  destruct (decide (default 0 (c !! f) = 0)) as [Hc0|Hc0].
  - destruct (decide (sz = num_frames)) as [Hsz|Hsz].
    { rewrite RecordAccess_relock in Hra; [done|done| |done]. rewrite Hw. lia. }
    assert (default [] (h !! f) = []) as Hh0.
    { destruct (default [] (h !! f)); [done|]. simpl in Hhf. lia. }
    assert (f ∉ nf) as Hfn by (intros Hin; apply Hcold in Hin; lia).
    destruct (decide (k = 1)) as [Hk1|Hk1].
    + rewrite (RecordAccess_admit_warm _ _ _ _ _ _ _ _ _ _ _ _ _
                 (size_t_wrap (ts + 1))) in Hra; try done.
      2: { rewrite Hw. lia. }
      2: { by rewrite Hh0. }
      injection Hra as <-. simpl. rewrite Hwts, Hw, Hwsz, Hc0.
      rewrite list_erase_not_elem by done.
      repeat split; zcond; try done. simpl. by case_decide.
    + rewrite RecordAccess_admit_cold in Hra; try done.
      2: { rewrite Hw. lia. }
      2: { lia. }
      injection Hra as <-. simpl. rewrite Hwts, Hw, Hwsz, Hc0.
      repeat split; zcond; done.
  - destruct (decide (default 0 (c !! f) + 1 < k)) as [Hlt|Hge].
    { rewrite RecordAccess_touch in Hra; try done; try (rewrite Hw; lia).
      injection Hra as <-. simpl. rewrite Hwts, Hw.
      repeat split; zcond; done. }
    destruct (default [] (h !! f)) as [|t0 h0] eqn:Hh0;
      [simpl in Hhf; lia|].
    destruct (decide (default 0 (c !! f) + 1 = k)) as [Heq|Hne].
    + assert (f ∈ nf) as Hfn by (apply Hcold; lia).
      rewrite (RecordAccess_promote _ _ _ _ _ _ _ _ _ _ _ _ _ t0) in Hra;
        try done; try (rewrite Hw; lia).
      2: { by apply Hnp. }
      2: { by rewrite Hh0. }
      injection Hra as <-. simpl. rewrite Hwts, Hw, Hh0.
      repeat split; zcond; done.
    + assert (f ∈ kf.*1) as Hfk by (apply Hwarm; lia).
      assert (f ∉ nf) as Hfn by (intros Hin; apply Hcold in Hin; lia).
      destruct (h0 ++ [size_t_wrap (ts + 1)]) as [|t1 h1] eqn:Hh1.
      { by destruct h0. }
      rewrite (RecordAccess_reposition _ _ _ _ _ _ _ _ _ _ _ _ _ t0
                 (t1 :: h1) t1) in Hra; try done; try (rewrite Hw; lia).
      2: { by apply Hkp. }
      2: { rewrite Hh0. simpl. by rewrite Hh1. }
      injection Hra as <-. simpl. rewrite insert_insert_eq.
      rewrite Hwts in Hh1. rewrite Hwts, Hw, Hh1.
      rewrite list_erase_not_elem by done.
      repeat split; zcond; done.
Qed.
End effects.

(** ** Invariants along a history *)

Section along_histories.
Variables (num_frames k : Z).
Hypothesis Hk : 1 ≤ k.

(** A property of the object that every completed call of a kind [Q]
    preserves on objects satisfying [Inv] holds after every history of such
    calls. *)
Lemma run_preserves (P : LRUKReplacer → Prop) (Q : call → Prop) :
  (∀ n s c, Inv num_frames k n s → P s → Q c → n + 1 < 2 ^ 64 →
     match perform c s with
     | Ok _ s' => P s'
     | Throw _ s' => P s'
     | Undefined => True
     end) →
  ∀ cs n s s',
    Inv num_frames k n s → P s → Forall Q cs →
    n + Z.of_nat (length cs) < 2 ^ 64 →
    run cs s = Some s' → P s'.
Proof.
  intros Hstep. induction cs as [|c cs IH]; intros n s s' HI HP HQ Hn Hrun;
    simpl in *.
  - by injection Hrun as <-.
  - apply Forall_cons in HQ as [Hc HQ].
    pose proof (perform_Inv num_frames k Hk n s c HI ltac:(lia)) as HI'.
    pose proof (Hstep n s c HI HP Hc ltac:(lia)) as HP'.
    destruct (perform c s) as [a s1|e s1|]; [| |done].
    + apply (IH (n + 1) s1); try done. lia.
    + subst s1. apply (IH (n + 1) s); try done; [|lia].
      eapply Inv_mono; [done|lia].
Qed.

Lemma history_preserves (P : LRUKReplacer → Prop) (Q : call → Prop) :
  P (LRUKReplacer_new num_frames k) →
  (∀ n s c, Inv num_frames k n s → P s → Q c → n + 1 < 2 ^ 64 →
     match perform c s with
     | Ok _ s' => P s'
     | Throw _ s' => P s'
     | Undefined => True
     end) →
  ∀ cs s,
    Forall Q cs → Z.of_nat (length cs) < 2 ^ 64 →
    run cs (LRUKReplacer_new num_frames k) = Some s → P s.
Proof.
  intros Hnew Hstep cs s HQ Hn Hrun.
  by apply (run_preserves P Q Hstep cs 0 _ s (Inv_new num_frames k Hk)).
Qed.
End along_histories.

(** ** The object agrees with the log of the accesses *)

Lemma most_recent_snoc (k : Z) (l : list Z) (t : Z) :
  most_recent k (l ++ [t])
  = if Z.of_nat (length l) <? k then most_recent k l ++ [t]
    else tail (most_recent k l ++ [t]).
Proof.
  unfold most_recent. rewrite length_app. simpl.
  destruct (Z.ltb_spec (Z.of_nat (length l)) k) as [Hlt|Hge].
  - replace (length l + 1 - Z.to_nat k)%nat with 0%nat by lia.
    by replace (length l - Z.to_nat k)%nat with 0%nat by lia.
  - replace (length l + 1 - Z.to_nat k)%nat
      with (S (length l - Z.to_nat k)) by lia.
    rewrite <- (drop_app_le l [t]) by lia.
    generalize (length l - Z.to_nat k)%nat. intros n.
    replace (S n) with (n + 1)%nat by lia. rewrite <- drop_drop.
    by destruct (drop n (l ++ [t])).
Qed.

Lemma kth_most_recent_head (k : Z) (l : list Z) :
  1 ≤ k ≤ Z.of_nat (length l) →
  kth_most_recent k l = head (most_recent k l).
Proof.
  intros Hk. unfold kth_most_recent, most_recent.
  rewrite reverse_lookup by lia.
  rewrite head_lookup, lookup_drop. f_equal. lia.
Qed.

Lemma log_frame_insert L f l g n :
  log_frame (mkLog n (<[f := l]> (log_of L))) g
  = if decide (g = f) then l else log_frame L g.
Proof.
  unfold log_frame. simpl. case_decide as Hd.
  - subst. by rewrite lookup_insert_eq.
  - by rewrite lookup_insert_ne.
Qed.

Lemma log_frame_delete L f g n :
  log_frame (mkLog n (delete f (log_of L))) g
  = if decide (g = f) then [] else log_frame L g.
Proof.
  unfold log_frame. simpl. case_decide as Hd.
  - subst. by rewrite lookup_delete_eq.
  - by rewrite lookup_delete_ne.
Qed.

Section access_logs.
Variables (num_frames k : Z).
Hypothesis Hk : 1 ≤ k.

Lemma LogInv_new : LogInv k (LRUKReplacer_new num_frames k) (mkLog 0 ∅).
Proof.
  split; [done| |]; intros f; unfold record_cnt, hist, log_frame; simpl;
    by rewrite !lookup_empty.
Qed.

Lemma LogInv_forget frame s s' L :
  LogInv k s L → forgotten frame s s' →
  LogInv k s' (mkLog (log_count L) (delete frame (log_of L))).
Proof.
  intros [Hc Hn Hh] (Hh' & Hc' & _ & _ & _ & Hoth & _ & Hclk & _).
  split; simpl.
  - congruence.
  - intros f. rewrite log_frame_delete. case_decide as Hd; [by subst|].
    destruct (Hoth f Hd) as [_ ->]. apply Hn.
  - intros f. rewrite log_frame_delete. case_decide as Hd; [by subst|].
    destruct (Hoth f Hd) as [-> _]. apply Hh.
Qed.

Lemma LogInv_forget_untracked frame s L :
  LogInv k s L → record_cnt s frame = 0 →
  LogInv k s (mkLog (log_count L) (delete frame (log_of L))).
Proof.
  intros [Hc Hn Hh] H0.
  assert (log_frame L frame = []) as Hnil.
  { specialize (Hn frame). rewrite H0 in Hn.
    destruct (log_frame L frame); [done|simpl in Hn; lia]. }
  split; simpl; [done| |]; intros f; rewrite log_frame_delete;
    case_decide as Hd; subst; rewrite <- ?Hnil; done.
Qed.

Lemma log_call_LogInv n s c L :
  Inv num_frames k n s → LogInv k s L → n + 1 < 2 ^ 64 →
  match perform c s with
  | Ok _ s' => LogInv k s' (log_call c s L)
  | Throw _ s' => LogInv k s' (log_call c s L)
  | Undefined => True
  end.
Proof.
  intros HI HL Hn. destruct c as [f| |f v|f]; simpl.
  - destruct (RecordAccess f s) as [[] s'|e s'|] eqn:Hra; [| |done].
    + destruct (RecordAccess_effect num_frames k Hk n s f s' HI Hn Hra)
        as (Hclk & Hcnt & Hhist & _).
      destruct HL as [Hc Hl Hh]. split; simpl.
      * lia.
      * intros g. rewrite log_frame_insert. unfold record_cnt.
        rewrite Hcnt. case_decide as Hd.
        -- subst. rewrite lookup_insert_eq, length_app. simpl.
           rewrite (Hl f). lia.
        -- rewrite lookup_insert_ne by done. apply Hl.
      * intros g. rewrite log_frame_insert. unfold hist.
        rewrite Hhist. case_decide as Hd.
        -- subst. rewrite lookup_insert_eq. simpl.
           rewrite most_recent_snoc, <- (Hl f), <- (Hh f), Hc. done.
        -- rewrite lookup_insert_ne by done. apply Hh.
    + pose proof (perform_Inv num_frames k Hk n s (CallRecordAccess f) HI Hn)
        as Hs. simpl in Hs. rewrite Hra in Hs. by subst.
  - unfold mbind, M_bind.
    destruct (Evict_cases num_frames k Hk n s HI ltac:(lia))
      as [(f & l1 & l2 & s' & _ & _ & _ & -> & _ & _ & _ & Hf)
         |[(f & t & l1 & l2 & s' & _ & _ & _ & _ & -> & _ & _ & _ & Hf)
          |(_ & _ & _ & ->)]]; simpl; [| |done].
    + by eapply LogInv_forget.
    + by eapply LogInv_forget.
  - destruct (SetEvictable_cases num_frames k n s f v HI ltac:(lia))
      as [[_ ->]|(_ & mx' & sz' & -> & _ & _)]; [done|].
    by destruct HL.
  - destruct (Remove_cases num_frames k Hk n s f HI ltac:(lia))
      as [[_ ->]|[(_ & H0 & ->)|[(_ & _ & _ & ->)
         |(_ & _ & _ & s' & -> & _ & _ & _ & Hf)]]]; try done.
    + by apply LogInv_forget_untracked.
    + by eapply LogInv_forget.
Qed.

Lemma run_LogInv cs : ∀ n s L s',
  Inv num_frames k n s → LogInv k s L →
  n + Z.of_nat (length cs) < 2 ^ 64 →
  run cs s = Some s' → LogInv k s' (run_log cs s L).
Proof.
  induction cs as [|c cs IH]; intros n s L s' HI HL Hn Hrun; simpl in *.
  - by injection Hrun as <-.
  - pose proof (perform_Inv num_frames k Hk n s c HI ltac:(lia)) as HI'.
    pose proof (log_call_LogInv n s c L HI HL ltac:(lia)) as HL'.
    destruct (perform c s) as [a s1|e s1|]; [| |done].
    + apply (IH (n + 1) s1); try done. lia.
    + subst s1. apply (IH (n + 1) s); try done; [|lia].
      eapply Inv_mono; [done|lia].
Qed.

Lemma history_LogInv cs s :
  Z.of_nat (length cs) < 2 ^ 64 →
  run cs (LRUKReplacer_new num_frames k) = Some s →
  LogInv k s (run_log cs (LRUKReplacer_new num_frames k) (mkLog 0 ∅)).
Proof.
  intros Hn Hrun.
  by apply (run_LogInv cs 0 _ _ s (Inv_new num_frames k Hk) LogInv_new).
Qed.

(** The history of a frame holds its [k] most recent accesses, and the
    oldest timestamp kept for a frame with [k] accesses or more is its
    [k]-th most recent access. *)
Lemma history_accesses cs s f :
  Z.of_nat (length cs) < 2 ^ 64 →
  run cs (LRUKReplacer_new num_frames k) = Some s →
  record_cnt s f = Z.of_nat (length (accesses num_frames k cs f))
  ∧ hist s f = most_recent k (accesses num_frames k cs f)
  ∧ (k ≤ record_cnt s f →
       kth_most_recent k (accesses num_frames k cs f) = head (hist s f)).
Proof.
  intros Hn Hrun. destruct (history_LogInv cs s Hn Hrun) as [_ Hc Hh].
  unfold accesses. split; [apply Hc|]. split; [apply Hh|].
  intros Hk'. rewrite Hh. apply kth_most_recent_head.
  rewrite <- (Hc f). lia.
Qed.

Lemma run_snoc cs c : ∀ s s' s'',
  run cs s = Some s' → perform c s' = Ok tt s'' →
  run (cs ++ [c]) s = Some s''.
Proof.
  induction cs as [|c' cs IH]; intros s s' s'' Hrun Hc; simpl in *.
  - injection Hrun as <-. by rewrite Hc.
  - destruct (perform c' s) as [a s1|e s1|]; [| |done]; by eapply IH.
Qed.

End access_logs.

(** ** The warm index and the accesses *)

Section warm_index.
Variables (num_frames k : Z).
Hypothesis Hk : 1 ≤ k.

(** C5. After every completed operation the warm index is sorted
    ascending by timestamp.  The timestamp of the pair of a frame is the
    K-th most recent access of the frame, the accesses being the
    [RecordAccess] calls that returned, numbered in the order in which they
    were made; it is the oldest of the K timestamps kept for the frame,
    which are its K most recent accesses in ascending order.  A
    [RecordAccess] that inserts or repositions a pair gives it the K-th most
    recent access of its frame, that access included, and puts it behind
    every pair whose timestamp is not larger and in front of every pair
    whose timestamp is larger, leaving the other pairs in their order. *)
Theorem C5_warm_index_sorted_stable cs s :
  Z.of_nat (length cs) + 1 < 2 ^ 64 →
  run cs (LRUKReplacer_new num_frames k) = Some s →
  k_sorted (k_frames_ s)
  ∧ (∀ f t, (f, t) ∈ k_frames_ s →
       kth_most_recent k (accesses num_frames k cs f) = Some t
       ∧ hist s f = most_recent k (accesses num_frames k cs f)
       ∧ head (hist s f) = Some t ∧ Z.of_nat (length (hist s f)) = k
       ∧ StronglySorted Z.lt (hist s f))
  ∧ (∀ f s', RecordAccess f s = Ok tt s' → k ≤ record_cnt s' f →
       ∃ t l1 l2,
         k_list_erase f (k_frames_ s) = l1 ++ l2
         ∧ k_frames_ s' = l1 ++ (f, t) :: l2
         ∧ head (hist s' f) = Some t
         ∧ kth_most_recent k
             (accesses num_frames k (cs ++ [CallRecordAccess f]) f) = Some t
         ∧ Forall (λ y, y.2 ≤ t) l1 ∧ Forall (λ y, t < y.2) l2).
Proof.
  intros Hn Hrun.
  pose proof (history_Inv num_frames k Hk cs s ltac:(lia) Hrun) as HI.
  split; [apply (inv_sorted _ _ _ _ HI)|]. split.
  - intros f t Hin.
    assert (k ≤ record_cnt s f) as Hc.
    { apply (inv_warm _ _ _ _ HI), list_elem_of_fmap. by exists (f, t). }
    destruct (history_accesses num_frames k Hk cs s f ltac:(lia) Hrun)
      as (_ & Hh & Hkth).
    pose proof (inv_key _ _ _ _ HI f t Hin) as Hhd.
    split; [by rewrite Hkth|]. split; [done|]. split; [done|].
    split; [|apply (inv_hist_sorted _ _ _ _ HI)].
    rewrite (inv_hist_len _ _ _ _ HI). lia.
  - intros f s' Hra Hc.
    assert (run (cs ++ [CallRecordAccess f]) (LRUKReplacer_new num_frames k)
            = Some s') as Hrun'.
    { by apply (run_snoc cs (CallRecordAccess f) _ s s'). }
    destruct (history_accesses num_frames k Hk (cs ++ [CallRecordAccess f])
                s' f) as (_ & _ & Hkth); [|done|].
    { rewrite length_app. simpl. lia. }
    destruct (RecordAccess_cases num_frames k Hk _ s f HI Hn)
      as [[_ Heq]|[(_ & _ & _ & Heq)|(_ & _ & s'' & Heq & HI' & Hc' & Hkf)]];
      rewrite Heq in Hra; try done.
    injection Hra as <-.
    destruct Hkf as [[Hlt _]|(_ & t & Ht & Hkf)]; [lia|].
    destruct (upper_bound_insert_split (f, t) (k_list_erase f (k_frames_ s)))
      as (l1 & l2 & Hl & Hins & Hl1 & Hl2).
    exists t, l1, l2. rewrite Hkf, Hkth by done. repeat split; try done.
    apply (k_sorted_app_tail (f, t) l1); [|done].
    rewrite <-Hl. apply k_sorted_k_list_erase, (inv_sorted _ _ _ _ HI).
Qed.
End warm_index.

Lemma C5_witness :
  k_sorted (k_frames_ replacer_A)
  ∧ (∀ f t, (f, t) ∈ k_frames_ replacer_A →
       kth_most_recent 2 (accesses 3 2 history_A f) = Some t
       ∧ hist replacer_A f = most_recent 2 (accesses 3 2 history_A f)
       ∧ head (hist replacer_A f) = Some t
       ∧ Z.of_nat (length (hist replacer_A f)) = 2
       ∧ StronglySorted Z.lt (hist replacer_A f))
  ∧ (∀ f s', RecordAccess f replacer_A = Ok tt s' → 2 ≤ record_cnt s' f →
       ∃ t l1 l2,
         k_list_erase f (k_frames_ replacer_A) = l1 ++ l2
         ∧ k_frames_ s' = l1 ++ (f, t) :: l2
         ∧ head (hist s' f) = Some t
         ∧ kth_most_recent 2
             (accesses 3 2 (history_A ++ [CallRecordAccess f]) f) = Some t
         ∧ Forall (λ y, y.2 ≤ t) l1 ∧ Forall (λ y, t < y.2) l2).
Proof.
  apply (C5_warm_index_sorted_stable 3 2 ltac:(lia) history_A).
  - vm_compute. reflexivity.
  - vm_compute. reflexivity.
Defined.

(** ** Timestamps are unique and the cold list is ordered by first access *)

Lemma StronglySorted_list_erase (R : relation Z) (frame : Z) (l : list Z) :
  StronglySorted R l → StronglySorted R (list_erase frame l).
Proof.
  induction l as [|x l IH]; simpl; intros Hs; [done|].
  apply StronglySorted_inv in Hs as [Hs Hx]. case_decide; [done|].
  constructor; [by apply IH|].
  apply Forall_forall. intros y Hy. apply list_erase_subseteq in Hy.
  by eapply Forall_forall in Hx.
Qed.

Lemma StronglySorted_ext_elems {A} (R R' : relation A) (l : list A) :
  StronglySorted R l → (∀ x y, x ∈ l → y ∈ l → R x y → R' x y) →
  StronglySorted R' l.
Proof.
  induction l as [|x l IH]; intros Hs Hext; [constructor|].
  apply StronglySorted_inv in Hs as [Hs Hx]. constructor.
  - apply IH; [done|]. intros y z Hy Hz. apply Hext; apply elem_of_cons; by right.
  - apply Forall_forall. intros y Hy. apply Hext.
    + apply elem_of_cons. by left.
    + apply elem_of_cons. by right.
    + by eapply Forall_forall in Hx.
Qed.

Section time.
Variables (num_frames k : Z).
Hypothesis Hk : 1 ≤ k.

Lemma TimeInv_new : TimeInv (LRUKReplacer_new num_frames k).
Proof.
  constructor.
  - intros f g t. unfold hist. simpl. rewrite lookup_empty. simpl.
    intros Hf. by apply elem_of_nil in Hf.
  - constructor.
Qed.

(** A frame is forgotten by [Evict] or [Remove]. *)
Lemma TimeInv_forget n s s' v :
  Inv num_frames k n s → TimeInv s → forgotten v s s' →
  new_frames_ s' = list_erase v (new_frames_ s) → TimeInv s'.
Proof.
  intros HI [Hu Ho] (Hh & _ & _ & _ & _ & Hother & _) Hnf.
  assert (∀ g t, t ∈ hist s' g → t ∈ hist s g) as Hsub.
  { intros g t. destruct (decide (g = v)) as [->|Hne].
    - rewrite Hh. intros Ht. by apply elem_of_nil in Ht.
    - by rewrite (proj1 (Hother g Hne)). }
  constructor.
  - intros f g t Hf Hg. apply (Hu f g t); by apply Hsub.
  - rewrite Hnf.
    apply (StronglySorted_ext_elems
             (λ f g, oldest_kept s g < oldest_kept s f)).
    + by apply StronglySorted_list_erase.
    + intros x y Hx Hy.
      apply elem_of_list_erase in Hx as [_ Hx];
        [|apply (inv_new_nodup _ _ _ _ HI)].
      apply elem_of_list_erase in Hy as [_ Hy];
        [|apply (inv_new_nodup _ _ _ _ HI)].
      unfold oldest_kept.
      by rewrite (proj1 (Hother x Hx)), (proj1 (Hother y Hy)).
Qed.

(** An access is recorded. *)
Lemma TimeInv_record n s s' f :
  Inv num_frames k n s → TimeInv s → n + 1 < 2 ^ 64 →
  RecordAccess f s = Ok tt s' → TimeInv s'.
Proof.
  intros HI [Hu Ho] Hn Hra.
  destruct (RecordAccess_effect num_frames k Hk n s f s' HI Hn Hra)
    as (Hts & Hc & Hh & _ & _ & Hnf).
  pose proof (inv_hist_clock _ _ _ _ HI) as Hclk.
  pose proof (inv_hist_len _ _ _ _ HI) as Hlen.
  pose proof (inv_cold _ _ _ _ HI) as Hcold.
  pose proof (inv_cnt _ _ _ _ HI) as Hcnt.
  set (t1 := current_timestamp_ s + 1) in *.
  assert (∀ g, g ≠ f → hist s' g = hist s g) as Hother.
  { intros g Hg. unfold hist. by rewrite Hh, lookup_insert_ne. }
  assert (∀ t, t ∈ hist s' f → t ∈ hist s f ∨ t = t1) as Hnew.
  { intros t. unfold hist at 1. rewrite Hh, lookup_insert_eq. simpl.
    destruct (record_cnt s f <? k).
    - rewrite elem_of_app, list_elem_of_singleton. tauto.
    - destruct (hist s f) as [|t0 h0]; simpl.
      + intros Ht. by apply elem_of_nil in Ht.
      + rewrite elem_of_app, list_elem_of_singleton, elem_of_cons. tauto. }
  assert (∀ g, g ∈ new_frames_ s → oldest_kept s g < t1
                                   ∧ oldest_kept s g ∈ hist s g) as Hold.
  { intros g Hg. apply Hcold in Hg. specialize (Hlen g).
    unfold oldest_kept. destruct (hist s g) as [|t0 h0] eqn:Hhg; simpl in *.
    - lia.
    - assert (t0 ∈ hist s g) as Hin by (rewrite Hhg; apply elem_of_cons; by left).
      split; [|apply elem_of_cons; by left].
      apply Hclk in Hin. unfold t1. lia. }
  constructor.
  - intros a b t Ha Hb.
    destruct (decide (a = f)) as [->|Haf]; destruct (decide (b = f)) as [->|Hbf];
      try done.
    + rewrite (Hother b Hbf) in Hb. apply Hnew in Ha as [Ha| ->].
      * by apply (Hu f b t).
      * apply Hclk in Hb. unfold t1 in Hb. lia.
    + rewrite (Hother a Haf) in Ha. apply Hnew in Hb as [Hb| ->].
      * by apply (Hu a f t).
      * apply Hclk in Ha. unfold t1 in Ha. lia.
    + rewrite (Hother a Haf) in Ha. rewrite (Hother b Hbf) in Hb.
      by apply (Hu a b t).
  - assert (∀ g, g ≠ f → oldest_kept s' g = oldest_kept s g) as Hog.
    { intros g Hg. unfold oldest_kept. by rewrite Hother. }
    rewrite Hnf. destruct (record_cnt s f + 1 <? k) eqn:Hlt.
    + apply Z.ltb_lt in Hlt. destruct (record_cnt s f =? 0) eqn:Hc0.
      * apply Z.eqb_eq in Hc0.
        assert (f ∉ new_frames_ s) as Hfn.
        { intros Hin. apply Hcold in Hin. lia. }
        assert (oldest_kept s' f = t1) as Hof.
        { unfold oldest_kept, hist at 1. rewrite Hh, lookup_insert_eq. simpl.
          specialize (Hlen f). rewrite Hc0 in *.
          destruct (hist s f); [|simpl in Hlen; lia].
          by rewrite (proj2 (Z.ltb_lt 0 k)) by lia. }
        constructor.
        -- apply (StronglySorted_ext_elems
                    (λ f g, oldest_kept s g < oldest_kept s f)); [done|].
           intros x y Hx Hy. rewrite !Hog; [done| |]; intros ->; done.
        -- apply Forall_forall. intros g Hg. rewrite Hof, Hog.
           ++ by apply Hold.
           ++ intros ->. done.
      * apply Z.eqb_neq in Hc0.
        assert (oldest_kept s' f = oldest_kept s f) as Hof.
        { unfold oldest_kept, hist at 1. rewrite Hh, lookup_insert_eq. simpl.
          specialize (Hlen f). specialize (Hcnt f).
          rewrite (proj2 (Z.ltb_lt (record_cnt s f) k)) by lia.
          destruct (hist s f); [simpl in Hlen; lia|done]. }
        apply (StronglySorted_ext_elems
                 (λ f g, oldest_kept s g < oldest_kept s f)); [done|].
        intros x y Hx Hy.
        destruct (decide (x = f)) as [->|Hxf];
          destruct (decide (y = f)) as [->|Hyf];
          rewrite ?Hof, ?Hog by done; done.
    + apply (StronglySorted_ext_elems
               (λ f g, oldest_kept s g < oldest_kept s f)).
      * by apply StronglySorted_list_erase.
      * intros x y Hx Hy.
        apply elem_of_list_erase in Hx as [_ Hx];
          [|apply (inv_new_nodup _ _ _ _ HI)].
        apply elem_of_list_erase in Hy as [_ Hy];
          [|apply (inv_new_nodup _ _ _ _ HI)].
        by rewrite !Hog.
Qed.

Lemma perform_TimeInv n s c :
  Inv num_frames k n s → TimeInv s → True → n + 1 < 2 ^ 64 →
  match perform c s with
  | Ok _ s' => TimeInv s'
  | Throw _ s' => TimeInv s'
  | Undefined => True
  end.
Proof.
  intros HI HT _ Hn. destruct c as [f| |f v|f]; simpl.
  - destruct (RecordAccess_cases num_frames k Hk n s f HI Hn)
      as [[_ Heq]|[(_ & _ & _ & Heq)|(_ & _ & s' & Heq & _)]];
      rewrite Heq; try done.
    by eapply TimeInv_record.
  - unfold mbind, M_bind.
    destruct (Evict_cases num_frames k Hk n s HI ltac:(lia))
      as [(v & l1 & l2 & s' & Hnf & _ & _ & Heq & _ & Hnf' & _ & Hfg)
         |[(v & t & l1 & l2 & s' & _ & Hkf & _ & _ & Heq & _ & Hnf' & _ & Hfg)
          |(_ & _ & _ & Heq)]]; rewrite Heq; simpl; try done.
    + eapply TimeInv_forget; try done. rewrite Hnf', Hnf.
      rewrite list_erase_middle; [done|].
      pose proof (inv_new_nodup _ _ _ _ HI) as Hnd. rewrite Hnf in Hnd.
      apply NoDup_app in Hnd as (_ & Hd & _). intros Hin.
      apply (Hd _ Hin), elem_of_cons. by left.
    + eapply TimeInv_forget; try done. rewrite Hnf'.
      rewrite list_erase_not_elem; [done|].
      intros Hin. apply (inv_cold _ _ _ _ HI) in Hin.
      assert (v ∈ (k_frames_ s).*1) as Hw.
      { rewrite Hkf, fmap_app. apply elem_of_app. right. csimpl.
        apply elem_of_cons. by left. }
      apply (inv_warm _ _ _ _ HI) in Hw. lia.
  - destruct (SetEvictable_cases num_frames k n s f v HI ltac:(lia))
      as [[_ Heq]|(_ & mx' & sz' & Heq & _)]; rewrite Heq; [done|].
    destruct HT as [Hu Ho]. by constructor.
  - destruct (Remove_cases num_frames k Hk n s f HI ltac:(lia))
      as [[_ Heq]|[(_ & _ & Heq)|[(_ & _ & _ & Heq)
         |(_ & _ & _ & s' & Heq & _ & Hnf & _ & Hfg)]]]; rewrite Heq; try done.
    by eapply TimeInv_forget.
Qed.

Lemma history_TimeInv cs s :
  Z.of_nat (length cs) < 2 ^ 64 →
  run cs (LRUKReplacer_new num_frames k) = Some s → TimeInv s.
Proof.
  intros Hn Hrun.
  apply (history_preserves num_frames k Hk TimeInv (λ _, True) TimeInv_new
           perform_TimeInv cs s); try done.
  by apply Forall_forall.
Qed.
End time.

(** ** Frame ids in range *)

Section in_range.
Variables (num_frames k : Z).
Hypothesis Hk : 1 ≤ k.

(** When every tracked frame has an id in [0, num_frames), at most
    [num_frames] frames are counted by [Size()], and when [Size()] reaches
    [num_frames] every id of the range is tracked. *)
Lemma tracked_in_range_full n s :
  Inv num_frames k n s → tracked_in_range num_frames s → 0 ≤ num_frames →
  Size s ≤ num_frames
  ∧ (Size s = num_frames → ∀ f, 0 ≤ f < num_frames → record_cnt s f ≠ 0).
Proof.
  intros HI Hr Hcap.
  pose proof (inv_cold _ _ _ _ HI) as Hcold.
  pose proof (inv_warm _ _ _ _ HI) as Hwarm.
  pose proof (inv_cnt _ _ _ _ HI) as Hcnt.
  set (l := new_frames_ s ++ (k_frames_ s).*1).
  assert (NoDup l) as Hnd.
  { apply NoDup_app. repeat split.
    - apply (inv_new_nodup _ _ _ _ HI).
    - intros x Hx Hx'. apply Hcold in Hx. apply Hwarm in Hx'. lia.
    - apply (inv_k_nodup _ _ _ _ HI). }
  assert (∀ x, x ∈ l ↔ record_cnt s x ≠ 0) as Hl.
  { intros x. unfold l. rewrite elem_of_app, Hcold, Hwarm.
    specialize (Hcnt x). lia. }
  assert (l ⊆+ seqZ 0 num_frames) as Hsub.
  { apply NoDup_submseteq; [done|]. intros x Hx.
    apply elem_of_seqZ. apply Hl, Hr in Hx. lia. }
  pose proof (submseteq_length _ _ Hsub) as Hlen.
  rewrite length_seqZ in Hlen.
  assert (Size s ≤ Z.of_nat (length l)) as Hsz.
  { unfold Size, l. rewrite (inv_curr_size _ _ _ _ HI), length_app.
    pose proof (count_evictable_bounds (evictable s) (new_frames_ s)).
    pose proof (count_evictable_bounds (evictable s) (k_frames_ s).*1).
    lia. }
  split; [lia|]. intros Hfull f Hf.
  apply Hl.
  assert (l ≡ₚ seqZ 0 num_frames) as Hp.
  { apply submseteq_length_Permutation; [done|]. rewrite length_seqZ. lia. }
  rewrite Hp. apply elem_of_seqZ. lia.
Qed.

Lemma tracked_in_range_new :
  tracked_in_range num_frames (LRUKReplacer_new num_frames k).
Proof. intros f. unfold record_cnt. simpl. by rewrite lookup_empty. Qed.

Lemma tracked_in_range_forget s s' v :
  tracked_in_range num_frames s → forgotten v s s' →
  tracked_in_range num_frames s'.
Proof.
  intros Hr (_ & Hc & _ & _ & _ & Hother & _) g Hg.
  destruct (decide (g = v)) as [->|Hne]; [done|].
  apply Hr. by rewrite <-(proj2 (Hother g Hne)).
Qed.

Lemma perform_tracked_in_range n s c :
  Inv num_frames k n s → tracked_in_range num_frames s →
  valid_call num_frames c → n + 1 < 2 ^ 64 →
  match perform c s with
  | Ok _ s' => tracked_in_range num_frames s'
  | Throw _ s' => tracked_in_range num_frames s'
  | Undefined => True
  end.
Proof.
  intros HI Hr Hv Hn. destruct c as [f| |f v|f]; simpl in *.
  - destruct (RecordAccess f s) as [[] s'|e s'|] eqn:Hra; [| |done].
    + destruct (RecordAccess_effect num_frames k Hk n s f s' HI Hn Hra)
        as (_ & Hc & _).
      intros g Hg. destruct (decide (g = f)) as [->|Hne]; [done|].
      apply Hr. unfold record_cnt in *. by rewrite Hc, lookup_insert_ne in Hg.
    + destruct (RecordAccess_cases num_frames k Hk n s f HI Hn)
        as [[_ Heq]|[(_ & _ & _ & Heq)|(_ & _ & s'' & Heq & _)]];
        rewrite Heq in Hra; try done. by injection Hra as _ <-.
  - unfold mbind, M_bind.
    destruct (Evict_cases num_frames k Hk n s HI ltac:(lia))
      as [(v & l1 & l2 & s' & _ & _ & _ & Heq & _ & _ & _ & Hfg)
         |[(v & t & l1 & l2 & s' & _ & _ & _ & _ & Heq & _ & _ & _ & Hfg)
          |(_ & _ & _ & Heq)]]; rewrite Heq; simpl; try done.
    + by eapply tracked_in_range_forget.
    + by eapply tracked_in_range_forget.
  - destruct (SetEvictable_cases num_frames k n s f v HI ltac:(lia))
      as [[_ Heq]|(_ & mx' & sz' & Heq & _)]; by rewrite Heq.
  - destruct (Remove_cases num_frames k Hk n s f HI ltac:(lia))
      as [[_ Heq]|[(_ & _ & Heq)|[(_ & _ & _ & Heq)
         |(_ & _ & _ & s' & Heq & _ & _ & _ & Hfg)]]]; rewrite Heq; try done.
    by eapply tracked_in_range_forget.
Qed.

Lemma run_valid_completes cs : ∀ n s,
  Inv num_frames k n s → tracked_in_range num_frames s →
  0 ≤ num_frames →
  Forall (valid_call num_frames) cs →
  n + Z.of_nat (length cs) < 2 ^ 64 →
  ∃ s', run cs s = Some s'.
Proof.
  induction cs as [|c cs IH]; intros n s HI Hr Hcap Hv Hn; simpl in *.
  - by exists s.
  - apply Forall_cons in Hv as [Hc Hv].
    pose proof (perform_Inv num_frames k Hk n s c HI ltac:(lia)) as HI'.
    pose proof (perform_tracked_in_range n s c HI Hr Hc ltac:(lia)) as Hr'.
    destruct (perform c s) as [a s1|e s1|] eqn:Hp.
    + apply (IH (n + 1) s1); try done. lia.
    + subst s1. apply (IH (n + 1) s); try done; [|lia].
      eapply Inv_mono; [done|lia].
    + exfalso.
      apply (perform_Undefined num_frames k Hk n s c HI ltac:(lia)) in Hp
        as (f & -> & _ & Hc0 & Hfull).
      simpl in Hc.
      by apply (proj2 (tracked_in_range_full n s HI Hr Hcap) Hfull f).
Qed.
End in_range.

(** ** Properties of the replacer along histories *)

Lemma StronglySorted_le_lt (kl : list (Z * Z)) :
  k_sorted kl → (∀ a b, a ∈ kl → b ∈ kl → a.2 = b.2 → a.1 = b.1) →
  NoDup kl.*1 → StronglySorted (λ a b : Z * Z, a.2 < b.2) kl.
Proof.
  unfold k_sorted. induction kl as [|a kl IH]; csimpl; intros Hs Hd Hnd;
    [constructor|].
  apply StronglySorted_inv in Hs as [Hs Ha].
  apply NoDup_cons in Hnd as [Hna Hnd]. constructor.
  - apply IH; [done| |done]. intros b c Hb Hc. apply Hd; apply elem_of_cons; by right.
  - apply Forall_forall. intros b Hb.
    assert (a.2 ≤ b.2) as Hle by (by eapply Forall_forall in Ha).
    destruct (decide (a.2 = b.2)) as [Heq|Hne]; [|lia].
    exfalso. apply Hna. apply list_elem_of_fmap. exists b. split; [|done].
    apply Hd; [apply elem_of_cons; by left|apply elem_of_cons; by right|done].
Qed.

Section extras.
Variables (num_frames k : Z).
Hypothesis Hk : 1 ≤ k.

(** On an object reached by a history, a call has undefined behaviour only
    if it is the first access of a frame that passes the range check while
    [Size()] equals the capacity.  Every other call returns or throws: no
    list node is erased through a missing iterator and no empty history is
    read. *)
Theorem undefined_only_at_first_access_when_full cs s c :
  Z.of_nat (length cs) + 1 < 2 ^ 64 →
  run cs (LRUKReplacer_new num_frames k) = Some s →
  perform c s = Undefined ↔
  ∃ f, c = CallRecordAccess f ∧ f ≤ static_cast_frame_id num_frames
       ∧ record_cnt s f = 0 ∧ Size s = num_frames.
Proof.
  intros Hn Hrun.
  pose proof (history_Inv num_frames k Hk cs s ltac:(lia) Hrun) as HI.
  by apply (perform_Undefined num_frames k Hk _ s c HI).
Qed.

(** A history whose accesses all name frames in [0, num_frames) runs to its
    end: no call has undefined behaviour.  The tracked frames stay in that
    range and [Size()] never exceeds the capacity. *)
Theorem valid_histories_complete cs :
  0 ≤ num_frames → Z.of_nat (length cs) < 2 ^ 64 →
  Forall (valid_call num_frames) cs →
  ∃ s, run cs (LRUKReplacer_new num_frames k) = Some s
       ∧ tracked_in_range num_frames s ∧ Size s ≤ num_frames.
Proof.
  intros Hcap Hn Hv.
  destruct (run_valid_completes num_frames k Hk cs 0 _
              (Inv_new num_frames k Hk) (tracked_in_range_new num_frames k)
              Hcap Hv ltac:(lia)) as [s Hrun].
  exists s. split; [done|].
  pose proof (history_Inv num_frames k Hk cs s Hn Hrun) as HI.
  assert (tracked_in_range num_frames s) as Hr.
  { apply (history_preserves num_frames k Hk (tracked_in_range num_frames)
             (valid_call num_frames) (tracked_in_range_new num_frames k)
             (perform_tracked_in_range num_frames k Hk) cs s); done. }
  split; [done|]. by apply (tracked_in_range_full num_frames k Hk _ s HI).
Qed.

(** The history of a frame holds min(access count, K) timestamps, in
    ascending order, each between 1 and the clock; the clock never exceeds
    the number of calls. *)
Theorem history_capped_and_ascending cs s f :
  Z.of_nat (length cs) < 2 ^ 64 →
  run cs (LRUKReplacer_new num_frames k) = Some s →
  Z.of_nat (length (hist s f)) = Z.min (record_cnt s f) k
  ∧ StronglySorted Z.lt (hist s f)
  ∧ (∀ t, t ∈ hist s f → 1 ≤ t ≤ current_timestamp_ s)
  ∧ 0 ≤ current_timestamp_ s ≤ Z.of_nat (length cs).
Proof.
  intros Hn Hrun.
  pose proof (history_Inv num_frames k Hk cs s Hn Hrun) as HI.
  split; [apply (inv_hist_len _ _ _ _ HI)|].
  split; [apply (inv_hist_sorted _ _ _ _ HI)|].
  split; [apply (inv_hist_clock _ _ _ _ HI)|apply (inv_clock _ _ _ _ HI)].
Qed.

(** No timestamp is kept for two different frames, so the keys of the warm
    index are pairwise different and the index is strictly ascending: the
    order among equal keys is never needed. *)
Theorem warm_index_strictly_ascending cs s :
  Z.of_nat (length cs) < 2 ^ 64 →
  run cs (LRUKReplacer_new num_frames k) = Some s →
  (∀ f g t, t ∈ hist s f → t ∈ hist s g → f = g)
  ∧ StronglySorted (λ a b : Z * Z, a.2 < b.2) (k_frames_ s).
Proof.
  intros Hn Hrun.
  pose proof (history_Inv num_frames k Hk cs s Hn Hrun) as HI.
  pose proof (history_TimeInv num_frames k Hk cs s Hn Hrun) as [Hu _].
  split; [done|].
  apply StronglySorted_le_lt.
  - apply (inv_sorted _ _ _ _ HI).
  - intros [f t] [g t'] Hf Hg. simpl. intros <-.
    apply (inv_key _ _ _ _ HI) in Hf. apply (inv_key _ _ _ _ HI) in Hg.
    apply (Hu f g t).
    + destruct (hist s f); simplify_eq/=. apply elem_of_cons. by left.
    + destruct (hist s g); simplify_eq/=. apply elem_of_cons. by left.
  - apply (inv_k_nodup _ _ _ _ HI).
Qed.
(** A frame with fewer than K accesses outranks every frame with K or
    more: while some evictable frame has fewer than K accesses, [Evict]
    returns such a frame. *)
Theorem evict_prefers_fewer_than_k cs s g :
  Z.of_nat (length cs) < 2 ^ 64 →
  run cs (LRUKReplacer_new num_frames k) = Some s →
  1 ≤ record_cnt s g < k → evictable s g = true →
  ∃ v s', Evict s = Ok (Some v) s'
          ∧ 1 ≤ record_cnt s v < k ∧ evictable s v = true.
Proof.
  intros Hn Hrun Hg Hev.
  pose proof (history_Inv num_frames k Hk cs s Hn Hrun) as HI.
  assert (g ∈ new_frames_ s) as Hgin by (by apply (inv_cold _ _ _ _ HI)).
  destruct (Evict_cases num_frames k Hk _ s HI Hn)
    as [(v & l1 & l2 & s' & Hnf & Hevv & _ & Heq & _)
       |[(v & t & l1 & l2 & s' & Hnone & _)
        |(_ & Hnone & _)]].
  - exists v, s'. split; [done|]. split; [|done].
    apply (inv_cold _ _ _ _ HI). rewrite Hnf. apply elem_of_app. right.
    apply elem_of_cons. by left.
  - rewrite (Hnone g Hgin) in Hev. done.
  - rewrite (Hnone g Hgin) in Hev. done.
Qed.

(** Among the evictable frames with fewer than K accesses, [Evict] returns
    the one whose first access (since it was last forgotten) is the oldest;
    later accesses of such a frame do not change its rank. *)
Theorem evict_cold_victim_is_first_accessed cs s v s' g :
  Z.of_nat (length cs) < 2 ^ 64 →
  run cs (LRUKReplacer_new num_frames k) = Some s →
  Evict s = Ok (Some v) s' → record_cnt s v < k →
  1 ≤ record_cnt s g < k → evictable s g = true → g ≠ v →
  oldest_kept s v < oldest_kept s g.
Proof.
  intros Hn Hrun Hev Hv Hg Hevg Hne.
  pose proof (history_Inv num_frames k Hk cs s Hn Hrun) as HI.
  pose proof (history_TimeInv num_frames k Hk cs s Hn Hrun) as [_ Ho].
  assert (g ∈ new_frames_ s) as Hgin by (by apply (inv_cold _ _ _ _ HI)).
  destruct (Evict_cases num_frames k Hk _ s HI Hn)
    as [(v' & l1 & l2 & s1 & Hnf & _ & Hl2 & Heq & _)
       |[(v' & t & l1 & l2 & s1 & _ & Hkf & _ & _ & Heq & _)
        |(_ & _ & _ & Heq)]]; rewrite Heq in Hev; [| |done].
  - injection Hev as -> ->. rewrite Hnf in Hgin, Ho.
    apply elem_of_app in Hgin as [Hgin|Hgin].
    + apply (StronglySorted_app_1_elem_of _ _ _ g v Ho Hgin).
      apply elem_of_cons. by left.
    + apply elem_of_cons in Hgin as [?|Hgin]; [done|].
      eapply Forall_forall in Hl2; [|done]. simpl in Hl2. congruence.
  - injection Hev as -> ->.
    assert (v ∈ (k_frames_ s).*1) as Hw.
    { rewrite Hkf, fmap_app. apply elem_of_app. right. csimpl.
      apply elem_of_cons. by left. }
    apply (inv_warm _ _ _ _ HI) in Hw. lia.
Qed.

(** When [Evict] returns a frame with K or more accesses, no frame with
    fewer accesses is evictable, and the victim is the evictable frame whose
    K-th most recent access is the oldest: the oldest timestamp kept for a
    frame with K or more accesses is its K-th most recent access, the
    accesses being the [RecordAccess] calls that returned, numbered in the
    order in which they were made. *)
Theorem evict_warm_victim_has_oldest_kth_access cs s v s' :
  Z.of_nat (length cs) < 2 ^ 64 →
  run cs (LRUKReplacer_new num_frames k) = Some s →
  Evict s = Ok (Some v) s' → k ≤ record_cnt s v →
  (∀ g, 1 ≤ record_cnt s g < k → evictable s g = false)
  ∧ (∀ g, k ≤ record_cnt s g → evictable s g = true → g ≠ v →
       oldest_kept s v < oldest_kept s g)
  ∧ (∀ g, k ≤ record_cnt s g →
       kth_most_recent k (accesses num_frames k cs g)
       = Some (oldest_kept s g)).
Proof.
  intros Hn Hrun Hev Hv.
  pose proof (history_Inv num_frames k Hk cs s Hn Hrun) as HI.
  assert (∀ g, k ≤ record_cnt s g →
            kth_most_recent k (accesses num_frames k cs g)
            = Some (oldest_kept s g)) as Hlink.
  { intros g Hg.
    destruct (history_accesses num_frames k Hk cs s g Hn Hrun)
      as (_ & _ & Hkth).
    rewrite Hkth by done. unfold oldest_kept.
    pose proof (inv_hist_len _ _ _ _ HI g) as Hlen.
    destruct (hist s g); [simpl in Hlen; lia|done]. }
  apply and_assoc. split; [|exact Hlink]. clear Hlink.
  pose proof (history_TimeInv num_frames k Hk cs s Hn Hrun) as [Hu _].
  assert (StronglySorted (λ a b : Z * Z, a.2 < b.2) (k_frames_ s)) as Hss.
  { apply StronglySorted_le_lt.
    - apply (inv_sorted _ _ _ _ HI).
    - intros [f t] [g t'] Hf Hg. simpl. intros <-.
      apply (inv_key _ _ _ _ HI) in Hf. apply (inv_key _ _ _ _ HI) in Hg.
      apply (Hu f g t).
      + destruct (hist s f); simplify_eq/=. apply elem_of_cons. by left.
      + destruct (hist s g); simplify_eq/=. apply elem_of_cons. by left.
    - apply (inv_k_nodup _ _ _ _ HI). }
  destruct (Evict_cases num_frames k Hk _ s HI Hn)
    as [(v' & l1 & l2 & s1 & Hnf & _ & _ & Heq & _)
       |[(v' & t & l1 & l2 & s1 & Hnone & Hkf & _ & Hl1 & Heq & _)
        |(_ & _ & _ & Heq)]]; rewrite Heq in Hev; [| |done].
  - injection Hev as -> ->.
    assert (v ∈ new_frames_ s) as Hc.
    { rewrite Hnf. apply elem_of_app. right. apply elem_of_cons. by left. }
    apply (inv_cold _ _ _ _ HI) in Hc. lia.
  - injection Hev as -> ->. split.
    { intros g Hg. apply Hnone. by apply (inv_cold _ _ _ _ HI). }
    intros g Hg Hevg Hne.
    apply (inv_warm _ _ _ _ HI), list_elem_of_fmap in Hg as ([g' t'] & -> & Hg).
    simpl in *.
    assert (oldest_kept s v = t) as ->.
    { unfold oldest_kept. rewrite (inv_key _ _ _ _ HI v t); [done|].
      rewrite Hkf. apply elem_of_app. right. apply elem_of_cons. by left. }
    assert (oldest_kept s g' = t') as ->.
    { unfold oldest_kept. by rewrite (inv_key _ _ _ _ HI g' t'). }
    rewrite Hkf in Hg, Hss.
    apply elem_of_app in Hg as [Hg|Hg].
    + eapply Forall_forall in Hl1; [|done]. simpl in Hl1. congruence.
    + apply elem_of_cons in Hg as [[= -> ->]|Hg]; [done|].
      apply StronglySorted_app_1_r, StronglySorted_inv in Hss as [_ Hss].
      eapply Forall_forall in Hss; [|done]. done.
Qed.
(** [Remove] followed by [RecordAccess] of the same frame starts the frame
    afresh: its count is 1, its history holds the new timestamp only, it is
    evictable whatever its flag was before an earlier pin, [Size()] is back
    to its value and, for K > 1, the frame sits at the front of the cold
    list. *)
Theorem remove_then_record_access cs s f :
  Z.of_nat (length cs) + 1 < 2 ^ 64 →
  run cs (LRUKReplacer_new num_frames k) = Some s →
  f ≤ static_cast_frame_id num_frames →
  record_cnt s f ≠ 0 → evictable s f = true → Size s ≤ num_frames →
  ∃ s1 s2,
    Remove f s = Ok tt s1 ∧ RecordAccess f s1 = Ok tt s2
    ∧ record_cnt s2 f = 1 ∧ hist s2 f = [current_timestamp_ s + 1]
    ∧ evictable s2 f = true ∧ Size s2 = Size s
    ∧ (1 < k → new_frames_ s2 = f :: list_erase f (new_frames_ s)).
Proof.
  intros Hn Hrun Hf Hc Hev Hsz.
  pose proof (history_Inv num_frames k Hk cs s ltac:(lia) Hrun) as HI.
  destruct (Remove_cases num_frames k Hk _ s f HI ltac:(lia))
    as [[Hgt _]|[(_ & Hc0 & _)|[(_ & _ & Hev' & _)
       |(_ & _ & _ & s1 & Heq & HI1 & Hnf & _ & Hfg)]]];
    [lia|done|congruence|].
  destruct Hfg as (Hh1 & Hc1 & _ & _ & Hsz1 & _ & _ & Hts1 & _).
  destruct (RecordAccess_cases num_frames k Hk _ s1 f HI1 Hn)
    as [[Hgt _]|[(_ & _ & Hfull & _)|(_ & _ & s2 & Heq2 & _)]]; [lia| |].
  { unfold Size in *. lia. }
  destruct (RecordAccess_effect num_frames k Hk _ s1 f s2 HI1 Hn Heq2)
    as (_ & Hc2 & Hh2 & He2 & Hs2 & Hnf2).
  exists s1, s2. split; [done|]. split; [done|].
  rewrite Hc1, Hh1, Hts1 in *.
  unfold record_cnt, hist, evictable, Size in *.
  rewrite Hc2, Hh2, He2, Hs2, Hsz1, !lookup_insert_eq. simpl.
  rewrite (proj2 (Z.ltb_lt 0 k)) by lia. simpl.
  rewrite lookup_insert_eq. simpl.
  repeat split; try done; try lia.
  intros Hk1. rewrite Hnf2, Hnf.
  by rewrite (proj2 (Z.ltb_lt (0 + 1) k)) by lia.
Qed.

(** A frame that has just been pinned is not chosen by the next [Evict], and
    [Evict] leaves its access count and history as they are. *)
Theorem pinned_frame_is_not_evicted cs s f :
  Z.of_nat (length cs) < 2 ^ 64 →
  run cs (LRUKReplacer_new num_frames k) = Some s →
  record_cnt s f ≠ 0 →
  ∃ s1, SetEvictable f false s = Ok tt s1
        ∧ ∃ r s2, Evict s1 = Ok r s2 ∧ r ≠ Some f
                  ∧ record_cnt s2 f = record_cnt s f
                  ∧ hist s2 f = hist s f.
Proof.
  intros Hn Hrun Hc.
  pose proof (history_Inv num_frames k Hk cs s Hn Hrun) as HI.
  destruct (SetEvictable_cases num_frames k _ s f false HI Hn)
    as [[Hc0 _]|(_ & mx' & sz' & Heq & HI1 & _)]; [done|].
  eexists. split; [exact Heq|].
  match type of HI1 with Inv _ _ _ ?x => set (s1 := x) in * end.
  assert (evictable s1 f = false) as Hpin.
  { unfold evictable, s1. simpl. by rewrite lookup_insert_eq. }
  assert (record_cnt s1 f = record_cnt s f ∧ hist s1 f = hist s f)
    as [Hc1 Hh1] by done.
  destruct (Evict_cases num_frames k Hk _ s1 HI1 Hn)
    as [(v & l1 & l2 & s2 & _ & Hev & _ & Heq2 & _ & _ & _ & Hfg)
       |[(v & t & l1 & l2 & s2 & _ & _ & Hev & _ & Heq2 & _ & _ & _ & Hfg)
        |(_ & _ & _ & Heq2)]].
  - exists (Some v), s2. split; [done|].
    assert (f ≠ v) as Hne by (intros ->; congruence).
    destruct Hfg as (_ & _ & _ & _ & _ & Hother & _).
    destruct (Hother f Hne) as [-> ->]. split; [congruence|done].
  - exists (Some v), s2. split; [done|].
    assert (f ≠ v) as Hne by (intros ->; congruence).
    destruct Hfg as (_ & _ & _ & _ & _ & Hother & _).
    destruct (Hother f Hne) as [-> ->]. split; [congruence|done].
  - exists None, s1. by repeat split.
Qed.

(** A frame returned by [Evict] is untracked afterwards: the next [Evict]
    does not return it again and [SetEvictable] on it does nothing. *)
Theorem evicted_frame_is_untracked cs s v s1 :
  Z.of_nat (length cs) < 2 ^ 64 →
  run cs (LRUKReplacer_new num_frames k) = Some s →
  Evict s = Ok (Some v) s1 →
  Size s1 = Size s - 1
  ∧ (∀ b, SetEvictable v b s1 = Ok tt s1)
  ∧ ∃ r s2, Evict s1 = Ok r s2 ∧ r ≠ Some v.
Proof.
  intros Hn Hrun Hev.
  pose proof (history_Inv num_frames k Hk cs s Hn Hrun) as HI.
  assert (Inv num_frames k (Z.of_nat (length cs)) s1 ∧ forgotten v s s1)
    as [HI1 Hfg].
  { destruct (Evict_cases num_frames k Hk _ s HI Hn)
      as [(v' & l1 & l2 & s' & _ & _ & _ & Heq & HI' & _ & _ & Hfg)
         |[(v' & t & l1 & l2 & s' & _ & _ & _ & _ & Heq & HI' & _ & _ & Hfg)
          |(_ & _ & _ & Heq)]]; rewrite Heq in Hev; [| |done];
      by injection Hev as -> ->. }
  destruct Hfg as (_ & Hc & Hncold & Hnwarm & Hsz & _).
  split; [done|]. split.
  { intros b.
    destruct (SetEvictable_cases num_frames k _ s1 v b HI1 Hn)
      as [[_ Heq]|(Hc' & _)]; done. }
  destruct (Evict_cases num_frames k Hk _ s1 HI1 Hn)
    as [(w & l1 & l2 & s2 & Hnf & _ & _ & Heq2 & _)
       |[(w & t & l1 & l2 & s2 & _ & Hkf & _ & _ & Heq2 & _)
        |(_ & _ & _ & Heq2)]].
  - exists (Some w), s2. split; [done|]. intros [= ->]. apply Hncold.
    rewrite Hnf. apply elem_of_app. right. apply elem_of_cons. by left.
  - exists (Some w), s2. split; [done|]. intros [= ->]. apply Hnwarm.
    rewrite Hkf, fmap_app. apply elem_of_app. right. csimpl.
    apply elem_of_cons. by left.
  - by exists None, s1.
Qed.

(** Pinning an evictable frame and unpinning it again restores the object,
    up to [max_size_] (a counter no member function reads); in between
    [Size()] is one less. *)
Theorem pin_then_unpin_restores cs s f :
  Z.of_nat (length cs) < 2 ^ 64 →
  run cs (LRUKReplacer_new num_frames k) = Some s →
  record_cnt s f ≠ 0 → evictable s f = true →
  ∃ s1 s2,
    SetEvictable f false s = Ok tt s1 ∧ SetEvictable f true s1 = Ok tt s2
    ∧ Size s1 = Size s - 1
    ∧ s2 = set_max_size (max_size_ s2) s.
Proof.
  intros Hn Hrun Hc Hev.
  pose proof (history_Inv num_frames k Hk cs s Hn Hrun) as HI.
  destruct (SetEvictable_cases num_frames k _ s f false HI Hn)
    as [[Hc0 _]|(_ & mx1 & sz1 & Heq1 & HI1 & Hsz1)]; [done|].
  destruct (SetEvictable_cases num_frames k _ _ f true HI1 Hn)
    as [[Hc0 _]|(_ & mx2 & sz2 & Heq2 & _ & Hsz2)]; [done|].
  eexists _, _. split; [exact Heq1|]. split; [exact Heq2|].
  unfold Size, evictable in *. simpl in *.
  rewrite lookup_insert_eq in Hsz2. simpl in Hsz2. rewrite Hev in Hsz1.
  split; [lia|]. unfold set_max_size. simpl.
  destruct s as [cap kk mx ts sz h c e nf np kf kp l]. simpl in *.
  f_equal; [lia|].
  rewrite insert_insert_eq. apply insert_id.
  destruct (e !! f) as [[]|]; done.
Qed.
End extras.

(** ** The properties at concrete histories *)

Lemma undefined_only_at_first_access_when_full_witness :
  perform CallEvict replacer_A = Undefined ↔
  ∃ f, CallEvict = CallRecordAccess f ∧ f ≤ static_cast_frame_id 3
       ∧ record_cnt replacer_A f = 0 ∧ Size replacer_A = 3.
Proof.
  apply (undefined_only_at_first_access_when_full 3 2 ltac:(lia) history_A).
  - vm_compute. reflexivity.
  - vm_compute. reflexivity.
Defined.

Lemma valid_histories_complete_witness :
  ∃ s, run history_A (LRUKReplacer_new 3 2) = Some s
       ∧ tracked_in_range 3 s ∧ Size s ≤ 3.
Proof.
  apply (valid_histories_complete 3 2 ltac:(lia) history_A).
  - lia.
  - vm_compute. reflexivity.
  - repeat constructor; simpl; lia.
Defined.

Lemma history_capped_and_ascending_witness :
  Z.of_nat (length (hist replacer_A 0)) = Z.min (record_cnt replacer_A 0) 2
  ∧ StronglySorted Z.lt (hist replacer_A 0)
  ∧ (∀ t, t ∈ hist replacer_A 0 → 1 ≤ t ≤ current_timestamp_ replacer_A)
  ∧ 0 ≤ current_timestamp_ replacer_A ≤ Z.of_nat (length history_A).
Proof.
  apply (history_capped_and_ascending 3 2 ltac:(lia) history_A).
  - vm_compute. reflexivity.
  - vm_compute. reflexivity.
Defined.

Lemma warm_index_strictly_ascending_witness :
  (∀ f g t, t ∈ hist replacer_C f → t ∈ hist replacer_C g → f = g)
  ∧ StronglySorted (λ a b : Z * Z, a.2 < b.2) (k_frames_ replacer_C).
Proof.
  apply (warm_index_strictly_ascending 3 2 ltac:(lia) history_C).
  - vm_compute. reflexivity.
  - vm_compute. reflexivity.
Defined.

Lemma evict_prefers_fewer_than_k_witness :
  ∃ v s', Evict replacer_A = Ok (Some v) s'
          ∧ 1 ≤ record_cnt replacer_A v < 2
          ∧ evictable replacer_A v = true.
Proof.
  apply (evict_prefers_fewer_than_k 3 2 ltac:(lia) history_A replacer_A 1).
  - vm_compute. reflexivity.
  - vm_compute. reflexivity.
  - split; by vm_compute.
  - vm_compute. reflexivity.
Defined.

Lemma evict_cold_victim_is_first_accessed_witness :
  oldest_kept replacer_B 0 < oldest_kept replacer_B 1.
Proof.
  eapply (evict_cold_victim_is_first_accessed 3 2 ltac:(lia) history_B
            replacer_B 0 _ 1).
  - vm_compute. reflexivity.
  - vm_compute. reflexivity.
  - vm_compute. reflexivity.
  - vm_compute. reflexivity.
  - split; by vm_compute.
  - vm_compute. reflexivity.
  - lia.
Defined.

Lemma evict_warm_victim_has_oldest_kth_access_witness :
  (∀ g, 1 ≤ record_cnt replacer_C g < 2 → evictable replacer_C g = false)
  ∧ (∀ g, 2 ≤ record_cnt replacer_C g → evictable replacer_C g = true →
       g ≠ 0 → oldest_kept replacer_C 0 < oldest_kept replacer_C g)
  ∧ (∀ g, 2 ≤ record_cnt replacer_C g →
       kth_most_recent 2 (accesses 3 2 history_C g)
       = Some (oldest_kept replacer_C g)).
Proof.
  eapply (evict_warm_victim_has_oldest_kth_access 3 2 ltac:(lia) history_C
            replacer_C 0).
  - vm_compute. reflexivity.
  - vm_compute. reflexivity.
  - vm_compute. reflexivity.
  - by vm_compute.
Defined.

Lemma remove_then_record_access_witness :
  ∃ s1 s2,
    Remove 1 replacer_A = Ok tt s1 ∧ RecordAccess 1 s1 = Ok tt s2
    ∧ record_cnt s2 1 = 1 ∧ hist s2 1 = [current_timestamp_ replacer_A + 1]
    ∧ evictable s2 1 = true ∧ Size s2 = Size replacer_A
    ∧ (1 < 2 → new_frames_ s2 = 1 :: list_erase 1 (new_frames_ replacer_A)).
Proof.
  apply (remove_then_record_access 3 2 ltac:(lia) history_A).
  - vm_compute. reflexivity.
  - vm_compute. reflexivity.
  - by vm_compute.
  - by vm_compute.
  - vm_compute. reflexivity.
  - by vm_compute.
Defined.

Lemma pinned_frame_is_not_evicted_witness :
  ∃ s1, SetEvictable 1 false replacer_A = Ok tt s1
        ∧ ∃ r s2, Evict s1 = Ok r s2 ∧ r ≠ Some 1
                  ∧ record_cnt s2 1 = record_cnt replacer_A 1
                  ∧ hist s2 1 = hist replacer_A 1.
Proof.
  apply (pinned_frame_is_not_evicted 3 2 ltac:(lia) history_A).
  - vm_compute. reflexivity.
  - vm_compute. reflexivity.
  - by vm_compute.
Defined.

Lemma evicted_frame_is_untracked_witness :
  ∃ s1,
    Evict replacer_A = Ok (Some 1) s1
    ∧ Size s1 = Size replacer_A - 1
    ∧ (∀ b, SetEvictable 1 b s1 = Ok tt s1)
    ∧ ∃ r s2, Evict s1 = Ok r s2 ∧ r ≠ Some 1.
Proof.
  eexists. split; [vm_compute; reflexivity|].
  eapply (evicted_frame_is_untracked 3 2 ltac:(lia) history_A replacer_A 1).
  - vm_compute. reflexivity.
  - vm_compute. reflexivity.
  - vm_compute. reflexivity.
Defined.

Lemma pin_then_unpin_restores_witness :
  ∃ s1 s2,
    SetEvictable 1 false replacer_A = Ok tt s1
    ∧ SetEvictable 1 true s1 = Ok tt s2
    ∧ Size s1 = Size replacer_A - 1
    ∧ s2 = set_max_size (max_size_ s2) replacer_A.
Proof.
  apply (pin_then_unpin_restores 3 2 ltac:(lia) history_A).
  - vm_compute. reflexivity.
  - vm_compute. reflexivity.
  - by vm_compute.
  - vm_compute. reflexivity.
Defined.

Lemma range_check_rejects_above_witness :
  RecordAccess 7 replacer_A = Throw InvalidFrame replacer_A
  ∧ Remove 7 replacer_A = Throw InvalidFrame replacer_A.
Proof.
  apply range_check_rejects_above.
  - reflexivity.
  - by vm_compute.
Defined.

(** * The persistent trie *)

Section trie_facts.
Context {type payload : Type} `{EqDecision type}.
Implicit Types (n node child x y : TrieNode type payload).
Implicit Types (t : Trie type payload) (key : list ascii) (ch : ascii).

Lemma Clone_id n : Clone n = n.
Proof. by destruct n. Qed.

Lemma Get_walk_None key : Get_walk (@None (TrieNode type payload)) key = None.
Proof. by destruct key. Qed.

Lemma stored_None key : stored (@None (TrieNode type payload)) key = None.
Proof. unfold stored. by rewrite Get_walk_None. Qed.

Lemma stored_nil n : stored (Some n) [] = value_ n.
Proof. done. Qed.

Lemma stored_cons n ch key :
  stored (Some n) (ch :: key) = stored (children_ n !! ch) key.
Proof.
  unfold stored; simpl. destruct (children_ n !! ch); [done|].
  by rewrite Get_walk_None.
Qed.

Lemma stored_no_children n ch key :
  children_ n = ∅ → stored (Some n) (ch :: key) = None.
Proof.
  intros Hn. rewrite stored_cons, Hn, lookup_empty. apply stored_None.
Qed.

Lemma stored_dead n key : dead n → stored (Some n) key = None.
Proof.
  intros [Hc Hv]. destruct key; [done|]. by apply stored_no_children.
Qed.

Lemma stored_new key : stored (Some (@TrieNode_new type payload)) key = None.
Proof. by apply stored_dead. Qed.

Lemma Trie_Get_stored T key t :
  Trie_Get T key t =
  match stored (root_ t) key with
  | Some (T', v) => if decide (T' = T) then Some v else None
  | None => None
  end.
Proof. unfold Trie_Get, stored. by destruct (Get_walk _ _). Qed.

Lemma stored_None_Get key t :
  stored (root_ t) key = None ↔ ∀ T, Trie_Get T key t = None.
Proof.
  split.
  - intros Hs T. by rewrite Trie_Get_stored, Hs.
  - intros HG. destruct (stored (root_ t) key) as [[T v]|] eqn:Hs; [|done].
    specialize (HG T). rewrite Trie_Get_stored, Hs in HG.
    by rewrite decide_True in HG.
Qed.

(** ** [Put] *)

Lemma Put_loops key : ∀ node st,
  ∃ st', Put_descend key node st = (st', Put_last key node)
         ∧ ∀ x rk, Put_ascend (rev key ++ rk) st' x
                   = Put_ascend rk st (Put_path key node x).
Proof.
  induction key as [|ch key IH]; intros node st; simpl.
  - by exists st.
  - destruct (IH (Put_child ch node) (node :: st)) as (st' & Hd & Ha).
    exists st'. split; [exact Hd|]. intros x rk.
    by rewrite <- app_assoc, Ha.
Qed.

Lemma Trie_Put_eq T key v t :
  Trie_Put T key v t =
  let node := match root_ t with Some root => root | None => TrieNode_new end in
  Some (mkTrie (Some (Put_path key node
    (TrieNodeWithValue (children_ (Put_last key node)) T v)))).
Proof.
  unfold Trie_Put. simpl.
  replace (match root_ t with Some root => Clone root | None => TrieNode_new end)
    with (match root_ t with Some root => root | None => TrieNode_new end)
    by (destruct (root_ t); by rewrite ?Clone_id).
  set (node := match root_ t with Some root => root | None => _ end).
  destruct (Put_loops key node []) as (st' & Hd & Ha).
  rewrite Hd. specialize (Ha (TrieNodeWithValue (children_ (Put_last key node)) T v) []).
  rewrite app_nil_r in Ha. by rewrite Ha.
Qed.

Lemma Get_walk_Put_path key : ∀ node x,
  Get_walk (Some (Put_path key node x)) key = Some x.
Proof.
  induction key as [|ch key IH]; intros node x; simpl; [done|].
  by rewrite lookup_insert_eq.
Qed.

Lemma stored_Put_child ch node key :
  stored (Some (Put_child ch node)) key = stored (children_ node !! ch) key.
Proof.
  unfold Put_child. destruct (children_ node !! ch).
  - by rewrite Clone_id.
  - by rewrite stored_new, stored_None.
Qed.

Lemma stored_Put_path_ne key : ∀ node x key',
  key' ≠ key → children_ x = children_ (Put_last key node) →
  stored (Some (Put_path key node x)) key' = stored (Some node) key'.
Proof.
  induction key as [|ch key IH]; intros node x key' Hne Hx; simpl in *.
  - destruct key' as [|ch' key']; [done|]. by rewrite !stored_cons, Hx.
  - destruct key' as [|ch' key']; [done|]. rewrite !stored_cons. simpl.
    destruct (decide (ch' = ch)) as [->|Hch].
    + rewrite lookup_insert_eq, IH by (done || congruence).
      apply stored_Put_child.
    + by rewrite lookup_insert_ne.
Qed.

Lemma stored_root_or_new t key :
  stored (Some (match root_ t with Some root => root | None => TrieNode_new end)) key
  = stored (root_ t) key.
Proof. destruct (root_ t); [done|]. by rewrite stored_new, stored_None. Qed.

(** ** [Remove] *)

Lemma Remove_loops key : ∀ node st,
  match Remove_walk key (Some node) st with
  | None => Get_walk (Some node) key = None
  | Some (st', cur) =>
      ∃ last rest, cur = Some last ∧ Get_walk (Some node) key = Some last
        ∧ st' = st ++ rest ∧ length rest = length key
        ∧ ∀ pre x, length pre = length st →
            Remove_rebuild (length st') (pre ++ key) st' x
            = Remove_rebuild (length st) (pre ++ key) st'
                (Remove_fold key node x)
  end.
Proof.
  induction key as [|ch key IH]; intros node st; simpl.
  - exists node, []. rewrite app_nil_r. by repeat split.
  - destruct (children_ node !! ch) as [child|] eqn:Hch; [|done].
    specialize (IH child (st ++ [node])).
    destruct (Remove_walk key (Some child) (st ++ [node])) as [[st' cur]|];
      [|done].
    destruct IH as (last & rest & -> & Hw & -> & Hlen & Hreb).
    exists last, (node :: rest). split; [done|]. split; [done|].
    split; [by rewrite <- app_assoc|]. split; [simpl; lia|].
    intros pre x Hpre.
    specialize (Hreb (pre ++ [ch]) x).
    replace ((pre ++ [ch]) ++ key) with (pre ++ ch :: key) in Hreb
      by (by rewrite <- app_assoc).
    rewrite Hreb by (rewrite !length_app; simpl; lia).
    rewrite length_app. simpl. rewrite Nat.add_1_r. simpl.
    rewrite <- (app_assoc st [node] rest). simpl.
    rewrite (lookup_app_r st) by lia. rewrite Nat.sub_diag. simpl.
    rewrite (lookup_app_r pre) by lia. rewrite Hpre, Nat.sub_diag. simpl.
    done.
Qed.

Lemma Trie_eta t : mkTrie (root_ t) = t.
Proof. by destruct t. Qed.

Lemma Trie_Remove_eq key t :
  Trie_Remove key t =
  match root_ t with
  | None => match key with [] => None | _ => Some t end
  | Some root =>
      match Get_walk (Some root) key with
      | None => Some t
      | Some last =>
          if is_value_node_ last then
            let r := Remove_fold key root (TrieNode_of (children_ last)) in
            Some (if children_empty r then mkTrie None else mkTrie (Some r))
          else Some t
      end
  end.
Proof.
  unfold Trie_Remove. rewrite Trie_eta.
  destruct (root_ t) as [root|]; [|by destruct key].
  pose proof (Remove_loops key root []) as HL.
  destruct (Remove_walk key (Some root) []) as [[st' cur]|]; [|by rewrite HL].
  destruct HL as (last & rest & -> & -> & -> & Hlen & Hreb).
  destruct (is_value_node_ last); simpl; [|done].
  specialize (Hreb [] (TrieNode_of (children_ last)) eq_refl).
  simpl in Hreb. rewrite Hreb.
  by destruct (children_empty _).
Qed.

Lemma dead_spec n :
  children_empty n && negb (is_value_node_ n) = true ↔ dead n.
Proof.
  unfold children_empty, is_value_node_, dead.
  rewrite andb_true_iff, bool_decide_eq_true.
  destruct (value_ n); naive_solver.
Qed.

Lemma children_empty_spec n : children_empty n = true ↔ children_ n = ∅.
Proof. unfold children_empty. by rewrite bool_decide_eq_true. Qed.

Lemma Remove_link_dead ch y node :
  dead y → Remove_link ch y node = mkTrieNode (delete ch (children_ node)) (value_ node).
Proof.
  intros Hd. unfold Remove_link. apply dead_spec in Hd. rewrite Hd.
  unfold children_erase, children_assign; simpl.
  by rewrite delete_insert_eq.
Qed.

Lemma Remove_link_alive ch y node :
  ¬ dead y →
  Remove_link ch y node = mkTrieNode (<[ch := y]> (children_ node)) (value_ node).
Proof.
  intros Hd. unfold Remove_link.
  destruct (children_empty y && negb (is_value_node_ y)) eqn:E; [|done].
  by apply dead_spec in E.
Qed.

Lemma value_Remove_link ch y node : value_ (Remove_link ch y node) = value_ node.
Proof.
  destruct (decide (dead y)) as [Hd|Hd].
  - by rewrite Remove_link_dead.
  - by rewrite Remove_link_alive.
Qed.

Lemma stored_Remove_fold key : ∀ node last x,
  Get_walk (Some node) key = Some last →
  children_ x = children_ last → value_ x = None →
  stored (Some (Remove_fold key node x)) key = None
  ∧ ∀ key', key' ≠ key →
      stored (Some (Remove_fold key node x)) key' = stored (Some node) key'.
Proof.
  induction key as [|ch key IH]; intros node last x Hw Hc Hv; simpl in *.
  - simplify_eq. split; [done|]. intros [|ch' key'] Hne; [done|].
    by rewrite !stored_cons, Hc.
  - destruct (children_ node !! ch) as [child|] eqn:Hch; [|done].
    destruct (IH child last x Hw Hc Hv) as [IH1 IH2].
    set (y := Remove_fold key child x) in *.
    destruct (decide (dead y)) as [Hd|Hd].
    + rewrite Remove_link_dead by done. split.
      * rewrite stored_cons. simpl. rewrite lookup_delete_eq. apply stored_None.
      * intros [|ch' key'] Hne; [done|]. rewrite !stored_cons. simpl.
        destruct (decide (ch' = ch)) as [->|Hne'].
        -- rewrite lookup_delete_eq, Hch, stored_None.
           rewrite <- IH2 by congruence. symmetry. by apply stored_dead.
        -- by rewrite lookup_delete_ne.
    + rewrite Remove_link_alive by done. split.
      * rewrite stored_cons. simpl. by rewrite lookup_insert_eq.
      * intros [|ch' key'] Hne; [done|]. rewrite !stored_cons. simpl.
        destruct (decide (ch' = ch)) as [->|Hne'].
        -- rewrite lookup_insert_eq, Hch. apply IH2. congruence.
        -- by rewrite lookup_insert_ne.
Qed.

(** ** Dead nodes *)

Lemma Get_walk_cons n ch key :
  Get_walk (Some n) (ch :: key) = Get_walk (children_ n !! ch) key.
Proof. simpl. destruct (children_ n !! ch); [done|]. by rewrite Get_walk_None. Qed.

Lemma pruned_None : pruned (@None (TrieNode type payload)).
Proof. intros key n. by rewrite Get_walk_None. Qed.

Lemma pruned_Some n : pruned (Some n) ↔ ¬ dead n ∧ pruned_below n.
Proof.
  split.
  - intros Hp. split; [by apply (Hp [])|].
    intros ch key m Hw. apply (Hp (ch :: key)). by rewrite Get_walk_cons.
  - intros [Hn Hb] [|ch key] m Hw.
    + simpl in Hw. by simplify_eq.
    + rewrite Get_walk_cons in Hw. by apply (Hb ch key).
Qed.

Lemma pruned_below_new : pruned_below (@TrieNode_new type payload).
Proof. intros ch. simpl. rewrite lookup_empty. apply pruned_None. Qed.

Lemma pruned_below_Put_child ch node :
  pruned_below node → pruned_below (Put_child ch node).
Proof.
  intros Hb. unfold Put_child.
  destruct (children_ node !! ch) as [c|] eqn:Hc.
  - rewrite Clone_id. specialize (Hb ch). rewrite Hc in Hb.
    by apply pruned_Some in Hb as [_ Hb].
  - apply pruned_below_new.
Qed.

Lemma pruned_Put_path key : ∀ node x,
  pruned_below node → children_ x = children_ (Put_last key node) →
  value_ x ≠ None → pruned (Some (Put_path key node x)).
Proof.
  induction key as [|ch key IH]; intros node x Hb Hc Hv; simpl in *.
  - apply pruned_Some. split; [by intros [_ ?]|].
    intros ch. rewrite Hc. apply Hb.
  - apply pruned_Some. split.
    + intros [He _]. simpl in He.
      by apply (insert_non_empty (children_ node) ch
                  (Put_path key (Put_child ch node) x)).
    + intros ch'. simpl. destruct (decide (ch' = ch)) as [->|Hne].
      * rewrite lookup_insert_eq. apply IH; [|done..].
        by apply pruned_below_Put_child.
      * rewrite lookup_insert_ne by done. apply Hb.
Qed.

Lemma pruned_below_Remove_fold key : ∀ node last x,
  pruned_below node → Get_walk (Some node) key = Some last →
  children_ x = children_ last → pruned_below (Remove_fold key node x).
Proof.
  induction key as [|ch key IH]; intros node last x Hb Hw Hc; simpl in *.
  - simplify_eq. intros ch. rewrite Hc. apply Hb.
  - destruct (children_ node !! ch) as [child|] eqn:Hch; [|done].
    assert (pruned_below child) as Hbc.
    { specialize (Hb ch). rewrite Hch in Hb. by apply pruned_Some in Hb as [_ ?]. }
    specialize (IH child last x Hbc Hw Hc).
    set (y := Remove_fold key child x) in *.
    intros ch'. destruct (decide (dead y)) as [Hd|Hd].
    + rewrite Remove_link_dead by done. simpl.
      destruct (decide (ch' = ch)) as [->|Hne].
      * rewrite lookup_delete_eq. apply pruned_None.
      * rewrite lookup_delete_ne by done. apply Hb.
    + rewrite Remove_link_alive by done. simpl.
      destruct (decide (ch' = ch)) as [->|Hne].
      * rewrite lookup_insert_eq. by apply pruned_Some.
      * rewrite lookup_insert_ne by done. apply Hb.
Qed.

Lemma pruned_root_or_new t :
  pruned (root_ t) →
  pruned_below (match root_ t with Some root => root | None => TrieNode_new end).
Proof.
  destruct (root_ t); [|intros _; apply pruned_below_new].
  intros Hp. by apply pruned_Some in Hp as [_ ?].
Qed.

Lemma Trie_Put_pruned T key v t t' :
  pruned (root_ t) → Trie_Put T key v t = Some t' → pruned (root_ t').
Proof.
  intros Hp. rewrite Trie_Put_eq. simpl. intros [= <-]. simpl.
  apply pruned_Put_path; [by apply pruned_root_or_new|done..].
Qed.

Lemma Trie_Remove_pruned key t t' :
  pruned (root_ t) → Trie_Remove key t = Some t' → pruned (root_ t').
Proof.
  intros Hp. rewrite Trie_Remove_eq.
  destruct (root_ t) as [root|] eqn:Hr.
  2:{ destruct key; [done|]. intros [= <-]. by rewrite Hr. }
  destruct (Get_walk (Some root) key) as [last|] eqn:Hw.
  2:{ intros [= <-]. by rewrite Hr. }
  destruct (is_value_node_ last).
  2:{ intros [= <-]. by rewrite Hr. }
  simpl. intros [= <-].
  destruct (children_empty _) eqn:E; simpl; [apply pruned_None|].
  apply pruned_Some. split.
  - intros [He _]. apply children_empty_spec in He. congruence.
  - eapply pruned_below_Remove_fold; [|done..].
    by apply pruned_Some in Hp as [_ ?].
Qed.

Lemma Trie_run_pruned cs : ∀ t t',
  pruned (root_ t) → Trie_run cs t = Some t' → pruned (root_ t').
Proof.
  induction cs as [|c cs IH]; intros t t' Hp; simpl.
  - by intros [= <-].
  - destruct (Trie_perform c t) as [t1|] eqn:Hc; [|done].
    apply IH. destruct c; simpl in Hc.
    + by eapply Trie_Put_pruned.
    + by eapply Trie_Remove_pruned.
Qed.

(** ** [Remove] after [Put] *)

Lemma Put_last_children ch node :
  children_ (Put_child ch node) =
  match children_ node !! ch with Some c => children_ c | None => ∅ end.
Proof. unfold Put_child. by destruct (children_ node !! ch). Qed.

Lemma Remove_fold_Put_path key : ∀ node x,
  pruned_below node → stored (Some node) key = None →
  Remove_fold key (Put_path key node x)
    (TrieNode_of (children_ (Put_last key node))) = node.
Proof.
  induction key as [|ch key IH]; intros node x Hb Hs; simpl in *.
  - rewrite stored_nil in Hs. destruct node; simpl in *. by subst.
  - rewrite lookup_insert_eq.
    rewrite IH; [|by apply pruned_below_Put_child|].
    2:{ rewrite stored_Put_child. by rewrite stored_cons in Hs. }
    unfold Put_child. destruct (children_ node !! ch) as [c|] eqn:Hc.
    + rewrite Clone_id. rewrite Remove_link_alive.
      2:{ specialize (Hb ch). rewrite Hc in Hb. by apply pruned_Some in Hb as [? _]. }
      simpl. rewrite insert_insert_eq, insert_id by done. by destruct node.
    + rewrite Remove_link_dead by done. simpl.
      rewrite delete_insert_eq, delete_id by done. by destruct node.
Qed.

Lemma Remove_fold_chain key : ∀ node x,
  children_ node = ∅ →
  let r := Remove_fold key (Put_path key node x)
             (TrieNode_of (children_ (Put_last key node))) in
  children_ r = ∅
  ∧ value_ r = match key with [] => None | _ => value_ node end.
Proof.
  induction key as [|ch key IH]; intros node x Hc; simpl in *; [done|].
  rewrite lookup_insert_eq.
  assert (Put_child ch node = TrieNode_new) as ->.
  { unfold Put_child. by rewrite Hc, lookup_empty. }
  destruct (IH TrieNode_new x eq_refl) as [IH1 IH2].
  rewrite Remove_link_dead.
  2:{ split; [done|]. rewrite IH2. by destruct key. }
  simpl. by rewrite delete_insert_eq, Hc, delete_empty.
Qed.

Lemma Trie_run_new_pruned cs t :
  Trie_run cs (@Trie_new type payload) = Some t → pruned (root_ t).
Proof. apply Trie_run_pruned. apply pruned_None. Qed.

(** ** The trie as a map *)

Lemma stored_Trie_Put T key v t t' key' :
  Trie_Put T key v t = Some t' →
  stored (root_ t') key' =
  if decide (key' = key) then Some (T, v) else stored (root_ t) key'.
Proof.
  rewrite Trie_Put_eq. simpl. intros [= <-]. simpl.
  case_decide as Hk.
  - subst. unfold stored. by rewrite Get_walk_Put_path.
  - by rewrite stored_Put_path_ne, stored_root_or_new.
Qed.

Lemma stored_Trie_Remove key t t' key' :
  Trie_Remove key t = Some t' →
  stored (root_ t') key' = None
  ∨ stored (root_ t') key' =
    if decide (key' = key) then None else stored (root_ t) key'.
Proof.
  rewrite Trie_Remove_eq.
  destruct (root_ t) as [root|] eqn:Hr.
  2:{ destruct key; [done|]. intros [= <-]. left. by rewrite Hr, stored_None. }
  destruct (Get_walk (Some root) key) as [last|] eqn:Hw.
  2:{ intros [= <-]. right. rewrite Hr. case_decide; [|done].
      subst. unfold stored. by rewrite Hw. }
  unfold is_value_node_. destruct (value_ last) eqn:Hv.
  2:{ intros [= <-]. right. rewrite Hr. case_decide; [|done].
      subst. unfold stored. by rewrite Hw, Hv. }
  simpl. intros [= <-].
  destruct (stored_Remove_fold key root last (TrieNode_of (children_ last)))
    as [Hs1 Hs2]; [done..|].
  destruct (children_empty _); simpl; [left; apply stored_None|].
  right. case_decide; [by subst|by apply Hs2].
Qed.

Lemma stored_Trie_Remove_nonempty key t t' key' :
  Trie_Remove key t = Some t' → key' ≠ [] →
  stored (root_ t') key' =
  if decide (key' = key) then None else stored (root_ t) key'.
Proof.
  intros HR Hk. rewrite Trie_Remove_eq in HR.
  destruct (root_ t) as [root|] eqn:Hr.
  2:{ destruct key; [done|]. injection HR as <-. rewrite Hr, stored_None.
      by case_decide. }
  destruct (Get_walk (Some root) key) as [last|] eqn:Hw.
  2:{ injection HR as <-. rewrite Hr. case_decide; [|done].
      subst. unfold stored. by rewrite Hw. }
  unfold is_value_node_ in HR. destruct (value_ last) eqn:Hv.
  2:{ injection HR as <-. rewrite Hr. case_decide; [|done].
      subst. unfold stored. by rewrite Hw, Hv. }
  simpl in HR. injection HR as <-.
  destruct (stored_Remove_fold key root last (TrieNode_of (children_ last)))
    as [Hs1 Hs2]; [done..|].
  destruct (children_empty _) eqn:E; simpl.
  - apply children_empty_spec in E. rewrite stored_None.
    case_decide as Hd; [done|]. rewrite <- (Hs2 key' Hd).
    destruct key' as [|ch' key']; [done|]. by rewrite stored_no_children.
  - case_decide; [by subst|by apply Hs2].
Qed.

Lemma Trie_run_map cs : ∀ t m t',
  (∀ key, key ≠ [] → stored (root_ t) key = m !! key) →
  stored (root_ t) [] = None ∨ stored (root_ t) [] = m !! [] →
  Trie_run cs t = Some t' →
  (∀ key, key ≠ [] → stored (root_ t') key = map_run cs m !! key)
  ∧ (stored (root_ t') [] = None
     ∨ stored (root_ t') [] = map_run cs m !! []).
Proof.
  induction cs as [|c cs IH]; intros t m t' Hne Hnil; simpl.
  { by intros [= <-]. }
  destruct (Trie_perform c t) as [t1|] eqn:Hc; [|done].
  apply IH; destruct c as [T k v|k]; simpl in *.
  - intros key Hkey. rewrite (stored_Trie_Put _ _ _ _ _ _ Hc).
    case_decide as Hd.
    + subst. by rewrite lookup_insert_eq.
    + rewrite lookup_insert_ne by done. by apply Hne.
  - intros key Hkey. rewrite (stored_Trie_Remove_nonempty _ _ _ _ Hc Hkey).
    case_decide as Hd.
    + subst. by rewrite lookup_delete_eq.
    + rewrite lookup_delete_ne by done. by apply Hne.
  - rewrite (stored_Trie_Put _ _ _ _ _ _ Hc). case_decide as Hd.
    + subst. right. by rewrite lookup_insert_eq.
    + rewrite lookup_insert_ne by done. done.
  - destruct (stored_Trie_Remove _ _ _ [] Hc) as [Hs|Hs]; rewrite Hs; [by left|].
    case_decide as Hd.
    + by left.
    + rewrite lookup_delete_ne by done. done.
Qed.

(** ** Properties of [Get], [Put] and [Remove] *)

(** [Put] never pops an empty stack, and the trie it returns gives the new
    value under the key to [Get] of the type of the value, and [nullptr] to
    [Get] of any other type. *)
Theorem trie_get_after_put T key v t :
  ∃ t', Trie_Put T key v t = Some t' ∧ Trie_Get T key t' = Some v
        ∧ ∀ T', T' ≠ T → Trie_Get T' key t' = None.
Proof.
  rewrite Trie_Put_eq. simpl. eexists. split; [done|].
  unfold Trie_Get. simpl. rewrite Get_walk_Put_path. simpl.
  split; [by rewrite decide_True|]. intros T' Hne. by rewrite decide_False.
Qed.

(** [Put] leaves every other key as it is, for [Get] of every type. *)
Theorem trie_put_keeps_other_keys T key v t key' T' :
  key' ≠ key →
  ∃ t', Trie_Put T key v t = Some t'
        ∧ Trie_Get T' key' t' = Trie_Get T' key' t.
Proof.
  intros Hne. rewrite Trie_Put_eq. simpl. eexists. split; [done|].
  rewrite !Trie_Get_stored. simpl.
  by rewrite stored_Put_path_ne, stored_root_or_new.
Qed.

(** [Remove] has undefined behaviour exactly when the key is empty and the
    trie has no root: it reads [is_value_node_] through the null
    [root_].  In every other case it returns, and no index of its second
    loop is out of range. *)
Theorem trie_remove_undefined_iff key t :
  Trie_Remove key t = None ↔ key = [] ∧ root_ t = None.
Proof.
  rewrite Trie_Remove_eq. destruct (root_ t) as [root|].
  - destruct (Get_walk (Some root) key) as [last|]; [|naive_solver].
    destruct (is_value_node_ last); naive_solver.
  - destruct key; naive_solver.
Qed.

(** After [Remove] the key has no value, of any type. *)
Theorem trie_get_after_remove key t t' T :
  Trie_Remove key t = Some t' → Trie_Get T key t' = None.
Proof.
  rewrite Trie_Remove_eq, Trie_Get_stored.
  destruct (root_ t) as [root|] eqn:Hr.
  2:{ destruct key; [done|]. intros [= <-]. by rewrite Hr, stored_None. }
  destruct (Get_walk (Some root) key) as [last|] eqn:Hw.
  2:{ intros [= <-]. unfold stored. by rewrite Hr, Hw. }
  unfold is_value_node_. destruct (value_ last) eqn:Hv.
  2:{ intros [= <-]. unfold stored. by rewrite Hr, Hw, Hv. }
  simpl. intros [= <-].
  destruct (stored_Remove_fold key root last (TrieNode_of (children_ last)))
    as [Hs _]; [done..|].
  destruct (children_empty _); simpl; [by rewrite stored_None|by rewrite Hs].
Qed.

(** [Remove] leaves every other key as it is, the empty key apart when the
    trie returned has no root. *)
Theorem trie_remove_keeps_other_keys key t t' key' T :
  Trie_Remove key t = Some t' → key' ≠ key → key' ≠ [] ∨ root_ t' ≠ None →
  Trie_Get T key' t' = Trie_Get T key' t.
Proof.
  rewrite Trie_Remove_eq, !Trie_Get_stored.
  destruct (root_ t) as [root|] eqn:Hr.
  2:{ destruct key; [done|]. intros [= <-] _ _. by rewrite Hr. }
  destruct (Get_walk (Some root) key) as [last|] eqn:Hw.
  2:{ intros [= <-] _ _. by rewrite Hr. }
  destruct (is_value_node_ last).
  2:{ intros [= <-] _ _. by rewrite Hr. }
  simpl. intros [= <-] Hne Hk.
  destruct (stored_Remove_fold key root last (TrieNode_of (children_ last)))
    as [_ Hs]; [done..|].
  rewrite <- (Hs key' Hne).
  destruct (children_empty _) eqn:E; simpl in *; [|done].
  destruct Hk as [Hk|Hk]; [|done].
  destruct key' as [|ch' key']; [done|].
  rewrite stored_None, stored_no_children; [done|].
  by apply children_empty_spec.
Qed.

(** [Remove] returns the trie it was called on exactly when the key has no
    value of any type (and the call is not the undefined one). *)
Theorem trie_remove_is_identity_iff key t :
  Trie_Remove key t = Some t
  ↔ stored (root_ t) key = None ∧ (key ≠ [] ∨ root_ t ≠ None).
Proof.
  rewrite Trie_Remove_eq. destruct (root_ t) as [root|] eqn:Hr.
  2:{ rewrite stored_None. destruct key; naive_solver. }
  unfold stored at 1.
  destruct (Get_walk (Some root) key) as [last|] eqn:Hw; [|naive_solver].
  unfold is_value_node_. destruct (value_ last) eqn:Hv; [|naive_solver].
  simpl. split; [|naive_solver].
  intros [= Ht]. exfalso.
  destruct (stored_Remove_fold key root last (TrieNode_of (children_ last)))
    as [Hs _]; [done..|].
  assert (stored (root_ t) key = None) as Hst.
  { rewrite <- Ht. destruct (children_empty _); simpl;
      [by rewrite stored_None|done]. }
  unfold stored in Hst. by rewrite Hr, Hw, Hv in Hst.
Qed.

(** No trie made from the empty trie by [Put] and [Remove] has a node
    without children and without a value; the root is such a node of the
    trie too. *)
Theorem trie_built_has_no_dead_node cs t :
  Trie_run cs Trie_new = Some t → pruned (root_ t).
Proof. apply Trie_run_new_pruned. Qed.

(** [Remove] undoes [Put]: on a trie made by [Put] and [Remove], [Put] of a
    key that has no value followed by [Remove] of the key returns the trie
    itself, unless the trie holds a value under the empty key and nothing
    else. *)
Theorem trie_remove_undoes_put cs t T key v :
  Trie_run cs Trie_new = Some t → stored (root_ t) key = None →
  only_empty_key t = false →
  ∃ t1, Trie_Put T key v t = Some t1 ∧ Trie_Remove key t1 = Some t.
Proof.
  intros Hrun Hs Hroot. apply Trie_run_new_pruned in Hrun.
  rewrite Trie_Put_eq. simpl. eexists. split; [done|].
  rewrite Trie_Remove_eq. simpl. rewrite Get_walk_Put_path. simpl.
  rewrite Remove_fold_Put_path.
  2:{ by apply pruned_root_or_new. }
  2:{ by rewrite stored_root_or_new. }
  unfold only_empty_key in Hroot. destruct t as [[root|]]; simpl in *.
  - by rewrite Hroot.
  - done.
Qed.

(** When the trie holds a value under the empty key and nothing else, [Put]
    of another key followed by [Remove] of that key returns the empty trie:
    the value under the empty key is lost, and [Remove] of the empty key has
    undefined behaviour afterwards. *)
Theorem trie_remove_drops_empty_key cs t T key w :
  Trie_run cs Trie_new = Some t → only_empty_key t = true → key ≠ [] →
  ∃ T0 v t1,
    Trie_Get T0 [] t = Some v
    ∧ Trie_Put T key w t = Some t1 ∧ Trie_Get T0 [] t1 = Some v
    ∧ Trie_Remove key t1 = Some Trie_new
    ∧ Trie_Get T0 [] (@Trie_new type payload) = None
    ∧ Trie_Remove [] (@Trie_new type payload) = None.
Proof.
  intros Hrun Hroot Hkey. apply Trie_run_new_pruned in Hrun.
  unfold only_empty_key in Hroot.
  destruct t as [[root|]]; simpl in *; [|done].
  apply children_empty_spec in Hroot.
  apply pruned_Some in Hrun as [Hd _].
  destruct (value_ root) as [[T0 v]|] eqn:Hv; [|by destruct Hd].
  exists T0, v. rewrite Trie_Put_eq. simpl. eexists.
  split; [|split; [done|]].
  { unfold Trie_Get. simpl. by rewrite Hv, decide_True. }
  split.
  { rewrite Trie_Get_stored. simpl. rewrite stored_Put_path_ne by done.
    rewrite stored_nil, Hv. by rewrite decide_True. }
  split; [|done].
  rewrite Trie_Remove_eq. simpl. rewrite Get_walk_Put_path. simpl.
  destruct (Remove_fold_chain key root
              (TrieNodeWithValue (children_ (Put_last key root)) T w) Hroot)
    as [Hc _].
  apply children_empty_spec in Hc. by rewrite Hc.
Qed.

(** A trie made from the empty trie by [Put] and [Remove] answers [Get] for
    every non-empty key as the finite map does on which [Put] inserts and
    [Remove] deletes; for the empty key it answers as the map does, or with
    [nullptr]. *)
Theorem trie_refines_map cs t T key :
  Trie_run cs Trie_new = Some t →
  (key ≠ [] → Trie_Get T key t = map_Get T key (map_run cs ∅))
  ∧ (Trie_Get T [] t = None
     ∨ Trie_Get T [] t = map_Get T [] (map_run cs ∅)).
Proof.
  intros Hrun.
  destruct (Trie_run_map cs Trie_new ∅ t) as [Hne Hnil];
    [by intros; simpl; rewrite stored_None, lookup_empty|by left|done|].
  unfold map_Get. rewrite !Trie_Get_stored. split.
  - intros Hk. by rewrite Hne.
  - destruct Hnil as [Hs|Hs]; rewrite Hs; [by left|by right].
Qed.

End trie_facts.

(** ** The properties at concrete tries *)

Lemma trie_get_after_put_witness :
  ∃ t', Trie_Put uint32_t (key_of "a") 5 trie_A = Some t'
        ∧ Trie_Get uint32_t (key_of "a") t' = Some 5
        ∧ ∀ T', T' ≠ uint32_t → Trie_Get T' (key_of "a") t' = None.
Proof. apply trie_get_after_put. Defined.

Lemma trie_put_keeps_other_keys_witness :
  ∃ t', Trie_Put uint32_t (key_of "abc") 5 trie_A = Some t'
        ∧ Trie_Get uint64_t (key_of "a") t'
          = Trie_Get uint64_t (key_of "a") trie_A.
Proof. apply trie_put_keeps_other_keys. by vm_compute. Defined.

Lemma trie_remove_undefined_iff_witness :
  Trie_Remove (key_of "") (@Trie_new cpp_type Z) = None.
Proof. apply trie_remove_undefined_iff. split; reflexivity. Defined.

Lemma trie_get_after_remove_witness :
  Trie_Get uint32_t (key_of "ab")
    (mkTrie (Some (mkTrieNode
       {[ "a"%char := mkTrieNode ∅ (Some (uint64_t, 2)) ]} None))) = None.
Proof.
  apply (trie_get_after_remove (key_of "ab") trie_A).
  vm_compute. reflexivity.
Defined.

Lemma trie_remove_keeps_other_keys_witness :
  Trie_Get uint64_t (key_of "a")
    (mkTrie (Some (mkTrieNode
       {[ "a"%char := mkTrieNode ∅ (Some (uint64_t, 2)) ]} None)))
  = Trie_Get uint64_t (key_of "a") trie_A.
Proof.
  apply (trie_remove_keeps_other_keys (key_of "ab")).
  - vm_compute. reflexivity.
  - by vm_compute.
  - left. by vm_compute.
Defined.

Lemma trie_remove_is_identity_iff_witness :
  Trie_Remove (key_of "cd") trie_A = Some trie_A.
Proof.
  apply trie_remove_is_identity_iff. split.
  - vm_compute. reflexivity.
  - left. by vm_compute.
Defined.

Lemma trie_built_has_no_dead_node_witness : pruned (root_ trie_A).
Proof.
  apply (trie_built_has_no_dead_node trie_calls_A).
  vm_compute. reflexivity.
Defined.

Lemma trie_remove_undoes_put_witness :
  ∃ t1, Trie_Put std_string (key_of "abc") 9 trie_A = Some t1
        ∧ Trie_Remove (key_of "abc") t1 = Some trie_A.
Proof.
  apply (trie_remove_undoes_put trie_calls_A).
  - vm_compute. reflexivity.
  - vm_compute. reflexivity.
  - vm_compute. reflexivity.
Defined.

Lemma trie_remove_drops_empty_key_witness :
  ∃ T0 v t1,
    Trie_Get T0 [] trie_B = Some v
    ∧ Trie_Put uint64_t (key_of "xy") 8 trie_B = Some t1
    ∧ Trie_Get T0 [] t1 = Some v
    ∧ Trie_Remove (key_of "xy") t1 = Some Trie_new
    ∧ Trie_Get T0 [] (@Trie_new cpp_type Z) = None
    ∧ Trie_Remove [] (@Trie_new cpp_type Z) = None.
Proof.
  apply (trie_remove_drops_empty_key trie_calls_B).
  - vm_compute. reflexivity.
  - vm_compute. reflexivity.
  - by vm_compute.
Defined.

Lemma trie_refines_map_witness :
  (key_of "a" ≠ [] →
   Trie_Get uint64_t (key_of "a") trie_A
   = map_Get uint64_t (key_of "a") (map_run trie_calls_A ∅))
  ∧ (Trie_Get uint64_t [] trie_A = None
     ∨ Trie_Get uint64_t [] trie_A
       = map_Get uint64_t [] (map_run trie_calls_A ∅)).
Proof.
  apply (trie_refines_map trie_calls_A trie_A uint64_t (key_of "a")).
  vm_compute. reflexivity.
Defined.
